(** * ATen operator executor and ROCm reduction kernels: a shallow embedding

    The development follows the two source files of the repository:
    the torch extension that executes ATen operators on DLPack tensors
    and walks the autograd graph by hand, and the header that declares
    the ROCm reduction kernels. *)

From Stdlib Require Import ZArith List Bool Lia Sorted.
From Stdlib.Strings Require Import Byte.
From stdpp Require Import gmap strings list fin_maps functions.

Local Open Scope Z_scope.

(** ** Outcomes of a call

    [TORCH_INTERNAL_ASSERT] raises; a null pointer or an index past the
    end of a vector is undefined behaviour and is recorded as a failure
    of its own; [HostThrow] is an exception raised inside torch;
    [OutOfFuel] marks a loop of the model that was cut short, it is
    not an outcome of the program. *)

Inductive Failure :=
| InternalAssert
| NullDereference
| OutOfRange
| HostThrow
| OutOfFuel.

Inductive Res (A : Type) :=
| Ok (a : A)
| Err (e : Failure).
Arguments Ok {A} a.
Arguments Err {A} e.

Definition res_bind {A B} (r : Res A) (k : A -> Res B) : Res B :=
  match r with
  | Ok a => k a
  | Err e => Err e
  end.

Definition TORCH_INTERNAL_ASSERT (cond : bool) : Res unit :=
  if cond then Ok tt else Err InternalAssert.

(** A computation over a state [S]: the state reached is kept when the
    computation raises, as the effects of a C++ function are. *)
Definition Exec (S A : Type) : Type := S -> Res A * S.

Definition pure {S A} (a : A) : Exec S A := fun s => (Ok a, s).
Definition raise {S A} (e : Failure) : Exec S A := fun s => (Err e, s).
Definition exec_bind {S A B} (m : Exec S A) (k : A -> Exec S B) : Exec S B :=
  fun s => match m s with
           | (Ok a, s') => k a s'
           | (Err e, s') => (Err e, s')
           end.
Definition lift_res {S A} (r : Res A) : Exec S A := fun s => (r, s).
Definition get_state {S} : Exec S S := fun s => (Ok s, s).
Definition modify {S} (f : S -> S) : Exec S unit := fun s => (Ok tt, f s).

Declare Scope exec_scope.
Delimit Scope exec_scope with exec.
Notation "'let*' x ':=' c 'in' k" := (exec_bind c (fun x => k))
  (at level 10, x name, c at level 100, k at level 200) : exec_scope.
Notation "'let?' x ':=' c 'in' k" := (res_bind c (fun x => k))
  (at level 10, x name, c at level 100, k at level 200) : exec_scope.
Local Open Scope exec_scope.

(** ** DLPack *)

Module DLPack.

Inductive DLDataTypeCode :=
| kDLInt
| kDLUInt
| kDLFloat
| kDLOpaqueHandle
| kDLBfloat
| kDLComplex.

Definition code_eqb (a b : DLDataTypeCode) : bool :=
  match a, b with
  | kDLInt, kDLInt | kDLUInt, kDLUInt | kDLFloat, kDLFloat
  | kDLOpaqueHandle, kDLOpaqueHandle | kDLBfloat, kDLBfloat
  | kDLComplex, kDLComplex => true
  | _, _ => false
  end.

Record DLDataType := mkDLDataType {
  code : DLDataTypeCode;
  bits : Z
}.

(** [data] is the memory behind the [void*]; [shape] is [None] for a
    null pointer. *)
Record DLTensor := mkDLTensor {
  data : list byte;
  ndim : Z;
  shape : option (list Z);
  dtype : DLDataType
}.

(** [manager_ctx] stands for the opaque context of the owner. *)
Record DLManagedTensor := mkDLManagedTensor {
  dl_tensor : DLTensor;
  manager_ctx : positive
}.

(** [shape[i]] *)
Definition shape_at (t : DLTensor) (i : nat) : Res Z :=
  match shape t with
  | None => Err NullDereference
  | Some dims =>
      match dims !! i with
      | Some d => Ok d
      | None => Err OutOfRange
      end
  end.

(** [static_cast<size_t>(x)] for a 64-bit [x] *)
Definition to_size_t (x : Z) : nat := Z.to_nat (x mod 2 ^ 64).

(** The bytes of the [i]-th object of [size] bytes. *)
Definition object_at (mem : list byte) (size i : nat) : Res (list byte) :=
  let bs := firstn size (skipn (i * size) mem) in
  if (length bs =? size)%nat then Ok bs else Err OutOfRange.

Definition le_unsigned (bs : list byte) : Z :=
  fold_right (fun b acc => Z.of_N (Byte.to_N b) + 256 * acc) 0 bs.

Definition le_signed (bs : list byte) : Z :=
  let u := le_unsigned bs in
  let w := 2 ^ (8 * Z.of_nat (length bs)) in
  if u <? w / 2 then u else u - w.

End DLPack.
Export DLPack.

(** ** The torch objects the executor touches *)

Module Torch.

(** [at::Tensor] is a counted handle on a [TensorImpl]; copying or
    assigning a tensor copies the handle, and an in-place operation
    changes the [TensorImpl] all its handles see. *)
Abbreviation Tensor := positive (only parsing).

(** [std::shared_ptr<torch::autograd::Node>] *)
Abbreviation NodeId := positive (only parsing).

Record TensorImpl := mkTensorImpl {
  payload : Z;                 (* the contents of the storage *)
  scalar_type : DLDataType;    (* the dtype, as DLPack names it *)
  is_contiguous : bool;
  requires_grad : bool;
  grad : option Tensor;        (* [None]: an undefined tensor *)
  grad_fn : option NodeId
}.

(** [isDifferentiableType]: the floating point and the complex dtypes. *)
Definition isDifferentiableType (t : DLDataType) : bool :=
  match code t with
  | kDLFloat | kDLBfloat | kDLComplex => true
  | kDLInt | kDLUInt | kDLOpaqueHandle => false
  end.

(** [cell] gives the [TensorImpl] behind a handle and [next] the handle
    of the next allocation; [flowed] is a record kept for the proofs: the
    accumulators a gradient was handed to, in order, each with the
    contents of the gradient at that moment. *)
Record Heap := mkHeap {
  cell : Tensor -> TensorImpl;
  next : positive;
  flowed : list (NodeId * Z)
}.

Definition alloc (impl : TensorImpl) : Exec Heap Tensor :=
  fun h => (Ok (next h),
            {| cell := <[next h := impl]> (cell h); next := Pos.succ (next h);
               flowed := flowed h |}).

Definition update (t : Tensor) (f : TensorImpl -> TensorImpl) : Exec Heap unit :=
  modify (fun h => {| cell := <[t := f (cell h t)]> (cell h); next := next h;
                      flowed := flowed h |}).

Definition note_flow (accumulator : NodeId) (gradient : Tensor) : Exec Heap unit :=
  modify (fun h => {| cell := cell h; next := next h;
                      flowed := flowed h ++ [(accumulator, payload (cell h gradient))] |}).

Definition read {A} (t : Tensor) (f : TensorImpl -> A) : Exec Heap A :=
  fun h => (Ok (f (cell h t)), h).

(** [tensor.contiguous()] when the tensor is not contiguous: a fresh
    contiguous tensor with the same contents. *)
Definition contiguous (t : Tensor) : Exec Heap Tensor :=
  let* impl := read t id in
  alloc {| payload := payload impl; scalar_type := scalar_type impl;
           is_contiguous := true;
           requires_grad := requires_grad impl; grad := None;
           grad_fn := grad_fn impl |}.

(** [tensor.requires_grad_(true)]: torch throws when the dtype of the
    tensor is neither floating point nor complex, and sets the flag
    otherwise. *)
Definition requires_grad_ (t : Tensor) : Exec Heap unit :=
  let* differentiable := read t (fun impl => isDifferentiableType (scalar_type impl)) in
  if differentiable then
    update t (fun impl =>
      {| payload := payload impl; scalar_type := scalar_type impl;
         is_contiguous := is_contiguous impl;
         requires_grad := true; grad := grad impl; grad_fn := grad_fn impl |})
  else raise HostThrow.

(** [variable.mutable_grad() = g]: the grad slot now holds the handle [g]. *)
Definition set_grad (v : Tensor) (g : Tensor) : Exec Heap unit :=
  update v (fun impl =>
    {| payload := payload impl; scalar_type := scalar_type impl;
       is_contiguous := is_contiguous impl;
       requires_grad := requires_grad impl; grad := Some g;
       grad_fn := grad_fn impl |}).

(** [self += other]: in place, on the [TensorImpl] behind [self]. *)
Definition add_ (self other : Tensor) : Exec Heap unit :=
  let* o := read other payload in
  update self (fun impl =>
    {| payload := payload impl + o; scalar_type := scalar_type impl;
       is_contiguous := is_contiguous impl;
       requires_grad := requires_grad impl; grad := grad impl;
       grad_fn := grad_fn impl |}).

(** What at::fromDLPack and at::toDLPack make of a buffer and of a tensor
    is torch's business; the executor only moves the results around. The
    tensor made of a buffer has the dtype of the buffer. *)
Class ATenDLPack := {
  dl_payload : DLManagedTensor -> Z;
  dl_contiguous : DLManagedTensor -> bool;
  dl_export : Tensor -> TensorImpl -> DLManagedTensor
}.

Section DLConvertor.
Context `{ATenDLPack}.

Definition fromDLPack (dlpack : DLManagedTensor) : Exec Heap Tensor :=
  alloc {| payload := dl_payload dlpack; scalar_type := dtype (dl_tensor dlpack);
           is_contiguous := dl_contiguous dlpack;
           requires_grad := false; grad := None; grad_fn := None |}.

Definition toDLPack (t : Tensor) : Exec Heap DLManagedTensor :=
  read t (dl_export t).

End DLConvertor.

(** *** Autograd nodes *)

Record Edge := mkEdge {
  function : option NodeId;    (* [None]: an invalid edge, null function *)
  input_nr : nat
}.

(** [variable] is the member of an [AccumulateGrad] node, [None] for a
    node of another class (the dynamic cast gives null); [apply] is the
    node's call operator. *)
Record Node := mkNode {
  name : string;
  next_edges : list Edge;
  variable : option Tensor;
  apply : list Tensor -> Exec Heap (list Tensor)
}.

Record State := mkState {
  heap : Heap;
  graph : NodeId -> Node
}.

Definition on_heap {A} (m : Exec Heap A) : Exec State A :=
  fun s => let (r, h) := m (heap s) in (r, {| heap := h; graph := graph s |}).

(** *** IValue *)

Record float := mkFloat { float_bits : Z }.

Inductive IValue :=
| IVNone
| IVTensor (t : Tensor)
| IVInt (i : Z)
| IVDouble (d : float)
| IVBool (b : bool)
| IVString (s : string)
| IVIntList (l : list Z)
| IVDoubleList (l : list float)
| IVBoolList (l : list bool).

(** [c10::IValue(c10::optional<T>)]: the payload when there is one. *)
Definition IValue_optional (v : option IValue) : IValue :=
  match v with
  | Some x => x
  | None => IVNone
  end.

Definition toTensor (v : IValue) : Res Tensor :=
  match v with
  | IVTensor t => Ok t
  | _ => Err InternalAssert
  end.

(** [v.toOptional<at::Tensor>().value()] *)
Definition toOptionalTensor_value (v : IValue) : Res Tensor :=
  match v with
  | IVNone => Err HostThrow
  | _ => toTensor v
  end.

(** *** Types and schemas *)

Inductive TypeKind :=
| AnyType
| TensorType
| NoneType
| IntType
| FloatType
| BoolType
| NumberType
| StringType
| DeviceObjType
| OptionalType
| ListType.

Definition kind_eqb (a b : TypeKind) : bool :=
  match a, b with
  | AnyType, AnyType | TensorType, TensorType | NoneType, NoneType
  | IntType, IntType | FloatType, FloatType | BoolType, BoolType
  | NumberType, NumberType | StringType, StringType
  | DeviceObjType, DeviceObjType | OptionalType, OptionalType
  | ListType, ListType => true
  | _, _ => false
  end.

Inductive Type_ :=
| AnyT
| TensorT
| NoneT
| IntT
| FloatT
| BoolT
| NumberT
| StringT
| DeviceObjT
| OptionalT (elem : Type_)
| ListT (elem : Type_).

Definition kind (t : Type_) : TypeKind :=
  match t with
  | AnyT => AnyType
  | TensorT => TensorType
  | NoneT => NoneType
  | IntT => IntType
  | FloatT => FloatType
  | BoolT => BoolType
  | NumberT => NumberType
  | StringT => StringType
  | DeviceObjT => DeviceObjType
  | OptionalT _ => OptionalType
  | ListT _ => ListType
  end.

(** [reinterpret_cast<X*>(type.get())->getElementType()]; the cast is
    only sound on an [X], which is the only place the source does it. *)
Definition getElementType (t : Type_) : Type_ :=
  match t with
  | OptionalT e => e
  | ListT e => e
  | other => other
  end.

Record Argument := mkArgument {
  arg_type : Type_;
  default_value : option IValue
}.

Record FunctionSchema := mkSchema {
  arguments : list Argument;
  returns : list Type_
}.

(** A registered operator: its schema and what [getOperation()] does to
    a stack. *)
Record Operator := mkOperator {
  schema : FunctionSchema;
  getOperation : list IValue -> Exec State (list IValue)
}.

End Torch.
Export Torch.

(** ** The executor: converting DLPack arguments *)

Module Executor.

(** The element types the templates [ToIValue<T>] and [ToListIValue<T>]
    are instantiated at: the size of an object, how its bytes are read,
    and the [IValue] constructors for a value and for a list. *)
Class CType (T : Type) := {
  sizeof : nat;
  reinterpret : list byte -> T;
  IValue_of : T -> IValue;
  IValue_of_list : list T -> IValue
}.

#[export] Instance int64_t_CType : CType Z :=
  {| sizeof := 8; reinterpret := le_signed;
     IValue_of := IVInt; IValue_of_list := IVIntList |}.

#[export] Instance float_CType : CType float :=
  {| sizeof := 4; reinterpret := fun bs => mkFloat (le_unsigned bs);
     IValue_of := IVDouble; IValue_of_list := IVDoubleList |}.

#[export] Instance bool_CType : CType bool :=
  {| sizeof := 1; reinterpret := fun bs => negb (le_unsigned bs =? 0);
     IValue_of := IVBool; IValue_of_list := IVBoolList |}.

(** [reinterpret_cast<const T*>(data)[i]] *)
Definition load (T : Type) `{CType T} (mem : list byte) (i : nat) : Res T :=
  let? bs := object_at mem sizeof i in Ok (reinterpret bs).

(** The [i]-th 64-bit integer of a buffer. *)
Definition int64_at (mem : list byte) (i : nat) : Z :=
  le_signed (firstn 8 (skipn (i * 8) mem)).

(** [static_cast<bool>(x)] for an integer [x] *)
Definition int64_to_bool (x : Z) : bool := negb (x =? 0).

(** The assertion shared by the scalar conversions:
    [(ndim == 0 && shape == nullptr) || (ndim == 1 && shape[0] == 1)]. *)
Definition scalar_shape (t : DLTensor) : Res bool :=
  if (ndim t =? 0) && bool_decide (shape t = None) then Ok true
  else if ndim t =? 1 then let? s0 := shape_at t 0 in Ok (s0 =? 1)
  else Ok false.

Definition ToIValue (T : Type) `{CType T} (dlpack : DLManagedTensor)
    (is_optional : bool) : Res IValue :=
  let? ok := scalar_shape (dl_tensor dlpack) in
  let? _ := TORCH_INTERNAL_ASSERT ok in
  let? value := load T (data (dl_tensor dlpack)) 0 in
  Ok (if is_optional then IValue_optional (Some (IValue_of value))
      else IValue_of value).

(** The loop [for (i = ...; i < len; i++) list_value.emplace_back(f(p_data[i]))],
    with [n] the iterations left. *)
Fixpoint emplace_loop {T U : Type} `{CType T} (f : T -> U) (p_data : list byte)
    (i n : nat) (list_value : list U) : Res (list U) :=
  match n with
  | O => Ok list_value
  | S n' =>
      let? x := load T p_data i in
      emplace_loop f p_data (S i) n' (list_value ++ [f x])
  end.

Definition ToListIValue (T : Type) `{CType T} (dlpack : DLManagedTensor)
    (is_optional : bool) : Res IValue :=
  let? _ := TORCH_INTERNAL_ASSERT (ndim (dl_tensor dlpack) =? 1) in
  let p_data := data (dl_tensor dlpack) in
  let? len0 := shape_at (dl_tensor dlpack) 0 in
  let len := to_size_t len0 in
  let? list_value := emplace_loop (T := T) id p_data 0 len [] in
  Ok (if is_optional then IValue_optional (Some (IValue_of_list list_value))
      else IValue_of_list list_value).

Definition Int64ToBoolIValue (dlpack : DLManagedTensor) (is_list is_optional : bool)
    : Res IValue :=
  if is_list then
    let? _ := TORCH_INTERNAL_ASSERT (ndim (dl_tensor dlpack) =? 1) in
    let p_data := data (dl_tensor dlpack) in
    let? len0 := shape_at (dl_tensor dlpack) 0 in
    let len := to_size_t len0 in
    let? list_value := emplace_loop (T := Z) int64_to_bool p_data 0 len [] in
    Ok (if is_optional then IValue_optional (Some (IVBoolList list_value))
        else IVBoolList list_value)
  else
    let? ok := scalar_shape (dl_tensor dlpack) in
    let? _ := TORCH_INTERNAL_ASSERT ok in
    let? x := load Z (data (dl_tensor dlpack)) 0 in
    let value := int64_to_bool x in
    Ok (if is_optional then IValue_optional (Some (IVBool value))
        else IVBool value).

Record ATenOperator := mkATenOperator {
  op : Operator;
  argument_size : nat;
  elem_kinds : list TypeKind;
  is_list_arguments : list bool;
  is_optional_arguments : list bool;
  default_values : list (option IValue);
  return_size : nat
}.

(** [v[i]] on a [std::vector] *)
Definition at_ {A} (v : list A) (i : nat) : Res A :=
  match v !! i with
  | Some x => Ok x
  | None => Err OutOfRange
  end.

Definition dtype_is (dlpack : DLManagedTensor) (c : DLDataTypeCode) (b : Z) : bool :=
  code_eqb (code (dtype (dl_tensor dlpack))) c && (bits (dtype (dl_tensor dlpack)) =? b).

Section ToIValueArgument.
Context `{ATenDLPack}.

Definition ToIValueArgument (self : ATenOperator) (dlpack : option DLManagedTensor)
    (index : nat) : Exec Heap IValue :=
  let* _ := lift_res (TORCH_INTERNAL_ASSERT (index <? argument_size self)%nat) in
  let* is_optional := lift_res (at_ (is_optional_arguments self) index) in
  let* cond := lift_res
    (if bool_decide (dlpack <> None) || is_optional then Ok true
     else let? d := at_ (default_values self) index in Ok (bool_decide (d <> None))) in
  let* _ := lift_res (TORCH_INTERNAL_ASSERT cond) in
  match dlpack with
  | None =>
      if is_optional then pure IVNone
      else
        let* d := lift_res (at_ (default_values self) index) in
        match d with
        | Some v => pure v
        | None => raise NullDereference
        end
  | Some dl =>
      let* is_list := lift_res (at_ (is_list_arguments self) index) in
      let* elem_kind := lift_res (at_ (elem_kinds self) index) in
      match elem_kind with
      | TensorType =>
          let* tensor := fromDLPack dl in
          pure (if is_optional then IValue_optional (Some (IVTensor tensor))
                else IVTensor tensor)
      | IntType =>
          let* _ := lift_res (TORCH_INTERNAL_ASSERT (dtype_is dl kDLInt 64)) in
          lift_res (if is_list then ToListIValue Z dl is_optional
                    else ToIValue Z dl is_optional)
      | FloatType =>
          let* _ := lift_res (TORCH_INTERNAL_ASSERT (dtype_is dl kDLFloat 32)) in
          lift_res (if is_list then ToListIValue float dl is_optional
                    else ToIValue float dl is_optional)
      | BoolType =>
          if dtype_is dl kDLInt 64 then
            lift_res (Int64ToBoolIValue dl is_list is_optional)
          else
            let* _ := lift_res (TORCH_INTERNAL_ASSERT (dtype_is dl kDLUInt 8)) in
            lift_res (if is_list then ToListIValue bool dl is_optional
                      else ToIValue bool dl is_optional)
      | _ =>
          let* _ := lift_res (TORCH_INTERNAL_ASSERT false) in
          pure IVNone
      end
  end.

End ToIValueArgument.

(** *** The process state the executor works on *)

(** AutogradContext saves forward inputs' grad_fn that require grad, and
    the output's grad_fn. Both are shared pointers, [None] when null. *)
Record AutogradContext := mkAutogradContext {
  output_grad_fn : option NodeId;
  input_grad_fns : list (option NodeId)
}.

(** [registry] is torch's operator registry; [resolved] and [executed]
    record, in order, the registry lookups made and the operations run;
    [ops_] and [autograd_contexts_] are the maps of the two singletons,
    and [context_id_] the static counter of [CreateId]. *)
Record World := mkWorld {
  torch : Torch.State;
  registry : string * string -> option Operator;
  resolved : list (string * string);
  executed : list (Operator * list IValue);
  cout : list string;
  ops_ : gmap (string * string) ATenOperator;
  autograd_contexts_ : gmap Z AutogradContext;
  context_id_ : Z
}.

Definition with_torch (t : Torch.State) (w : World) : World :=
  {| torch := t; registry := registry w; resolved := resolved w;
     executed := executed w; cout := cout w; ops_ := ops_ w;
     autograd_contexts_ := autograd_contexts_ w;
     context_id_ := context_id_ w |}.

Definition on_torch {A} (m : Exec Torch.State A) : Exec World A :=
  fun w => let (r, t) := m (torch w) in (r, with_torch t w).

Definition set_ops (f : gmap (string * string) ATenOperator ->
                        gmap (string * string) ATenOperator) : Exec World unit :=
  modify (fun w =>
    {| torch := torch w; registry := registry w; resolved := resolved w;
       executed := executed w; cout := cout w; ops_ := f (ops_ w);
       autograd_contexts_ := autograd_contexts_ w;
       context_id_ := context_id_ w |}).

Definition set_contexts (f : gmap Z AutogradContext -> gmap Z AutogradContext)
    : Exec World unit :=
  modify (fun w =>
    {| torch := torch w; registry := registry w; resolved := resolved w;
       executed := executed w; cout := cout w; ops_ := ops_ w;
       autograd_contexts_ := f (autograd_contexts_ w);
       context_id_ := context_id_ w |}).

Definition print (line : string) : Exec World unit :=
  modify (fun w =>
    {| torch := torch w; registry := registry w; resolved := resolved w;
       executed := executed w; cout := cout w ++ [line]; ops_ := ops_ w;
       autograd_contexts_ := autograd_contexts_ w;
       context_id_ := context_id_ w |}).

(** [std::unordered_map::emplace]: nothing happens when the key is taken. *)
Definition emplace `{Countable K} {V} (k : K) (v : V) (m : gmap K V) : gmap K V :=
  match m !! k with
  | Some _ => m
  | None => <[k := v]> m
  end.

(** *** ATenOperatorCache *)

(** [torch::jit::findOperatorFor] *)
Definition findOperatorFor (full_name : string * string) : Exec World (option Operator) :=
  fun w => (Ok (registry w full_name),
    {| torch := torch w; registry := registry w;
       resolved := resolved w ++ [full_name];
       executed := executed w; cout := cout w; ops_ := ops_ w;
       autograd_contexts_ := autograd_contexts_ w;
       context_id_ := context_id_ w |}).

(** The body of the loop over [schema.arguments()]. *)
Definition add_argument (aten_op : ATenOperator) (argument : Argument)
    : Res ATenOperator :=
  let type := arg_type argument in
  let elem_type := kind type in
  let is_optional := kind_eqb elem_type OptionalType in
  let is_list := kind_eqb elem_type ListType in
  let type := if is_optional then getElementType type else type in
  let elem_type := if is_optional then kind type else elem_type in
  let is_list := if is_optional then kind_eqb elem_type ListType else is_list in
  let elem_type := if is_list then kind (getElementType type) else elem_type in
  let? _ := TORCH_INTERNAL_ASSERT (negb (kind_eqb elem_type TensorType) || negb is_list) in
  Ok {| op := op aten_op;
        argument_size := argument_size aten_op;
        elem_kinds := elem_kinds aten_op ++ [elem_type];
        is_list_arguments := is_list_arguments aten_op ++ [is_list];
        is_optional_arguments := is_optional_arguments aten_op ++ [is_optional];
        default_values := default_values aten_op ++ [default_value argument];
        return_size := return_size aten_op |}.

Fixpoint add_arguments (aten_op : ATenOperator) (args : list Argument)
    : Res ATenOperator :=
  match args with
  | [] => Ok aten_op
  | argument :: rest =>
      let? aten_op := add_argument aten_op argument in
      add_arguments aten_op rest
  end.

(** The loop over [schema.returns()]. *)
Fixpoint check_returns (rets : list Type_) : Res unit :=
  match rets with
  | [] => Ok tt
  | ret :: rest =>
      let? _ := TORCH_INTERNAL_ASSERT (kind_eqb (kind ret) TensorType) in
      check_returns rest
  end.

Definition make_aten_op (o : Operator) : Res ATenOperator :=
  let aten_op :=
    {| op := o; argument_size := length (arguments (schema o));
       elem_kinds := []; is_list_arguments := []; is_optional_arguments := [];
       default_values := []; return_size := 0 |} in
  let? aten_op := add_arguments aten_op (arguments (schema o)) in
  let aten_op :=
    {| op := op aten_op; argument_size := argument_size aten_op;
       elem_kinds := elem_kinds aten_op;
       is_list_arguments := is_list_arguments aten_op;
       is_optional_arguments := is_optional_arguments aten_op;
       default_values := default_values aten_op;
       return_size := length (returns (schema o)) |} in
  let? _ := check_returns (returns (schema o)) in
  Ok aten_op.

Definition GetOperator (op_name overload_name : string) : Exec World ATenOperator :=
  let key := (op_name, overload_name) in
  let* w := get_state in
  let* _ :=
    match ops_ w !! key with
    | None =>
        let* found := findOperatorFor key in
        let* _ := lift_res (TORCH_INTERNAL_ASSERT (bool_decide (found <> None))) in
        match found with
        | None => raise NullDereference
        | Some o =>
            let* aten_op := lift_res (make_aten_op o) in
            set_ops (emplace key aten_op)
        end
    | Some _ => pure tt
    end in
  let* w := get_state in
  match ops_ w !! key with
  | Some aten_op => pure aten_op
  | None => raise HostThrow
  end.

(** The metadata of an argument in the words of the specification: the
    element kind with the optional and the list wrapper taken off, and
    whether each wrapper was there. *)
Definition spec_is_optional (a : Argument) : bool :=
  match arg_type a with
  | OptionalT _ => true
  | _ => false
  end.

Definition without_optional (t : Type_) : Type_ :=
  match t with
  | OptionalT e => e
  | other => other
  end.

Definition spec_is_list (a : Argument) : bool :=
  match without_optional (arg_type a) with
  | ListT _ => true
  | _ => false
  end.

Definition without_list (t : Type_) : Type_ :=
  match t with
  | ListT e => e
  | other => other
  end.

Definition spec_elem_kind (a : Argument) : TypeKind :=
  kind (without_list (without_optional (arg_type a))).

Definition spec_aten_op (o : Operator) : ATenOperator :=
  {| op := o;
     argument_size := length (arguments (schema o));
     elem_kinds := map spec_elem_kind (arguments (schema o));
     is_list_arguments := map spec_is_list (arguments (schema o));
     is_optional_arguments := map spec_is_optional (arguments (schema o));
     default_values := map default_value (arguments (schema o));
     return_size := length (returns (schema o)) |}.

(** The operators the cache accepts: no argument is a list of tensors
    and every return is a tensor. *)
Definition supported (o : Operator) : Prop :=
  Forall (fun a => ~ (spec_elem_kind a = TensorType /\ spec_is_list a = true))
         (arguments (schema o)) /\
  Forall (fun r => kind r = TensorType) (returns (schema o)).

(** Every cached entry is the metadata of the operator the registry has
    under its key. *)
Definition registered (w : World) : Prop :=
  forall k a, ops_ w !! k = Some a ->
    exists o, registry w k = Some o /\ a = spec_aten_op o.

(** A run of calls of [GetOperator], results dropped. *)
Fixpoint GetOperator_calls (keys : list (string * string)) (w : World) : World :=
  match keys with
  | [] => w
  | key :: rest => GetOperator_calls rest (snd (GetOperator (fst key) (snd key) w))
  end.

(** *** AutogradContextCache *)

(** A 64-bit signed integer after an arithmetic step. *)
Definition wrap_int64 (x : Z) : Z := (x + 2 ^ 63) mod 2 ^ 64 - 2 ^ 63.

(** [return context_id_++;] *)
Definition CreateId : Exec World Z :=
  fun w => (Ok (context_id_ w),
    {| torch := torch w; registry := registry w; resolved := resolved w;
       executed := executed w; cout := cout w; ops_ := ops_ w;
       autograd_contexts_ := autograd_contexts_ w;
       context_id_ := wrap_int64 (context_id_ w + 1) |}).

Definition Insert (autograd_context : AutogradContext) : Exec World Z :=
  let* context_id := CreateId in
  let* _ := set_contexts (emplace context_id autograd_context) in
  pure context_id.

Definition Pop (context_id : Z) : Exec World AutogradContext :=
  let* w := get_state in
  let it := autograd_contexts_ w !! context_id in
  let* _ := lift_res (TORCH_INTERNAL_ASSERT (bool_decide (it <> None))) in
  match it with
  | None => raise NullDereference
  | Some autograd_context =>
      let* _ := set_contexts (delete context_id) in
      pure autograd_context
  end.

(** The life of the cache: a run of [Insert] and [Pop] calls, with what
    each call gave back. *)
Inductive Request :=
| DoInsert (autograd_context : AutogradContext)
| DoPop (context_id : Z).

Inductive Reply :=
| Issued (context_id : Z)
| Popped (r : Res AutogradContext).

Definition serve_one (req : Request) (w : World) : Reply * World :=
  match req with
  | DoInsert c =>
      match Insert c w with
      | (Ok context_id, w') => (Issued context_id, w')
      | (Err e, w') => (Popped (Err e), w')
      end
  | DoPop context_id =>
      let (r, w') := Pop context_id w in (Popped r, w')
  end.

Fixpoint serve (reqs : list Request) (w : World) : list Reply * World :=
  match reqs with
  | [] => ([], w)
  | req :: rest =>
      let (reply, w') := serve_one req w in
      let (replies, w'') := serve rest w' in
      (reply :: replies, w'')
  end.

Definition issued_ids (replies : list Reply) : list Z :=
  omap (fun reply => match reply with
                     | Issued context_id => Some context_id
                     | Popped _ => None
                     end) replies.

Definition is_insert (req : Request) : bool :=
  match req with
  | DoInsert _ => true
  | DoPop _ => false
  end.

Definition inserts (reqs : list Request) : nat := length (filter is_insert reqs).

(** The cache when the process starts: the static counter at its
    initialiser and the map empty. *)
Definition fresh_cache (w : World) : Prop :=
  context_id_ w = 0 /\ autograd_contexts_ w = ∅.

(** The state of the cache after [n] insertions of a fresh life. *)
Definition after_inserts (n : nat) (w : World) : Prop :=
  context_id_ w = wrap_int64 (Z.of_nat n) /\
  forall k, is_Some (autograd_contexts_ w !! k) -> 0 <= k < Z.of_nat n.

(** A computation keeps an observation [f] of the world when no run of
    it changes [f]. *)
Definition keeps {A B} (f : World -> B) (m : Exec World A) : Prop :=
  forall w, f (snd (m w)) = f w.

(** *** Executing an operator *)

Section Execute.
Context `{ATenDLPack}.

Definition on_tensors {A} (m : Exec Heap A) : Exec World A := on_torch (on_heap m).

(** Backend uses this function to check if an argument is CPU input
    (non-tensor argument) or not. *)
Definition IsTensorArgument (op_name overload_name : string) (index : nat)
    : Exec World bool :=
  let* aten_op := GetOperator op_name overload_name in
  let* _ := lift_res (TORCH_INTERNAL_ASSERT (index <? argument_size aten_op)%nat) in
  let* k := lift_res (at_ (elem_kinds aten_op) index) in
  pure (kind_eqb k TensorType).

(** [tensor.is_contiguous() ? tensor : tensor.contiguous()], exported. *)
Definition export_tensor (tensor : Tensor) : Exec Heap DLManagedTensor :=
  let* c := read tensor is_contiguous in
  let* t := (if c then pure tensor else contiguous tensor) in
  toDLPack t.

(** [torch::jit::pop(stack, n)]: the last [n] entries, bottom first. *)
Definition jit_pop (stack : list IValue) (n : nat) : Res (list IValue) :=
  if (length stack <? n)%nat then Err OutOfRange
  else Ok (skipn (length stack - n) stack).

(** The loop of [ExecuteInternal] over the popped returns. *)
Fixpoint export_returns (rets : list IValue) (is_first : bool) (first_output : IValue)
    (result : list DLManagedTensor) : Exec Heap (IValue * list DLManagedTensor) :=
  match rets with
  | [] => pure (first_output, result)
  | ret :: rest =>
      let first_output := if is_first then ret else first_output in
      let* tensor := lift_res (toTensor ret) in
      let* d := export_tensor tensor in
      export_returns rest false first_output (result ++ [d])
  end.

Definition record_execution (o : Operator) (stack : list IValue) : Exec World unit :=
  modify (fun w =>
    {| torch := torch w; registry := registry w; resolved := resolved w;
       executed := executed w ++ [(o, stack)]; cout := cout w; ops_ := ops_ w;
       autograd_contexts_ := autograd_contexts_ w;
       context_id_ := context_id_ w |}).

Definition ExecuteInternal (o : Operator) (arguments : list IValue) (return_size : nat)
    (result : list DLManagedTensor) : Exec World (IValue * list DLManagedTensor) :=
  let stack := arguments in
  let* _ := record_execution o stack in
  let* stack := on_torch (getOperation o stack) in
  let* rets := lift_res (jit_pop stack return_size) in
  on_tensors (export_returns rets true IVNone result).


(** The loop that converts [dlpacks[i]] into [arguments]. *)
Fixpoint convert_arguments (aten_op : ATenOperator) (dlpacks : list (option DLManagedTensor))
    (i : nat) (arguments : list IValue) : Exec Heap (list IValue) :=
  match dlpacks with
  | [] => pure arguments
  | dlpack :: rest =>
      let* v := ToIValueArgument aten_op dlpack i in
      convert_arguments aten_op rest (S i) (arguments ++ [v])
  end.

(** [&tensor.grad()]: the grad slot lives in the [TensorImpl], so two
    handles give the same address exactly when they are the same tensor. *)
Definition grad_address (t : Tensor) : positive := t.

(** The loop over [i < requires_grad.size()], [n] iterations left. *)
Fixpoint mark_inputs (aten_op : ATenOperator) (arguments : list IValue) (i n : nat)
    (grad_ptr_to_indices : gmap positive nat) : Exec Heap (gmap positive nat) :=
  match n with
  | O => pure grad_ptr_to_indices
  | S n' =>
      let* is_optional := lift_res (at_ (is_optional_arguments aten_op) i) in
      let* argument := lift_res (at_ arguments i) in
      let* tensor := lift_res (if is_optional then toOptionalTensor_value argument
                               else toTensor argument) in
      let* _ := requires_grad_ tensor in
      mark_inputs aten_op arguments (S i) n'
        (<[grad_address tensor := i]> grad_ptr_to_indices)
  end.

Definition AccumulateGrad_name : string := "torch::autograd::AccumulateGrad".

(** The body of the loop over the edges of a node in the forward walk;
    the state is the queue and [input_grad_fns]. *)
Definition visit_edge (g : NodeId -> Node) (grad_ptr_to_indices : gmap positive nat)
    (edge : Edge) (st : list (option NodeId) * list (option NodeId))
    : Res (list (option NodeId) * list (option NodeId)) :=
  let (grad_fn_queue, fns) := st in
  match function edge with
  | None => Err NullDereference
  | Some f =>
      if String.eqb (name (g f)) AccumulateGrad_name then
        match variable (g f) with
        | None => Err NullDereference
        | Some v =>
            match grad_ptr_to_indices !! grad_address v with
            | Some i =>
                let? slot := at_ fns i in
                match slot with
                | None => Ok (grad_fn_queue, <[i := Some f]> fns)
                | Some _ => Ok (grad_fn_queue, fns)
                end
            | None => Ok (grad_fn_queue, fns)
            end
        end
      else Ok (grad_fn_queue ++ [Some f], fns)
  end.

Fixpoint visit_edges (g : NodeId -> Node) (grad_ptr_to_indices : gmap positive nat)
    (edges : list Edge) (st : list (option NodeId) * list (option NodeId))
    : Res (list (option NodeId) * list (option NodeId)) :=
  match edges with
  | [] => Ok st
  | edge :: rest =>
      let? st := visit_edge g grad_ptr_to_indices edge st in
      visit_edges g grad_ptr_to_indices rest st
  end.

(** The [while (!grad_fn_queue.empty())] loop of [ExecuteATenOperator]. *)
Fixpoint find_input_grad_fns (fuel : nat) (g : NodeId -> Node)
    (grad_ptr_to_indices : gmap positive nat)
    (grad_fn_queue : list (option NodeId)) (fns : list (option NodeId))
    : Res (list (option NodeId)) :=
  match grad_fn_queue with
  | [] => Ok fns
  | grad_fn :: grad_fn_queue =>
      match fuel with
      | O => Err OutOfFuel
      | S fuel =>
          match grad_fn with
          | None => Err NullDereference
          | Some n =>
              let? st := visit_edges g grad_ptr_to_indices (next_edges (g n))
                           (grad_fn_queue, fns) in
              find_input_grad_fns fuel g grad_ptr_to_indices (fst st) (snd st)
          end
      end
  end.

(** The closing loop that asserts every entry of [input_grad_fns]. *)
Fixpoint check_input_grad_fns (fns : list (option NodeId)) : Res unit :=
  match fns with
  | [] => Ok tt
  | fn :: rest =>
      let? _ := TORCH_INTERNAL_ASSERT (bool_decide (fn <> None)) in
      check_input_grad_fns rest
  end.

(** [p_context_id] tells whether the pointer is non-null; the id written
    through it is returned next to the result vector. The scope guard
    that switches autograd on has no counterpart here. *)
Definition ExecuteATenOperator (fuel : nat) (op_name overload_name : string)
    (dlpacks : list (option DLManagedTensor)) (requires_grad : list Z)
    (p_context_id : bool) : Exec World (list DLManagedTensor * option Z) :=
  let* _ := print "New way..." in
  let* aten_op := GetOperator op_name overload_name in
  let* _ := lift_res (TORCH_INTERNAL_ASSERT (length dlpacks =? argument_size aten_op)%nat) in
  let* arguments := on_tensors (convert_arguments aten_op dlpacks 0 []) in
  let input_grad_fns := replicate (length requires_grad) (@None NodeId) in
  let* grad_ptr_to_indices :=
    on_tensors (mark_inputs aten_op arguments 0 (length requires_grad) ∅) in
  let* _ := lift_res (TORCH_INTERNAL_ASSERT
                        (p_context_id || bool_decide (requires_grad = []))) in
  if p_context_id then
    let* r := ExecuteInternal (op aten_op) arguments (return_size aten_op) [] in
    let* output := lift_res (toTensor (fst r)) in
    let* output_grad_fn := on_tensors (read output grad_fn) in
    let* w := get_state in
    let* fns := lift_res (find_input_grad_fns fuel (graph (torch w)) grad_ptr_to_indices
                            [output_grad_fn] input_grad_fns) in
    let* _ := lift_res (check_input_grad_fns fns) in
    let* context_id := Insert {| output_grad_fn := output_grad_fn;
                                 input_grad_fns := fns |} in
    pure (snd r, Some context_id)
  else
    let* r := ExecuteInternal (op aten_op) arguments (return_size aten_op) [] in
    pure (snd r, None).

(** *** Backward *)

(** The body of the loop over the edges in the backward walk: the state
    is the execution queue and [accu_set]. *)
Definition deliver (g : NodeId -> Node) (edge : Edge) (gradient : Tensor)
    (st : list (option NodeId * Tensor) * gset positive)
    : Exec Heap (list (option NodeId * Tensor) * gset positive) :=
  let (execution_queue, accu_set) := st in
  match function edge with
  | None => raise NullDereference
  | Some f =>
      if String.eqb (name (g f)) AccumulateGrad_name then
        match variable (g f) with
        | None => raise NullDereference
        | Some v =>
            let* _ := note_flow f gradient in
            if bool_decide (f ∉ accu_set) then
              let* _ := set_grad v gradient in
              pure (execution_queue, accu_set ∪ {[ f ]})
            else
              let* current := read v grad in
              match current with
              | None => raise HostThrow
              | Some self =>
                  let* _ := add_ self gradient in
                  pure (execution_queue, accu_set)
              end
        end
      else pure (execution_queue ++ [(Some f, gradient)], accu_set)
  end.

(** [for (i = 0; i < edges.size(); i++)] over [edges[i]] and [gradients[i]]. *)
Fixpoint deliver_all (g : NodeId -> Node) (edges : list Edge) (gradients : list Tensor)
    (st : list (option NodeId * Tensor) * gset positive)
    : Exec Heap (list (option NodeId * Tensor) * gset positive) :=
  match edges with
  | [] => pure st
  | edge :: edges =>
      match gradients with
      | [] => raise OutOfRange
      | gradient :: gradients =>
          let* st := deliver g edge gradient st in
          deliver_all g edges gradients st
      end
  end.

(** The [while (!execution_queue.empty())] loop. *)
Fixpoint propagate (fuel : nat) (g : NodeId -> Node)
    (execution_queue : list (option NodeId * Tensor)) (accu_set : gset positive)
    : Exec Heap unit :=
  match execution_queue with
  | [] => pure tt
  | execution_unit :: execution_queue =>
      match fuel with
      | O => raise OutOfFuel
      | S fuel =>
          match fst execution_unit with
          | None => raise NullDereference
          | Some n =>
              let* gradients := apply (g n) [snd execution_unit] in
              let edges := next_edges (g n) in
              let* _ := lift_res (TORCH_INTERNAL_ASSERT
                                    (length gradients =? length edges)%nat) in
              let* st := deliver_all g edges gradients (execution_queue, accu_set) in
              propagate fuel g (fst st) (snd st)
          end
      end
  end.

(** The closing loop over [input_grad_fns]. *)
Fixpoint export_input_grads (g : NodeId -> Node) (fns : list (option NodeId))
    (result : list DLManagedTensor) : Exec Heap (list DLManagedTensor) :=
  match fns with
  | [] => pure result
  | fn :: rest =>
      match fn with
      | None => raise NullDereference
      | Some n =>
          match variable (g n) with
          | None => raise NullDereference
          | Some v =>
              let* intput_grad := read v grad in
              match intput_grad with
              | None => raise HostThrow
              | Some t =>
                  let* d := export_tensor t in
                  export_input_grads g rest (result ++ [d])
              end
          end
      end
  end.

Definition ExecuteATenOpBackward (fuel : nat) (dlpack : option DLManagedTensor)
    (context_id : Z) : Exec World (list DLManagedTensor) :=
  let* autograd_context := Pop context_id in
  let* d := match dlpack with
            | None => raise NullDereference
            | Some d => pure d
            end in
  let* t := on_tensors (fromDLPack d) in
  let* w := get_state in
  let g := graph (torch w) in
  let* _ := on_tensors (propagate fuel g [(output_grad_fn autograd_context, t)] ∅) in
  on_tensors (export_input_grads g (input_grad_fns autograd_context) []).

End Execute.

(** *** The shape of an autograd graph *)

(** The node an edge makes a walk push on its queue: the function of the
    edge, unless it is an [AccumulateGrad] node. *)
Definition pushes (g : NodeId -> Node) (edge : Edge) : option NodeId :=
  match function edge with
  | Some f => if String.eqb (name (g f)) AccumulateGrad_name then None else Some f
  | None => None
  end.

(** The sum of the gradients that were handed to an accumulator. *)
Definition flowed_into (accumulator : NodeId) (h : Heap) : Z :=
  foldr Z.add 0
    (omap (fun p : NodeId * Z => if Pos.eqb (fst p) accumulator then Some (snd p) else None)
          (flowed h)).

(** The accumulator [a] serves the input of index [i]: it goes by the
    name of its class and [grad_ptr_to_indices] maps the address of the
    grad of its variable to [i]. *)
Definition keyed (g : NodeId -> Node) (grad_ptr_to_indices : gmap positive nat)
    (a : NodeId) (i : nat) : Prop :=
  String.eqb (name (g a)) AccumulateGrad_name = true /\
  exists v, variable (g a) = Some v /\ grad_ptr_to_indices !! grad_address v = Some i.

(** [a] is met by a walk from [n]: behind an edge of [n] or of a node
    pushed on the way. *)
Inductive reaches (g : NodeId -> Node) : NodeId -> NodeId -> Prop :=
| reaches_edge n edge a :
    edge ∈ next_edges (g n) -> function edge = Some a ->
    String.eqb (name (g a)) AccumulateGrad_name = true ->
    reaches g n a
| reaches_step n edge f a :
    edge ∈ next_edges (g n) -> pushes g edge = Some f -> reaches g f a ->
    reaches g n a.

(** The precondition of the forward walk: the accumulator of every
    input that requires grad is reachable from the output's grad_fn and
    keyed by the address of its grad. *)
Definition covered (g : NodeId -> Node) (grad_ptr_to_indices : gmap positive nat)
    (output_grad_fn : NodeId) (k : nat) : Prop :=
  forall i, (i < k)%nat ->
    exists a, reaches g output_grad_fn a /\ keyed g grad_ptr_to_indices a i.

(** The nodes a walk from [n] pushes, [n] included. *)
Inductive descends (g : NodeId -> Node) : NodeId -> NodeId -> Prop :=
| descends_refl n : descends g n n
| descends_step n edge f m :
    edge ∈ next_edges (g n) -> pushes g edge = Some f -> descends g f m ->
    descends g n m.

(** Every edge of [n] is valid (its function is not null) and a node
    that goes by the name of [AccumulateGrad] is one. *)
Definition valid_node (g : NodeId -> Node) (n : NodeId) : Prop :=
  forall edge, edge ∈ next_edges (g n) ->
    exists f, function edge = Some f /\
      (String.eqb (name (g f)) AccumulateGrad_name = true -> variable (g f) <> None).

Definition valid_from (g : NodeId -> Node) (n : NodeId) : Prop :=
  forall m, descends g n m -> valid_node g m.

Definition assigned (fns : list (option NodeId)) (i : nat) : Prop :=
  exists a, fns !! i = Some (Some a).

(** A graph is acyclic when its nodes can be ranked so that every pushed
    successor ranks below its parent. *)
Definition acyclic (g : NodeId -> Node) (rank : NodeId -> nat) : Prop :=
  forall n edge f,
    edge ∈ next_edges (g n) -> pushes g edge = Some f -> (rank f < rank n)%nat.

(** The call operator of every node returns. *)
Definition nodes_return (g : NodeId -> Node) : Prop :=
  forall n grads h, fst (apply (g n) grads h) <> Err OutOfFuel.

(** The number of nodes a walk visits below [n], repeats counted, when
    [n] is at depth at most [d]. *)
Fixpoint visits (g : NodeId -> Node) (d : nat) (n : NodeId) : nat :=
  match d with
  | O => 1
  | S d' =>
      S (sum_list_with (fun edge => match pushes g edge with
                                    | Some f => visits g d' f
                                    | None => 0%nat
                                    end) (next_edges (g n)))
  end.

Definition entry_visits (g : NodeId -> Node) (rank : NodeId -> nat)
    (entry : option NodeId) : nat :=
  match entry with
  | Some n => visits g (rank n) n
  | None => 1
  end.

Definition edge_visits (g : NodeId -> Node) (rank : NodeId -> nat) (edge : Edge) : nat :=
  match pushes g edge with
  | Some f => visits g (rank f) f
  | None => 0%nat
  end.

(** The queue entries the edges of a node add. *)
Definition pushed_entries (g : NodeId -> Node) (edges : list Edge)
    : list (option NodeId) :=
  map Some (omap (pushes g) edges).

Definition queue_visits (g : NodeId -> Node) (rank : NodeId -> nat)
    (queue : list (option NodeId)) : nat :=
  sum_list_with (entry_visits g rank) queue.

(** *** The hash of the operator cache *)

(** [PairHash::operator()]: [hash1] and [hash2] stand for [std::hash<T1>]
    and [std::hash<T2>], whose values are of type [size_t]. *)
Definition PairHash {T1 T2 : Type} (hash1 : T1 -> Z) (hash2 : T2 -> Z)
    (pair : T1 * T2) : Z :=
  Z.lxor (hash1 (fst pair)) (hash2 (snd pair)).

(** *** Notions used to state what the conversions give *)

(** [reinterpret_cast<const T*>(data)[i]] when the buffer holds it. *)
Definition object_of (T : Type) `{CType T} (mem : list byte) (i : nat) : T :=
  reinterpret (firstn sizeof (skipn (i * sizeof) mem)).

(** What is in an [IValue]: the kind of its elements and whether it is
    a list of them; nothing for [None]. *)
Definition IValue_tag (v : IValue) : option (TypeKind * bool) :=
  match v with
  | IVNone => None
  | IVTensor _ => Some (TensorType, false)
  | IVInt _ => Some (IntType, false)
  | IVDouble _ => Some (FloatType, false)
  | IVBool _ => Some (BoolType, false)
  | IVString _ => Some (StringType, false)
  | IVIntList _ => Some (IntType, true)
  | IVDoubleList _ => Some (FloatType, true)
  | IVBoolList _ => Some (BoolType, true)
  end.

(** [static_cast<bool>] on the integers of an [IValue]. *)
Definition to_bool_IValue (v : IValue) : IValue :=
  match v with
  | IVInt x => IVBool (int64_to_bool x)
  | IVIntList l => IVBoolList (map int64_to_bool l)
  | other => other
  end.

(** Every cached entry is the metadata of a supported operator that the
    registry has under its key. *)
Definition cache_sound (w : World) : Prop :=
  forall k a, ops_ w !! k = Some a ->
    exists o, registry w k = Some o /\ supported o /\ a = spec_aten_op o.

(** *** Gradients that are not shared *)

(** The call operator of every node hands out tensors of its own: new
    ones, no two the same, and it changes no tensor that exists. *)
Definition fresh_gradients (g : NodeId -> Node) : Prop :=
  forall n grads h outs h',
    apply (g n) grads h = (Ok outs, h') ->
    (next h <= next h')%positive /\
    flowed h' = flowed h /\
    (forall t, (t < next h)%positive -> cell h' t = cell h t) /\
    NoDup outs /\
    Forall (fun t => (next h <= t < next h')%positive) outs.

(** Every accumulator has a variable that exists, and no two
    accumulators have the same one. *)
Definition accumulators_apart (g : NodeId -> Node) (h : Heap) : Prop :=
  forall f v,
    String.eqb (name (g f)) AccumulateGrad_name = true ->
    variable (g f) = Some v ->
    (v < next h)%positive /\
    forall f', String.eqb (name (g f')) AccumulateGrad_name = true ->
      variable (g f') = Some v -> f' = f.

(** The accumulator was handed a gradient. *)
Definition received (accumulator : NodeId) (h : Heap) : Prop :=
  exists p, (accumulator, p) ∈ flowed h.

(** The tensor [t] is the grad of none of the accumulators of
    [accu_set]. *)
Definition unused (g : NodeId -> Node) (accu_set : gset positive) (h : Heap)
    (t : positive) : Prop :=
  forall f v, f ∈ accu_set -> variable (g f) = Some v -> grad (cell h v) <> Some t.

(** What the gradient walk has reached when gradients are not shared:
    [accu_set] holds the accumulators that were handed a gradient, the
    grad of the variable of each of them holds the sum of what it was
    handed, and no two of them have the same tensor as grad. *)
Definition sums_kept (g : NodeId -> Node) (accu_set : gset positive) (h : Heap) : Prop :=
  (forall f, f ∈ accu_set <-> received f h) /\
  (forall f, f ∈ accu_set ->
     String.eqb (name (g f)) AccumulateGrad_name = true /\
     exists v gt, variable (g f) = Some v /\ grad (cell h v) = Some gt /\
       (gt < next h)%positive /\ payload (cell h gt) = flowed_into f h) /\
  (forall f f' v v' gt, f ∈ accu_set -> f' ∈ accu_set ->
     variable (g f) = Some v -> variable (g f') = Some v' ->
     grad (cell h v) = Some gt -> grad (cell h v') = Some gt -> f = f').

End Executor.
Export Executor.

(** ** The ROCm reduction kernels *)

Module Rocm.

Inductive miopenReduceTensorOp_t :=
| MIOPEN_REDUCE_TENSOR_ADD
| MIOPEN_REDUCE_TENSOR_MUL
| MIOPEN_REDUCE_TENSOR_MIN
| MIOPEN_REDUCE_TENSOR_MAX
| MIOPEN_REDUCE_TENSOR_AVG
| MIOPEN_REDUCE_TENSOR_NORM1
| MIOPEN_REDUCE_TENSOR_NORM2.

Inductive miopenReduceTensorIndices_t :=
| MIOPEN_REDUCE_TENSOR_NO_INDICES
| MIOPEN_REDUCE_TENSOR_FLATTENED_INDICES.

(** The members a [ReduceKernel<allow_multi_axes>] adds to its bases. *)
Record ReduceKernel := mkReduceKernel {
  allow_multi_axes : bool;
  calculate_log_ : bool;
  calculate_sqt_ : bool;
  log_sum_exp_ : bool;
  fast_reduction_ : bool
}.

(** The constructor of [ReduceKernel]: its member initialisers. *)
Definition ReduceKernel_ctor (allow_multi_axes : bool) : ReduceKernel :=
  {| allow_multi_axes := allow_multi_axes;
     calculate_log_ := false;
     calculate_sqt_ := false;
     log_sum_exp_ := false;
     fast_reduction_ := false |}.

Inductive KernelClass :=
| ArgMax
| ArgMin
| ReduceL1
| ReduceL2
| ReduceMax
| ReduceMean
| ReduceMin
| ReduceProd
| ReduceSum
| ReduceLogSum
| ReduceSumSquare
| ReduceLogSumExp.

(** The constructor of each final class: the base constructor, then the
    body. *)
Definition construct (k : KernelClass) : ReduceKernel :=
  match k with
  | ArgMax => ReduceKernel_ctor false
  | ArgMin => ReduceKernel_ctor false
  | ReduceL1 => ReduceKernel_ctor true
  | ReduceL2 => ReduceKernel_ctor true
  | ReduceMax => ReduceKernel_ctor true
  | ReduceMean => ReduceKernel_ctor true
  | ReduceMin => ReduceKernel_ctor true
  | ReduceProd => ReduceKernel_ctor true
  | ReduceSum =>
      let this := ReduceKernel_ctor true in
      {| allow_multi_axes := allow_multi_axes this;
         calculate_log_ := calculate_log_ this;
         calculate_sqt_ := calculate_sqt_ this;
         log_sum_exp_ := log_sum_exp_ this;
         fast_reduction_ := true |}
  | ReduceLogSum =>
      let this := ReduceKernel_ctor true in
      {| allow_multi_axes := allow_multi_axes this;
         calculate_log_ := true;
         calculate_sqt_ := calculate_sqt_ this;
         log_sum_exp_ := log_sum_exp_ this;
         fast_reduction_ := fast_reduction_ this |}
  | ReduceSumSquare =>
      let this := ReduceKernel_ctor true in
      {| allow_multi_axes := allow_multi_axes this;
         calculate_log_ := calculate_log_ this;
         calculate_sqt_ := true;
         log_sum_exp_ := log_sum_exp_ this;
         fast_reduction_ := fast_reduction_ this |}
  | ReduceLogSumExp =>
      let this := ReduceKernel_ctor true in
      {| allow_multi_axes := allow_multi_axes this;
         calculate_log_ := calculate_log_ this;
         calculate_sqt_ := calculate_sqt_ this;
         log_sum_exp_ := true;
         fast_reduction_ := fast_reduction_ this |}
  end.

(** [ComputeImpl] is declared in the header and defined elsewhere: a
    call of it is kept as the template argument and the reduce op it
    is given, next to the kernel it runs on. *)
Record ComputeImpl := mkComputeImpl {
  this : ReduceKernel;
  ReduceTensorIndices : miopenReduceTensorIndices_t;
  miopen_reduce_op : miopenReduceTensorOp_t
}.

(** The default of the template parameter [ReduceTensorIndices]. *)
Definition ReduceTensorIndices_default := MIOPEN_REDUCE_TENSOR_NO_INDICES.

Definition ComputeInternal (k : KernelClass) : ComputeImpl :=
  match k with
  | ArgMax =>
      mkComputeImpl (construct k) MIOPEN_REDUCE_TENSOR_FLATTENED_INDICES
        MIOPEN_REDUCE_TENSOR_MAX
  | ArgMin =>
      mkComputeImpl (construct k) MIOPEN_REDUCE_TENSOR_FLATTENED_INDICES
        MIOPEN_REDUCE_TENSOR_MIN
  | ReduceL1 =>
      mkComputeImpl (construct k) ReduceTensorIndices_default MIOPEN_REDUCE_TENSOR_NORM1
  | ReduceL2 =>
      mkComputeImpl (construct k) ReduceTensorIndices_default MIOPEN_REDUCE_TENSOR_NORM2
  | ReduceMax =>
      mkComputeImpl (construct k) ReduceTensorIndices_default MIOPEN_REDUCE_TENSOR_MAX
  | ReduceMean =>
      mkComputeImpl (construct k) ReduceTensorIndices_default MIOPEN_REDUCE_TENSOR_AVG
  | ReduceMin =>
      mkComputeImpl (construct k) ReduceTensorIndices_default MIOPEN_REDUCE_TENSOR_MIN
  | ReduceProd =>
      mkComputeImpl (construct k) ReduceTensorIndices_default MIOPEN_REDUCE_TENSOR_MUL
  | ReduceSum =>
      mkComputeImpl (construct k) ReduceTensorIndices_default MIOPEN_REDUCE_TENSOR_ADD
  | ReduceLogSum =>
      mkComputeImpl (construct k) ReduceTensorIndices_default MIOPEN_REDUCE_TENSOR_ADD
  | ReduceSumSquare =>
      mkComputeImpl (construct k) ReduceTensorIndices_default MIOPEN_REDUCE_TENSOR_ADD
  | ReduceLogSumExp =>
      mkComputeImpl (construct k) ReduceTensorIndices_default MIOPEN_REDUCE_TENSOR_ADD
  end.

End Rocm.

(** ** Sample inputs *)

Module Examples.

Definition byte_of_Z (z : Z) : byte :=
  match Byte.of_N (Z.to_N (z mod 256)) with
  | Some b => b
  | None => Byte.x00
  end.

(** The [n] little-endian bytes of [z]. *)
Fixpoint le_bytes (n : nat) (z : Z) : list byte :=
  match n with
  | O => []
  | S n' => byte_of_Z z :: le_bytes n' (z / 256)
  end.

Definition int64_dtype : DLDataType := mkDLDataType kDLInt 64.
Definition uint8_dtype : DLDataType := mkDLDataType kDLUInt 8.

(** A one-dimensional tensor of the three 64-bit integers 0, 5 and -1. *)
Definition three_int64 : DLManagedTensor :=
  mkDLManagedTensor
    (mkDLTensor (le_bytes 8 0 ++ le_bytes 8 5 ++ le_bytes 8 (-1)) 1 (Some [3]) int64_dtype)
    1%positive.

(** A zero-dimensional tensor holding the 64-bit integer 7. *)
Definition scalar_int64 : DLManagedTensor :=
  mkDLManagedTensor (mkDLTensor (le_bytes 8 7) 0 None int64_dtype) 2%positive.

(** What an import and an export look like is irrelevant to the samples:
    the payload is the first integer of the buffer, and an export keeps
    the tensor's handle and its payload. *)
Definition sample_dlpack : ATenDLPack :=
  {| dl_payload := fun d => int64_at (data (dl_tensor d)) 0;
     dl_contiguous := fun _ => true;
     dl_export := fun t impl =>
       mkDLManagedTensor (mkDLTensor (le_bytes 8 (payload impl)) 0 None int64_dtype) t |}.

Definition float_dtype : DLDataType := mkDLDataType kDLFloat 32.

Definition blank : TensorImpl :=
  {| payload := 0; scalar_type := float_dtype; is_contiguous := true;
     requires_grad := false; grad := None; grad_fn := None |}.

Definition empty_heap : Heap :=
  {| cell := fun _ => blank; next := 1%positive; flowed := [] |}.

(** An operator [(Tensor self, int? dim, bool keepdim=False, bool[] mask) -> Tensor]
    that leaves its first argument on the stack. *)
Definition sample_schema : FunctionSchema :=
  {| arguments :=
       [ mkArgument TensorT None;
         mkArgument (OptionalT IntT) None;
         mkArgument BoolT (Some (IVBool false));
         mkArgument (ListT BoolT) None ];
     returns := [TensorT] |}.

Definition sample_operator : Operator :=
  {| schema := sample_schema;
     getOperation := fun stack => pure (firstn 1 stack) |}.

Definition sample_aten_op : ATenOperator :=
  {| op := sample_operator;
     argument_size := 4;
     elem_kinds := [TensorType; IntType; BoolType; BoolType];
     is_list_arguments := [false; false; false; true];
     is_optional_arguments := [false; true; false; false];
     default_values := [None; None; Some (IVBool false); None];
     return_size := 1 |}.

Definition leaf : Node :=
  {| name := "Leaf"; next_edges := []; variable := None;
     apply := fun _ => pure [] |}.

(** A graph given by the list of its nodes; any other id is a [leaf]. *)
Fixpoint graph_of (nodes : list (NodeId * Node)) (n : NodeId) : Node :=
  match nodes with
  | [] => leaf
  | (k, node) :: rest => if Pos.eqb k n then node else graph_of rest n
  end.

(** Whether the pushed successors of [n] rank below it. *)
Definition ranked (g : NodeId -> Node) (rank : NodeId -> nat) (n : NodeId) : bool :=
  forallb (fun edge => match pushes g edge with
                       | Some f => (rank f <? rank n)%nat
                       | None => true
                       end) (next_edges (g n)).

(** The backward of an addition hands the incoming gradient, the very
    same tensor, to both of its inputs. *)
Definition AddBackward0 (edges : list Edge) : Node :=
  {| name := "AddBackward0"; next_edges := edges; variable := None;
     apply := fun grads => pure (match grads with
                                 | grad :: _ => [grad; grad]
                                 | [] => []
                                 end) |}.

Definition AccumulateGrad (v : Tensor) : Node :=
  {| name := "torch::autograd::AccumulateGrad"; next_edges := [];
     variable := Some v; apply := fun _ => pure [] |}.

(** The edge torch records for an input: to the accumulator of a tensor
    that requires grad, invalid for one that does not. *)
Definition gradient_edge (h : Heap) (t : Tensor) (accumulator : NodeId) : Edge :=
  if requires_grad (cell h t) then mkEdge (Some accumulator) 0 else mkEdge None 0.

(** The graph of [(y + x) + x]: node 1 is the outer addition, node 2
    the inner one, nodes 3 and 4 accumulate into [y] and [x]. *)
Definition add_add_graph (h : Heap) (y x : Tensor) : NodeId -> Node :=
  graph_of
    [ (1%positive, AddBackward0 [mkEdge (Some 2%positive) 0; gradient_edge h x 4]);
      (2%positive, AddBackward0 [gradient_edge h y 3; gradient_edge h x 4]);
      (3%positive, AccumulateGrad y);
      (4%positive, AccumulateGrad x) ].

Definition add_add_rank (n : NodeId) : nat :=
  if Pos.eqb n 1 then 2%nat else if Pos.eqb n 2 then 1%nat else 0%nat.

(** An operator [(Tensor y, Tensor x) -> Tensor] that computes
    [(y + x) + x] and records its autograd graph. *)
Definition add_add_operation (stack : list IValue) : Exec Torch.State (list IValue) :=
  fun s =>
    match stack with
    | [IVTensor y; IVTensor x] =>
        let h := heap s in
        let (r, h') := alloc {| payload := payload (cell h y) + payload (cell h x)
                                           + payload (cell h x);
                                scalar_type := scalar_type (cell h y);
                                is_contiguous := true; requires_grad := true;
                                grad := None; grad_fn := Some 1%positive |} h in
        (res_bind r (fun out => Ok [IVTensor out]),
         {| heap := h'; graph := add_add_graph h y x |})
    | _ => (Err HostThrow, s)
    end.

Definition add_add_operator : Operator :=
  {| schema := {| arguments := [mkArgument TensorT None; mkArgument TensorT None];
                  returns := [TensorT] |};
     getOperation := add_add_operation |}.

(** An operator [(Tensor self, Scalar alpha) -> Tensor]. *)
Definition scale_operator : Operator :=
  {| schema := {| arguments := [mkArgument TensorT None; mkArgument NumberT None];
                  returns := [TensorT] |};
     getOperation := fun stack => pure (firstn 1 stack) |}.

Definition sample_registry (key : string * string) : option Operator :=
  if bool_decide (key = ("aten::sample"%string, EmptyString)) then Some sample_operator
  else if bool_decide (key = ("sample::add_add"%string, EmptyString)) then Some add_add_operator
  else if bool_decide (key = ("sample::scale"%string, EmptyString)) then Some scale_operator
  else None.

(** A zero-dimensional float tensor; the sample import reads its first
    eight bytes as the payload. *)
Definition tensor_dlpack (value : Z) (id : positive) : DLManagedTensor :=
  mkDLManagedTensor (mkDLTensor (le_bytes 8 value) 0 None float_dtype) id.

Definition sample_world : World :=
  {| torch := {| heap := empty_heap; graph := fun _ => leaf |};
     registry := sample_registry;
     resolved := []; executed := []; cout := [];
     ops_ := ∅; autograd_contexts_ := ∅; context_id_ := 0 |}.

(** An operator [(Tensor[] tensors, int dim=0) -> Tensor], and a process
    whose registry has it under [aten::cat]. *)
Definition cat_operator : Operator :=
  {| schema := {| arguments := [mkArgument (ListT TensorT) None;
                                mkArgument IntT (Some (IVInt 0))];
                  returns := [TensorT] |};
     getOperation := fun stack => pure (firstn 1 stack) |}.

Definition cat_world : World :=
  {| torch := {| heap := empty_heap; graph := fun _ => leaf |};
     registry := fun key =>
       if bool_decide (key = ("aten::cat"%string, EmptyString)) then Some cat_operator
       else None;
     resolved := []; executed := []; cout := [];
     ops_ := ∅; autograd_contexts_ := ∅; context_id_ := 0 |}.

Definition sample_context : AutogradContext :=
  {| output_grad_fn := Some 1%positive; input_grad_fns := [] |}.

(** A heap in which the tensors 1 and 2 require grad. *)
Definition marked_heap : Heap :=
  snd (requires_grad_ 2%positive (snd (requires_grad_ 1%positive empty_heap))).

(** The backward of a product by constants: a gradient of its own for
    every input, the incoming one times the factor of the input. *)
Fixpoint scaled_gradients (p : Z) (factors : list Z) : Exec Heap (list positive) :=
  match factors with
  | [] => pure []
  | k :: rest =>
      let* t := alloc {| payload := k * p; scalar_type := float_dtype;
                         is_contiguous := true; requires_grad := false;
                         grad := None; grad_fn := None |} in
      let* ts := scaled_gradients p rest in
      pure (t :: ts)
  end.

Definition MulBackward0 (edges : list Edge) (factors : list Z) : Node :=
  {| name := "MulBackward0"; next_edges := edges; variable := None;
     apply := fun grads => match grads with
                           | grad :: _ =>
                               let* p := read grad payload in scaled_gradients p factors
                           | [] => pure []
                           end |}.

(** The graph of [2 * (5 * x) + 3 * x + 4 * x]: node 1 is the outer
    product, node 2 the inner one, node 3 accumulates into [x]. *)
Definition scaled_graph (x : positive) : positive -> Node :=
  graph_of
    [ (1%positive, MulBackward0 [mkEdge (Some 2%positive) 0; mkEdge (Some 3%positive) 0;
                                 mkEdge (Some 3%positive) 0] [2; 3; 4]);
      (2%positive, MulBackward0 [mkEdge (Some 3%positive) 0] [5]);
      (3%positive, AccumulateGrad x) ].

(** A heap with the tensor [x] and a gradient of value 1. *)
Definition scaled_heap : Heap :=
  {| cell := <[2%positive := {| payload := 1; scalar_type := float_dtype;
                                is_contiguous := true; requires_grad := false;
                                grad := None; grad_fn := None |}]> (fun _ => blank);
     next := 3%positive; flowed := [] |}.

End Examples.

(** * Properties *)

(** ** Reduction kernels *)

Section ReductionDispatch.
Import Rocm.

(** C3. Every reduction kernel hands [ComputeImpl] the miopen reduce op
    of its operator: the four sum-based kernels all pass ADD with the
    same template argument and are told apart by the three flags
    [calculate_log_], [calculate_sqt_] and [log_sum_exp_], each set by
    exactly its own class; the base constructor clears all four flags;
    ReduceMean passes AVG, ReduceMax MAX, ReduceMin MIN, ReduceProd MUL,
    ReduceL1 NORM1, ReduceL2 NORM2; ArgMax and ArgMin pass MAX and MIN
    with FLATTENED_INDICES and every other kernel NO_INDICES; only
    ReduceSum sets [fast_reduction_]. *)
Theorem reduction_dispatch :
  (forall b,
      calculate_log_ (ReduceKernel_ctor b) = false /\
      calculate_sqt_ (ReduceKernel_ctor b) = false /\
      log_sum_exp_ (ReduceKernel_ctor b) = false /\
      fast_reduction_ (ReduceKernel_ctor b) = false) /\
  (forall k, this (ComputeInternal k) = construct k) /\
  (forall k,
      miopen_reduce_op (ComputeInternal k) =
      match k with
      | ReduceSum | ReduceLogSum | ReduceSumSquare | ReduceLogSumExp =>
          MIOPEN_REDUCE_TENSOR_ADD
      | ReduceMean => MIOPEN_REDUCE_TENSOR_AVG
      | ReduceMax | ArgMax => MIOPEN_REDUCE_TENSOR_MAX
      | ReduceMin | ArgMin => MIOPEN_REDUCE_TENSOR_MIN
      | ReduceProd => MIOPEN_REDUCE_TENSOR_MUL
      | ReduceL1 => MIOPEN_REDUCE_TENSOR_NORM1
      | ReduceL2 => MIOPEN_REDUCE_TENSOR_NORM2
      end) /\
  (forall k,
      ReduceTensorIndices (ComputeInternal k) =
      match k with
      | ArgMax | ArgMin => MIOPEN_REDUCE_TENSOR_FLATTENED_INDICES
      | _ => MIOPEN_REDUCE_TENSOR_NO_INDICES
      end) /\
  (forall k, calculate_log_ (construct k) = true <-> k = ReduceLogSum) /\
  (forall k, calculate_sqt_ (construct k) = true <-> k = ReduceSumSquare) /\
  (forall k, log_sum_exp_ (construct k) = true <-> k = ReduceLogSumExp) /\
  (forall k, fast_reduction_ (construct k) = true <-> k = ReduceSum) /\
  (forall k k',
      miopen_reduce_op (ComputeInternal k) = MIOPEN_REDUCE_TENSOR_ADD ->
      miopen_reduce_op (ComputeInternal k') = MIOPEN_REDUCE_TENSOR_ADD ->
      ReduceTensorIndices (ComputeInternal k) = ReduceTensorIndices (ComputeInternal k') /\
      allow_multi_axes (construct k) = allow_multi_axes (construct k') /\
      (calculate_log_ (construct k) = calculate_log_ (construct k') ->
       calculate_sqt_ (construct k) = calculate_sqt_ (construct k') ->
       log_sum_exp_ (construct k) = log_sum_exp_ (construct k') ->
       k = k')).
Proof.
  split; [ intros b; repeat split | ].
  split; [ intros k; destruct k; reflexivity | ].
  split; [ intros k; destruct k; reflexivity | ].
  split; [ intros k; destruct k; reflexivity | ].
  repeat split; try (destruct k; simpl; congruence).
  all: destruct k, k'; simpl in *; congruence.
Qed.

End ReductionDispatch.

(** ** Argument conversion *)

Section Conversion.
Context `{ATenDLPack}.

Lemma at_lookup {A} (v : list A) (i : nat) (x : A) :
  v !! i = Some x -> at_ v i = Ok x.
Proof. intros E. unfold at_. rewrite E. reflexivity. Qed.

Lemma ltb_true (a b : nat) : (a < b)%nat -> (a <? b)%nat = true.
Proof. intros L. apply Nat.ltb_lt. exact L. Qed.

Lemma ltb_false (a b : nat) : (b <= a)%nat -> (a <? b)%nat = false.
Proof. intros L. apply Nat.ltb_ge. exact L. Qed.

(** C7. With a null [dlpack], [ToIValueArgument] gives [IValue(nullopt)]
    for an optional argument and the default value for one that is not
    optional; it fails its assertion when the argument is not optional
    and has no default, and, whatever [dlpack] is, when [index] is not
    below [argument_size]. *)
Theorem ToIValueArgument_null_dlpack (self : ATenOperator) (index : nat) (h : Heap) :
  (forall dlpack, (argument_size self <= index)%nat ->
     ToIValueArgument self dlpack index h = (Err InternalAssert, h)) /\
  ((index < argument_size self)%nat ->
   (is_optional_arguments self !! index = Some true ->
      ToIValueArgument self None index h = (Ok IVNone, h)) /\
   (forall v, is_optional_arguments self !! index = Some false ->
      default_values self !! index = Some (Some v) ->
      ToIValueArgument self None index h = (Ok v, h)) /\
   (is_optional_arguments self !! index = Some false ->
      default_values self !! index = Some None ->
      ToIValueArgument self None index h = (Err InternalAssert, h))).
Proof.
  split.
  - intros dlpack Hge. unfold ToIValueArgument, exec_bind, lift_res.
    rewrite (ltb_false _ _ Hge). reflexivity.
  - intros Hlt. repeat split.
    + intros Hopt. unfold ToIValueArgument, exec_bind, lift_res.
      rewrite (ltb_true _ _ Hlt). cbn.
      rewrite (at_lookup _ _ _ Hopt). reflexivity.
    + intros v Hopt Hdef. unfold ToIValueArgument, exec_bind, lift_res.
      rewrite (ltb_true _ _ Hlt). cbn.
      rewrite (at_lookup _ _ _ Hopt). cbn.
      rewrite (at_lookup _ _ _ Hdef). reflexivity.
    + intros Hopt Hdef. unfold ToIValueArgument, exec_bind, lift_res.
      rewrite (ltb_true _ _ Hlt). cbn.
      rewrite (at_lookup _ _ _ Hopt). cbn.
      rewrite (at_lookup _ _ _ Hdef). reflexivity.
Qed.

Lemma object_at_in_range (mem : list byte) (size i : nat) :
  ((i + 1) * size <= length mem)%nat ->
  object_at mem size i = Ok (firstn size (skipn (i * size) mem)).
Proof.
  intros L. unfold object_at.
  assert (E : length (firstn size (skipn (i * size) mem)) = size).
  { rewrite length_take, length_drop. lia. }
  rewrite E, Nat.eqb_refl. reflexivity.
Qed.

Lemma load_int64 (mem : list byte) (i : nat) :
  ((i + 1) * 8 <= length mem)%nat -> load Z mem i = Ok (int64_at mem i).
Proof.
  intros L. unfold load. cbn [sizeof int64_t_CType].
  rewrite (object_at_in_range mem 8 i L). reflexivity.
Qed.

Lemma emplace_loop_int64 {U} (f : Z -> U) (mem : list byte) (n : nat) :
  forall (i : nat) (acc : list U),
    ((i + n) * 8 <= length mem)%nat ->
    emplace_loop (T := Z) f mem i n acc =
      Ok (acc ++ map (fun j => f (int64_at mem j)) (seq i n)).
Proof.
  induction n as [|n IH]; intros i acc L.
  - cbn. rewrite app_nil_r. reflexivity.
  - cbn [emplace_loop]. rewrite load_int64 by lia. cbn [res_bind].
    rewrite IH by lia. cbn [seq map]. rewrite <- app_assoc. reflexivity.
Qed.

Lemma int64_to_bool_nonzero (x : Z) : int64_to_bool x = bool_decide (x <> 0).
Proof.
  unfold int64_to_bool. destruct (Z.eqb_spec x 0) as [E|E].
  - subst. reflexivity.
  - cbn. symmetry. apply bool_decide_eq_true. exact E.
Qed.

Lemma code_eqb_eq (a b : DLDataTypeCode) : code_eqb a b = true <-> a = b.
Proof. destruct a, b; cbn; split; congruence. Qed.

Lemma dtype_is_true (dl : DLManagedTensor) (c : DLDataTypeCode) (b : Z) :
  code (dtype (dl_tensor dl)) = c -> bits (dtype (dl_tensor dl)) = b ->
  dtype_is dl c b = true.
Proof.
  intros Hc Hb. unfold dtype_is. rewrite Hc, Hb, Z.eqb_refl.
  rewrite (proj2 (code_eqb_eq c c) eq_refl). reflexivity.
Qed.

Lemma dtype_is_false (dl : DLManagedTensor) (c : DLDataTypeCode) (b : Z) :
  ~ (code (dtype (dl_tensor dl)) = c /\ bits (dtype (dl_tensor dl)) = b) ->
  dtype_is dl c b = false.
Proof.
  intros Hn. unfold dtype_is. apply not_true_is_false. intros E.
  apply andb_true_iff in E as [E1 E2]. apply Hn. split.
  - apply code_eqb_eq. exact E1.
  - apply Z.eqb_eq. exact E2.
Qed.

(** C8. [Int64ToBoolIValue] turns 64-bit integers into booleans by the
    test against zero: on a one-dimensional tensor of [n] integers the
    list case gives the list of [n] booleans whose [i]-th entry is
    [data[i] != 0]; the scalar case gives [data[0] != 0].
    [ToIValueArgument] uses it for a Bool argument exactly on a signed
    64-bit tensor, demands an unsigned 8-bit tensor of a Bool argument
    otherwise, and reads an Int argument on such a tensor as integers. *)
Theorem Int64ToBoolIValue_nonzero (dl : DLManagedTensor) (is_optional : bool) :
  let mem := data (dl_tensor dl) in
  (forall n dims, ndim (dl_tensor dl) = 1 -> shape (dl_tensor dl) = Some (n :: dims) ->
     0 <= n < 2 ^ 63 -> (8 * n <= Z.of_nat (length mem)) ->
     let bs := map (fun i => bool_decide (int64_at mem i <> 0)) (seq 0 (Z.to_nat n)) in
     Int64ToBoolIValue dl true is_optional = Ok (IVBoolList bs) /\
     Z.of_nat (length bs) = n /\
     forall i, (i < length bs)%nat ->
       load Z mem i = Ok (int64_at mem i) /\
       bs !! i = Some (bool_decide (int64_at mem i <> 0))) /\
  ((ndim (dl_tensor dl) = 0 /\ shape (dl_tensor dl) = None) \/
   (ndim (dl_tensor dl) = 1 /\ exists dims, shape (dl_tensor dl) = Some (1 :: dims)) ->
   (8 <= length mem)%nat ->
     load Z mem 0 = Ok (int64_at mem 0) /\
     Int64ToBoolIValue dl false is_optional =
       Ok (IVBool (bool_decide (int64_at mem 0 <> 0)))) /\
  (forall self index h is_list,
     (index < argument_size self)%nat ->
     is_optional_arguments self !! index = Some is_optional ->
     is_list_arguments self !! index = Some is_list ->
     (elem_kinds self !! index = Some BoolType ->
        (code (dtype (dl_tensor dl)) = kDLInt -> bits (dtype (dl_tensor dl)) = 64 ->
           ToIValueArgument self (Some dl) index h =
             (Int64ToBoolIValue dl is_list is_optional, h)) /\
        (~ (code (dtype (dl_tensor dl)) = kDLInt /\ bits (dtype (dl_tensor dl)) = 64) ->
           (~ (code (dtype (dl_tensor dl)) = kDLUInt /\ bits (dtype (dl_tensor dl)) = 8) ->
              ToIValueArgument self (Some dl) index h = (Err InternalAssert, h)) /\
           (code (dtype (dl_tensor dl)) = kDLUInt -> bits (dtype (dl_tensor dl)) = 8 ->
              ToIValueArgument self (Some dl) index h =
                (if is_list then ToListIValue bool dl is_optional
                 else ToIValue bool dl is_optional, h)))) /\
     (elem_kinds self !! index = Some IntType ->
        code (dtype (dl_tensor dl)) = kDLInt -> bits (dtype (dl_tensor dl)) = 64 ->
        ToIValueArgument self (Some dl) index h =
          (if is_list then ToListIValue Z dl is_optional
           else ToIValue Z dl is_optional, h))).
Proof.
  intros mem. split; [|split].
  - intros n dims Hnd Hshape Hn Hlen bs.
    assert (Hsh : shape_at (dl_tensor dl) 0 = Ok n).
    { unfold shape_at. rewrite Hshape. reflexivity. }
    assert (Hbs : bs = map (fun j => int64_to_bool (int64_at mem j)) (seq 0 (Z.to_nat n))).
    { subst bs. apply map_ext. intros j. symmetry. apply int64_to_bool_nonzero. }
    assert (Hsz : to_size_t n = Z.to_nat n).
    { unfold to_size_t. rewrite Z.mod_small; [reflexivity|].
      split; [lia|]. apply Z.lt_trans with (2 ^ 63); [lia|]. reflexivity. }
    split; [|split].
    + unfold Int64ToBoolIValue. rewrite Hnd. cbn [Z.eqb Pos.eqb TORCH_INTERNAL_ASSERT res_bind].
      rewrite Hsh. cbn [res_bind]. rewrite Hsz.
      fold mem. rewrite emplace_loop_int64 by lia. cbn [res_bind app].
      rewrite Hbs. destruct is_optional; reflexivity.
    + subst bs. rewrite length_map, length_seq. lia.
    + intros i Hi. subst bs. rewrite length_map, length_seq in Hi. split.
      * apply load_int64. lia.
      * rewrite list_lookup_fmap, lookup_seq_lt by lia. reflexivity.
  - intros Hshape Hlen.
    assert (Hsc : scalar_shape (dl_tensor dl) = Ok true).
    { unfold scalar_shape, shape_at.
      destruct Hshape as [[-> ->]|[-> [dims ->]]]; reflexivity. }
    split; [apply load_int64; lia|].
    unfold Int64ToBoolIValue. rewrite Hsc. cbn [TORCH_INTERNAL_ASSERT res_bind].
    fold mem. rewrite load_int64 by lia. cbn [res_bind].
    rewrite int64_to_bool_nonzero. destruct is_optional; reflexivity.
  - intros self index h is_list Hlt Hopt Hlist.
    assert (Hrun : forall k, elem_kinds self !! index = Some k ->
      ToIValueArgument self (Some dl) index h =
      match k with
      | TensorType =>
          exec_bind (fromDLPack dl) (fun tensor =>
            pure (if is_optional then IValue_optional (Some (IVTensor tensor))
                  else IVTensor tensor)) h
      | IntType =>
          if dtype_is dl kDLInt 64
          then (if is_list then ToListIValue Z dl is_optional
                else ToIValue Z dl is_optional, h)
          else (Err InternalAssert, h)
      | FloatType =>
          if dtype_is dl kDLFloat 32
          then (if is_list then ToListIValue float dl is_optional
                else ToIValue float dl is_optional, h)
          else (Err InternalAssert, h)
      | BoolType =>
          if dtype_is dl kDLInt 64 then (Int64ToBoolIValue dl is_list is_optional, h)
          else if dtype_is dl kDLUInt 8
          then (if is_list then ToListIValue bool dl is_optional
                else ToIValue bool dl is_optional, h)
          else (Err InternalAssert, h)
      | _ => (Err InternalAssert, h)
      end).
    { intros k Hk. unfold ToIValueArgument, exec_bind, lift_res.
      rewrite (ltb_true _ _ Hlt). cbn [TORCH_INTERNAL_ASSERT].
      rewrite (at_lookup _ _ _ Hopt).
      rewrite (bool_decide_eq_true_2 (Some dl <> None)) by discriminate.
      cbn [orb TORCH_INTERNAL_ASSERT].
      rewrite (at_lookup _ _ _ Hlist), (at_lookup _ _ _ Hk).
      destruct k; try reflexivity.
      - destruct (dtype_is dl kDLInt 64); reflexivity.
      - destruct (dtype_is dl kDLFloat 32); reflexivity.
      - destruct (dtype_is dl kDLInt 64); [reflexivity|].
        destruct (dtype_is dl kDLUInt 8); reflexivity. }
    split.
    + intros Hk. rewrite (Hrun _ Hk). split.
      * intros Hc Hb. rewrite (dtype_is_true _ _ _ Hc Hb). reflexivity.
      * intros Hn. rewrite (dtype_is_false _ _ _ Hn). split.
        -- intros Hu. rewrite (dtype_is_false _ _ _ Hu). reflexivity.
        -- intros Hc Hb. rewrite (dtype_is_true _ _ _ Hc Hb). reflexivity.
    + intros Hk Hc Hb. rewrite (Hrun _ Hk), (dtype_is_true _ _ _ Hc Hb). reflexivity.
Qed.
End Conversion.

Lemma ToIValueArgument_null_dlpack_witness :
  @ToIValueArgument Examples.sample_dlpack Examples.sample_aten_op None 7 Examples.empty_heap
    = (Err InternalAssert, Examples.empty_heap) /\
  @ToIValueArgument Examples.sample_dlpack Examples.sample_aten_op None 1 Examples.empty_heap
    = (Ok IVNone, Examples.empty_heap) /\
  @ToIValueArgument Examples.sample_dlpack Examples.sample_aten_op None 2 Examples.empty_heap
    = (Ok (IVBool false), Examples.empty_heap) /\
  @ToIValueArgument Examples.sample_dlpack Examples.sample_aten_op None 3 Examples.empty_heap
    = (Err InternalAssert, Examples.empty_heap).
Proof.
  pose proof (@ToIValueArgument_null_dlpack Examples.sample_dlpack
                Examples.sample_aten_op) as T.
  split; [|split; [|split]].
  - destruct (T 7%nat Examples.empty_heap) as [Hout _].
    apply Hout. cbn. lia.
  - destruct (T 1%nat Examples.empty_heap) as [_ Hin].
    destruct Hin as [Hopt _]; [cbn; lia|].
    apply Hopt. reflexivity.
  - destruct (T 2%nat Examples.empty_heap) as [_ Hin].
    destruct Hin as [_ [Hdef _]]; [cbn; lia|].
    apply Hdef; reflexivity.
  - destruct (T 3%nat Examples.empty_heap) as [_ Hin].
    destruct Hin as [_ [_ Hnone]]; [cbn; lia|].
    apply Hnone; reflexivity.
Defined.

Lemma Int64ToBoolIValue_nonzero_witness :
  Int64ToBoolIValue Examples.three_int64 true false = Ok (IVBoolList [false; true; true]) /\
  Int64ToBoolIValue Examples.scalar_int64 false false = Ok (IVBool true) /\
  @ToIValueArgument Examples.sample_dlpack Examples.sample_aten_op
     (Some Examples.three_int64) 3 Examples.empty_heap
    = (Ok (IVBoolList [false; true; true]), Examples.empty_heap).
Proof.
  pose proof (@Int64ToBoolIValue_nonzero Examples.sample_dlpack
                Examples.three_int64 false) as [Hlist [_ Harg]].
  pose proof (@Int64ToBoolIValue_nonzero Examples.sample_dlpack
                Examples.scalar_int64 false) as [_ [Hscalar _]].
  split; [|split].
  - destruct (Hlist 3 []) as [E _]; [reflexivity | reflexivity | lia | cbn; lia |].
    rewrite E. vm_compute. reflexivity.
  - destruct Hscalar as [_ E]; [left; split; reflexivity | cbn; lia |].
    rewrite E. vm_compute. reflexivity.
  - destruct (Harg Examples.sample_aten_op 3%nat Examples.empty_heap true) as [Hb _];
      [cbn; lia | reflexivity | reflexivity |].
    destruct (Hb eq_refl) as [E _]. rewrite (E eq_refl eq_refl).
    vm_compute. reflexivity.
Defined.

(** ** The operator cache *)

Lemma kind_eqb_eq (a b : TypeKind) : kind_eqb a b = true <-> a = b.
Proof. destruct a, b; cbn; split; congruence. Qed.

Lemma add_argument_spec (a : ATenOperator) (arg : Argument) :
  add_argument a arg =
  if kind_eqb (spec_elem_kind arg) TensorType && spec_is_list arg
  then Err InternalAssert
  else Ok {| op := op a; argument_size := argument_size a;
             elem_kinds := elem_kinds a ++ [spec_elem_kind arg];
             is_list_arguments := is_list_arguments a ++ [spec_is_list arg];
             is_optional_arguments := is_optional_arguments a ++ [spec_is_optional arg];
             default_values := default_values a ++ [default_value arg];
             return_size := return_size a |}.
Proof.
  unfold add_argument, spec_elem_kind, spec_is_list, spec_is_optional.
  destruct (arg_type arg) as [ | | | | | | | | | e | e ]; cbn;
    try reflexivity.
  - destruct e as [ | | | | | | | | | e' | e' ]; cbn; try reflexivity.
    destruct (kind_eqb (kind e') TensorType); reflexivity.
  - destruct (kind_eqb (kind e) TensorType); reflexivity.
Qed.

Lemma add_arguments_supported (args : list Argument) :
  Forall (fun a => ~ (spec_elem_kind a = TensorType /\ spec_is_list a = true)) args ->
  forall a,
    add_arguments a args =
    Ok {| op := op a; argument_size := argument_size a;
          elem_kinds := elem_kinds a ++ map spec_elem_kind args;
          is_list_arguments := is_list_arguments a ++ map spec_is_list args;
          is_optional_arguments := is_optional_arguments a ++ map spec_is_optional args;
          default_values := default_values a ++ map default_value args;
          return_size := return_size a |}.
Proof.
  induction 1 as [|arg args Harg _ IH]; intros a.
  - cbn. rewrite !app_nil_r. destruct a; reflexivity.
  - cbn [add_arguments]. rewrite add_argument_spec.
    destruct (kind_eqb (spec_elem_kind arg) TensorType && spec_is_list arg) eqn:E.
    + exfalso. apply andb_true_iff in E as [E1 E2]. apply Harg.
      split; [apply kind_eqb_eq; exact E1 | exact E2].
    + cbn [res_bind]. rewrite IH. cbn. rewrite <- !app_assoc. reflexivity.
Qed.

Lemma check_returns_supported (rets : list Type_) :
  Forall (fun r => kind r = TensorType) rets -> check_returns rets = Ok tt.
Proof.
  induction 1 as [|r rets Hr _ IH]; [reflexivity|].
  cbn. rewrite Hr. cbn. exact IH.
Qed.

Lemma make_aten_op_supported (o : Operator) :
  supported o -> make_aten_op o = Ok (spec_aten_op o).
Proof.
  intros [Hargs Hrets]. unfold make_aten_op.
  rewrite (add_arguments_supported _ Hargs). cbn [res_bind].
  rewrite (check_returns_supported _ Hrets). reflexivity.
Qed.

Lemma add_arguments_ok (args : list Argument) :
  forall a a',
    add_arguments a args = Ok a' ->
    a' = {| op := op a; argument_size := argument_size a;
            elem_kinds := elem_kinds a ++ map spec_elem_kind args;
            is_list_arguments := is_list_arguments a ++ map spec_is_list args;
            is_optional_arguments := is_optional_arguments a ++ map spec_is_optional args;
            default_values := default_values a ++ map default_value args;
            return_size := return_size a |}.
Proof.
  induction args as [|arg args IH]; intros a a' Hrun.
  - cbn in Hrun. injection Hrun as <-. rewrite !app_nil_r. destruct a; reflexivity.
  - cbn [add_arguments] in Hrun. rewrite add_argument_spec in Hrun.
    destruct (kind_eqb (spec_elem_kind arg) TensorType && spec_is_list arg);
      [discriminate|].
    cbn [res_bind] in Hrun. apply IH in Hrun. rewrite Hrun. cbn.
    rewrite <- !app_assoc. reflexivity.
Qed.

Lemma make_aten_op_ok (o : Operator) (a : ATenOperator) :
  make_aten_op o = Ok a -> a = spec_aten_op o.
Proof.
  unfold make_aten_op. intros Hrun.
  destruct (add_arguments _ (arguments (schema o))) as [a1|e] eqn:E; [|discriminate].
  apply add_arguments_ok in E. cbn [res_bind] in Hrun.
  destruct (check_returns (returns (schema o))); [|discriminate].
  cbn [res_bind] in Hrun. injection Hrun as <-. rewrite E. reflexivity.
Qed.

Lemma emplace_lookup `{Countable K} {V} (k k' : K) (v v' : V) (m : gmap K V) :
  m !! k' = Some v' -> emplace k v m !! k' = Some v'.
Proof.
  intros E. unfold emplace. destruct (m !! k) eqn:Ek; [exact E|].
  rewrite lookup_insert_ne; [exact E|]. intros ->. congruence.
Qed.

Lemma emplace_fresh `{Countable K} {V} (k : K) (v : V) (m : gmap K V) :
  m !! k = None -> emplace k v m = <[k := v]> m.
Proof. intros E. unfold emplace. rewrite E. reflexivity. Qed.

Lemma GetOperator_hit (op_name overload_name : string) (w : World) (a : ATenOperator) :
  ops_ w !! (op_name, overload_name) = Some a ->
  GetOperator op_name overload_name w = (Ok a, w).
Proof.
  intros E. unfold GetOperator, exec_bind, get_state, pure.
  rewrite E. rewrite E. reflexivity.
Qed.

Lemma GetOperator_keeps (op_name overload_name : string) (w : World)
    (k : string * string) (a : ATenOperator) :
  ops_ w !! k = Some a ->
  ops_ (snd (GetOperator op_name overload_name w)) !! k = Some a.
Proof.
  intros E. unfold GetOperator, exec_bind, get_state, pure.
  destruct (ops_ w !! (op_name, overload_name)) as [a0|] eqn:Ek.
  - rewrite Ek. exact E.
  - unfold findOperatorFor, lift_res, raise, set_ops, modify.
    destruct (registry w (op_name, overload_name)) as [o|]; cbn; [|exact E].
    destruct (make_aten_op o) as [a1|e]; cbn; [|exact E].
    unfold emplace. rewrite Ek. rewrite lookup_insert_eq. cbn.
    rewrite lookup_insert_ne; [exact E|]. intros <-. congruence.
Qed.

Lemma GetOperator_result_cached (op_name overload_name : string) (w : World)
    (a : ATenOperator) :
  fst (GetOperator op_name overload_name w) = Ok a ->
  ops_ (snd (GetOperator op_name overload_name w)) !! (op_name, overload_name) = Some a.
Proof.
  unfold GetOperator, exec_bind, get_state, pure.
  destruct (ops_ w !! (op_name, overload_name)) as [a0|] eqn:Ek.
  - rewrite Ek. cbn. intros [= ->]. exact Ek.
  - unfold findOperatorFor, lift_res, raise, set_ops, modify.
    destruct (registry w (op_name, overload_name)) as [o|]; cbn; [|discriminate].
    destruct (make_aten_op o) as [a1|e]; cbn; [|discriminate].
    unfold emplace. rewrite Ek. rewrite lookup_insert_eq. cbn.
    intros [= ->]. rewrite lookup_insert_eq. reflexivity.
Qed.

Lemma GetOperator_registered (op_name overload_name : string) (w : World) :
  registered w ->
  registered (snd (GetOperator op_name overload_name w)) /\
  forall a, fst (GetOperator op_name overload_name w) = Ok a ->
    exists o, registry w (op_name, overload_name) = Some o /\ a = spec_aten_op o.
Proof.
  intros Hreg. unfold GetOperator, exec_bind, get_state, pure.
  destruct (ops_ w !! (op_name, overload_name)) as [a0|] eqn:Ek.
  - rewrite Ek. cbn. split; [exact Hreg|]. intros a [= <-]. apply Hreg. exact Ek.
  - unfold findOperatorFor, lift_res, raise, set_ops, modify.
    destruct (registry w (op_name, overload_name)) as [o|] eqn:Ho; cbn;
      [|split; [exact Hreg | discriminate]].
    destruct (make_aten_op o) as [a1|e] eqn:Hm; cbn;
      [|split; [exact Hreg | discriminate]].
    apply make_aten_op_ok in Hm. subst a1.
    unfold emplace. rewrite Ek. rewrite lookup_insert_eq. cbn. split.
    + intros k a Hk. cbn in Hk.
      destruct (decide (k = (op_name, overload_name))) as [->|Hne].
      * rewrite lookup_insert_eq in Hk. injection Hk as <-. exists o. auto.
      * rewrite lookup_insert_ne in Hk by congruence. apply Hreg. exact Hk.
    + intros a [= <-]. exists o. auto.
Qed.

Lemma GetOperator_calls_keep (keys : list (string * string)) :
  forall (w : World) (k : string * string) (a : ATenOperator),
    ops_ w !! k = Some a -> ops_ (GetOperator_calls keys w) !! k = Some a.
Proof.
  induction keys as [|key keys IH]; intros w k a E; [exact E|].
  cbn. apply IH. apply GetOperator_keeps. exact E.
Qed.

Lemma sample_operator_supported : supported Examples.sample_operator.
Proof.
  split.
  - repeat constructor; cbn; intros [E1 E2]; discriminate.
  - repeat constructor.
Qed.

(** ** The context cache *)

Create HintDb keeps.

Lemma keeps_pure {A B} (f : World -> B) (a : A) : keeps f (pure a).
Proof. intros w. reflexivity. Qed.

Lemma keeps_raise {A B} (f : World -> B) (e : Failure) : keeps f (@raise World A e).
Proof. intros w. reflexivity. Qed.

Lemma keeps_lift_res {A B} (f : World -> B) (r : Res A) : keeps f (lift_res r).
Proof. intros w. reflexivity. Qed.

Lemma keeps_get_state {B} (f : World -> B) : keeps f get_state.
Proof. intros w. reflexivity. Qed.

Lemma keeps_bind {A A' B} (f : World -> B) (m : Exec World A) (k : A -> Exec World A') :
  keeps f m -> (forall a, keeps f (k a)) -> keeps f (exec_bind m k).
Proof.
  intros Hm Hk w. unfold exec_bind. specialize (Hm w).
  destruct (m w) as [[a|e] w1]; cbn in *.
  - rewrite Hk. exact Hm.
  - exact Hm.
Qed.

Lemma keeps_on_torch {A B} (f : World -> B) (m : Exec Torch.State A) :
  (forall t w, f (with_torch t w) = f w) -> keeps f (on_torch m).
Proof.
  intros Hf w. unfold on_torch. destruct (m (torch w)) as [r t]. cbn. apply Hf.
Qed.

#[local] Hint Resolve keeps_pure keeps_raise keeps_lift_res keeps_get_state
  keeps_on_torch : keeps.

Lemma wrap_int64_small (x : Z) : - 2 ^ 63 <= x < 2 ^ 63 -> wrap_int64 x = x.
Proof. intros Hx. unfold wrap_int64. rewrite Z.mod_small; lia. Qed.

Lemma wrap_int64_succ (x : Z) : wrap_int64 (wrap_int64 x + 1) = wrap_int64 (x + 1).
Proof.
  unfold wrap_int64.
  replace ((x + 2 ^ 63) mod 2 ^ 64 - 2 ^ 63 + 1 + 2 ^ 63)
    with ((x + 2 ^ 63) mod 2 ^ 64 + 1) by lia.
  rewrite Zplus_mod_idemp_l. f_equal. f_equal. lia.
Qed.

Lemma Insert_id (c : AutogradContext) (w : World) :
  fst (Insert c w) = Ok (context_id_ w).
Proof. reflexivity. Qed.

Lemma Insert_counter (c : AutogradContext) (w : World) :
  context_id_ (snd (Insert c w)) = wrap_int64 (context_id_ w + 1).
Proof. reflexivity. Qed.

Lemma Insert_contexts (c : AutogradContext) (w : World) :
  autograd_contexts_ (snd (Insert c w)) =
  emplace (context_id_ w) c (autograd_contexts_ w).
Proof. reflexivity. Qed.

Lemma Pop_present (context_id : Z) (w : World) (c : AutogradContext) :
  autograd_contexts_ w !! context_id = Some c ->
  fst (Pop context_id w) = Ok c /\
  autograd_contexts_ (snd (Pop context_id w)) = delete context_id (autograd_contexts_ w) /\
  context_id_ (snd (Pop context_id w)) = context_id_ w.
Proof.
  intros E. unfold Pop, exec_bind, get_state, lift_res. rewrite E. cbn.
  repeat split.
Qed.

Lemma Pop_absent (context_id : Z) (w : World) :
  autograd_contexts_ w !! context_id = None ->
  Pop context_id w = (Err InternalAssert, w).
Proof.
  intros E. unfold Pop, exec_bind, get_state, lift_res. rewrite E. reflexivity.
Qed.



Lemma serve_one_insert (c : AutogradContext) (w : World) :
  serve_one (DoInsert c) w = (Issued (context_id_ w), snd (Insert c w)).
Proof. reflexivity. Qed.

Lemma serve_fresh_life (reqs : list Request) :
  forall (n : nat) (w : World),
    after_inserts n w ->
    Z.of_nat (n + inserts reqs) <= 2 ^ 63 ->
    after_inserts (n + inserts reqs) (snd (serve reqs w)) /\
    issued_ids (fst (serve reqs w)) = map Z.of_nat (seq n (inserts reqs)).
Proof.
  induction reqs as [|req reqs IH]; intros n w [Hc Hk] Hb.
  - cbn. rewrite Nat.add_0_r. split; [split; assumption | reflexivity].
  - cbn [serve]. destruct req as [c|id].
    + rewrite serve_one_insert.
      assert (Hins : inserts (DoInsert c :: reqs) = S (inserts reqs)) by reflexivity.
      rewrite Hins in *.
      assert (Hid : context_id_ w = Z.of_nat n).
      { rewrite Hc. apply wrap_int64_small. lia. }
      destruct (IH (S n) (snd (Insert c w))) as [Hinv Hids].
      * split.
        -- rewrite Insert_counter, Hc, wrap_int64_succ. f_equal. lia.
        -- intros k Hsome. rewrite Insert_contexts in Hsome.
           unfold emplace in Hsome.
           destruct (autograd_contexts_ w !! context_id_ w) eqn:E.
           ++ apply Hk in Hsome. lia.
           ++ destruct (decide (k = context_id_ w)) as [->|Hne].
              ** lia.
              ** rewrite lookup_insert_ne in Hsome by congruence.
                 apply Hk in Hsome. lia.
      * lia.
      * destruct (serve reqs (snd (Insert c w))) as [replies w'] eqn:Es.
        cbn [fst snd] in *. split.
        -- replace (n + S (inserts reqs))%nat with (S n + inserts reqs)%nat by lia.
           exact Hinv.
        -- change (issued_ids (Issued (context_id_ w) :: replies))
             with (context_id_ w :: issued_ids replies).
           cbn [seq map]. rewrite Hid, Hids. reflexivity.
    + assert (Hins : inserts (DoPop id :: reqs) = inserts reqs) by reflexivity.
      rewrite Hins in *.
      unfold serve_one.
      destruct (Pop id w) as [r w1] eqn:Ep.
      destruct (IH n w1) as [Hinv Hids].
      * destruct (autograd_contexts_ w !! id) as [c|] eqn:E.
        -- destruct (Pop_present id w c E) as [_ [Hdel Hcnt]].
           rewrite Ep in Hdel, Hcnt. cbn in Hdel, Hcnt. split.
           ++ rewrite Hcnt. exact Hc.
           ++ intros k Hsome. rewrite Hdel in Hsome. apply Hk.
              destruct (decide (k = id)) as [->|Hne].
              ** rewrite lookup_delete_eq in Hsome. destruct Hsome as [? ?]. discriminate.
              ** rewrite lookup_delete_ne in Hsome by congruence. exact Hsome.
        -- rewrite (Pop_absent id w E) in Ep. injection Ep as _ <-.
           split; assumption.
      * exact Hb.
      * destruct (serve reqs w1) as [replies w'] eqn:Es.
        cbn [fst snd] in *. split; [exact Hinv|]. exact Hids.
Qed.

Lemma fresh_cache_after_0 (w : World) : fresh_cache w -> after_inserts 0 w.
Proof.
  intros [Hc Hm]. split.
  - rewrite Hc. reflexivity.
  - intros k [c Hk]. rewrite Hm, lookup_empty in Hk. discriminate.
Qed.

Lemma seq_increasing (k n : nat) : StronglySorted Z.lt (map Z.of_nat (seq n k)).
Proof.
  revert n. induction k as [|k IH]; intros n; cbn; constructor.
  - apply IH.
  - apply Forall_forall. intros x Hx. apply in_map_iff in Hx as [i [<- Hi]].
    apply in_seq in Hi. lia.
Qed.

Lemma increasing_NoDup (l : list Z) : StronglySorted Z.lt l -> NoDup l.
Proof.
  induction 1 as [|x l _ IH Hall]; constructor; [|exact IH].
  intros Hin. apply list_elem_of_In in Hin.
  rewrite Forall_forall in Hall. specialize (Hall x Hin). lia.
Qed.

Lemma serve_keeps_entry (reqs : list Request) :
  forall (w : World) (id : Z) (c : AutogradContext),
    autograd_contexts_ w !! id = Some c ->
    Forall (fun r => r <> DoPop id) reqs ->
    autograd_contexts_ (snd (serve reqs w)) !! id = Some c.
Proof.
  induction reqs as [|req reqs IH]; intros w id c E Hall; [exact E|].
  inversion Hall as [|? ? Hreq Hrest]; subst.
  cbn [serve]. destruct req as [c'|id'].
  - rewrite serve_one_insert.
    specialize (IH (snd (Insert c' w)) id c).
    destruct (serve reqs (snd (Insert c' w))) as [replies w'']. cbn [snd] in *.
    apply IH; [|exact Hrest].
    rewrite Insert_contexts. apply emplace_lookup. exact E.
  - unfold serve_one. destruct (Pop id' w) as [r w1] eqn:Ep.
    specialize (IH w1 id c).
    destruct (serve reqs w1) as [replies w'']. cbn [snd] in *.
    apply IH; [|exact Hrest].
    destruct (autograd_contexts_ w !! id') as [c'|] eqn:E'.
    + destruct (Pop_present id' w c' E') as [_ [Hdel _]].
      rewrite Ep in Hdel. cbn in Hdel. rewrite Hdel.
      rewrite lookup_delete_ne; [exact E|]. intros ->. apply Hreq. reflexivity.
    + rewrite (Pop_absent id' w E') in Ep. injection Ep as _ <-. exact E.
Qed.

Lemma Pop_erases (context_id : Z) (w : World) :
  autograd_contexts_ (snd (Pop context_id w)) !! context_id = None.
Proof.
  destruct (autograd_contexts_ w !! context_id) as [c|] eqn:E.
  - destruct (Pop_present context_id w c E) as [_ [Hdel _]].
    rewrite Hdel. apply lookup_delete_eq.
  - rewrite (Pop_absent context_id w E). exact E.
Qed.

Section Backward_twice.
Context `{ATenDLPack}.

Lemma on_tensors_keeps_contexts {A} (m : Exec Heap A) :
  keeps autograd_contexts_ (on_tensors m).
Proof. apply keeps_on_torch. reflexivity. Qed.

Lemma Backward_erases (fuel : nat) (dlpack : option DLManagedTensor)
    (context_id : Z) (w : World) :
  autograd_contexts_ (snd (ExecuteATenOpBackward fuel dlpack context_id w)) !! context_id
    = None.
Proof.
  unfold ExecuteATenOpBackward. unfold exec_bind at 1.
  pose proof (Pop_erases context_id w) as Hp.
  destruct (Pop context_id w) as [[c|e] w1]; cbn [snd] in *; [|exact Hp].
  match goal with |- autograd_contexts_ (snd (?k w1)) !! _ = _ =>
    assert (Hk : keeps autograd_contexts_ k) end.
  { apply keeps_bind.
    - destruct dlpack; auto with keeps.
    - intros d. apply keeps_bind; [apply on_tensors_keeps_contexts|].
      intros t. apply keeps_bind; [auto with keeps|].
      intros w'. apply keeps_bind; [apply on_tensors_keeps_contexts|].
      intros _. apply on_tensors_keeps_contexts. }
  rewrite Hk. exact Hp.
Qed.

Lemma Backward_absent (fuel : nat) (dlpack : option DLManagedTensor)
    (context_id : Z) (w : World) :
  autograd_contexts_ w !! context_id = None ->
  ExecuteATenOpBackward fuel dlpack context_id w = (Err InternalAssert, w).
Proof.
  intros E. unfold ExecuteATenOpBackward. unfold exec_bind at 1.
  rewrite (Pop_absent context_id w E). reflexivity.
Qed.

(** C5, as the code has it. The ids of [Insert] come from a 64-bit
    counter that starts at 0 and is incremented on every call: in a life
    of the cache that starts fresh, the first 2^63 insertions are given
    the ids 0, 1, 2, ... (strictly increasing, none twice), and each of
    them stores its context under the id it returns; a stored context
    stays until its id is popped; [Pop] returns the context stored under
    the id and erases it, and fails its assertion on an id that is not
    there: never issued, or popped before, also by a backward call with
    the same id. *)
Theorem AutogradContextCache_ids :
  (forall w0 reqs, fresh_cache w0 -> Z.of_nat (inserts reqs) <= 2 ^ 63 ->
     let ids := issued_ids (fst (serve reqs w0)) in
     ids = map Z.of_nat (seq 0 (inserts reqs)) /\
     StronglySorted Z.lt ids /\ NoDup ids) /\
  (forall w0 reqs c, fresh_cache w0 -> Z.of_nat (inserts reqs) < 2 ^ 63 ->
     let w := snd (serve reqs w0) in
     fst (Insert c w) = Ok (Z.of_nat (inserts reqs)) /\
     autograd_contexts_ (snd (Insert c w)) !! Z.of_nat (inserts reqs) = Some c) /\
  (forall w id c reqs,
     autograd_contexts_ w !! id = Some c ->
     Forall (fun r => r <> DoPop id) reqs ->
     autograd_contexts_ (snd (serve reqs w)) !! id = Some c) /\
  (forall w id c, autograd_contexts_ w !! id = Some c ->
     fst (Pop id w) = Ok c /\ autograd_contexts_ (snd (Pop id w)) !! id = None) /\
  (forall w id, autograd_contexts_ w !! id = None ->
     Pop id w = (Err InternalAssert, w)) /\
  (forall w0 reqs id, fresh_cache w0 -> Z.of_nat (inserts reqs) <= 2 ^ 63 ->
     ~ (0 <= id < Z.of_nat (inserts reqs)) ->
     let w := snd (serve reqs w0) in
     Pop id w = (Err InternalAssert, w)) /\
  (forall w id, let w1 := snd (Pop id w) in
     Pop id w1 = (Err InternalAssert, w1)) /\
  (forall fuel dlpack id w fuel' dlpack',
     let w1 := snd (ExecuteATenOpBackward fuel dlpack id w) in
     ExecuteATenOpBackward fuel' dlpack' id w1 = (Err InternalAssert, w1)).
Proof.
  repeat match goal with |- _ /\ _ => split end.
  - intros w0 reqs Hf Hb ids.
    destruct (serve_fresh_life reqs 0 w0 (fresh_cache_after_0 w0 Hf) Hb) as [_ Hids].
    subst ids. rewrite Hids. split; [reflexivity|]. split.
    + apply seq_increasing.
    + apply increasing_NoDup, seq_increasing.
  - intros w0 reqs c Hf Hb w.
    destruct (serve_fresh_life reqs 0 w0 (fresh_cache_after_0 w0 Hf)) as [[Hc Hk] _];
      [cbn; lia|]. cbn [Nat.add] in *. fold w in Hc, Hk.
    assert (Hid : context_id_ w = Z.of_nat (inserts reqs)).
    { rewrite Hc. apply wrap_int64_small. lia. }
    rewrite Insert_id, Insert_contexts, Hid. split; [reflexivity|].
    rewrite emplace_fresh.
    + apply lookup_insert_eq.
    + destruct (autograd_contexts_ w !! Z.of_nat (inserts reqs)) eqn:E; [|reflexivity].
      assert (Hs : is_Some (autograd_contexts_ w !! Z.of_nat (inserts reqs)))
        by (rewrite E; eauto).
      apply Hk in Hs. lia.
  - intros w id c reqs E Hall. apply serve_keeps_entry; assumption.
  - intros w id c E. destruct (Pop_present id w c E) as [Hr _].
    split; [exact Hr | apply Pop_erases].
  - intros w id E. apply Pop_absent. exact E.
  - intros w0 reqs id Hf Hb Hid w.
    destruct (serve_fresh_life reqs 0 w0 (fresh_cache_after_0 w0 Hf) Hb) as [[_ Hk] _].
    cbn [Nat.add] in Hk. fold w in Hk. apply Pop_absent.
    destruct (autograd_contexts_ w !! id) eqn:E; [|reflexivity].
    exfalso. apply Hid. apply Hk. rewrite E. eauto.
  - intros w id w1. apply Pop_absent. apply Pop_erases.
  - intros fuel dlpack id w fuel' dlpack' w1. apply Backward_absent.
    apply Backward_erases.
Qed.

End Backward_twice.

Lemma sample_world_fresh : fresh_cache Examples.sample_world.
Proof. split; reflexivity. Qed.

Lemma AutogradContextCache_ids_witness :
  let reqs := [DoInsert Examples.sample_context; DoInsert Examples.sample_context;
               DoPop 0] in
  let w := snd (serve reqs Examples.sample_world) in
  issued_ids (fst (serve reqs Examples.sample_world)) = map Z.of_nat (seq 0 2) /\
  fst (Insert Examples.sample_context w) = Ok 2 /\
  autograd_contexts_ w !! 1 = Some Examples.sample_context /\
  Pop 0 w = (Err InternalAssert, w) /\
  Pop 7 w = (Err InternalAssert, w).
Proof.
  intros reqs w.
  destruct (@AutogradContextCache_ids Examples.sample_dlpack)
    as [Hids [Hstore [Hstay [_ [Habsent [Hnever _]]]]]].
  assert (Hb : Z.of_nat (inserts reqs) <= 2 ^ 63) by (vm_compute; discriminate).
  split; [|split; [|split; [|split]]].
  - exact (proj1 (Hids Examples.sample_world reqs sample_world_fresh Hb)).
  - apply (Hstore Examples.sample_world reqs Examples.sample_context sample_world_fresh).
    vm_compute. reflexivity.
  - apply (Hstay (snd (serve [DoInsert Examples.sample_context;
                              DoInsert Examples.sample_context] Examples.sample_world))
                 1 Examples.sample_context [DoPop 0]).
    + apply (Hstore Examples.sample_world [DoInsert Examples.sample_context]
                    Examples.sample_context sample_world_fresh).
      vm_compute. reflexivity.
    + repeat constructor. discriminate.
  - apply Habsent. vm_compute. reflexivity.
  - apply (Hnever Examples.sample_world reqs 7 sample_world_fresh Hb).
    vm_compute. intros [_ Hlt]. discriminate.
Defined.

(** The state of the cache after [n] more insertions. *)
Lemma insertions_counter (c : AutogradContext) (n : N) :
  forall (w : World) (x : Z),
    context_id_ w = wrap_int64 x ->
    context_id_ (N.iter n (fun w => snd (Insert c w)) w) = wrap_int64 (x + Z.of_N n).
Proof.
  induction n as [|n IH] using N.peano_ind; intros w x Hw.
  - cbn. rewrite Z.add_0_r. exact Hw.
  - rewrite N.iter_succ, Insert_counter, (IH w x Hw), wrap_int64_succ.
    f_equal. lia.
Qed.

(** C5 as stated fails on the code: the counter is a 64-bit integer, so
    in one life of the cache the insertion that follows the first 2^63 - 1
    is given a smaller id than the one before it, and after 2^64
    insertions the id 0 is issued a second time. *)
Lemma context_id_issued_twice :
  let more n w := N.iter n (fun w => snd (Insert Examples.sample_context w)) w in
  fresh_cache Examples.sample_world /\
  fst (Insert Examples.sample_context Examples.sample_world) = Ok 0 /\
  fst (Insert Examples.sample_context (more (2 ^ 64)%N Examples.sample_world)) = Ok 0 /\
  fst (Insert Examples.sample_context (more (2 ^ 63 - 1)%N Examples.sample_world))
    = Ok (2 ^ 63 - 1) /\
  fst (Insert Examples.sample_context (more (2 ^ 63)%N Examples.sample_world))
    = Ok (- 2 ^ 63).
Proof.
  intros more. split; [exact sample_world_fresh|]. split; [reflexivity|].
  unfold more. rewrite !Insert_id.
  rewrite !(insertions_counter Examples.sample_context _ Examples.sample_world 0 eq_refl).
  repeat split.
Qed.

(** ** Termination of the two walks *)

Section Termination.
Context `{ATenDLPack}.
Variable g : NodeId -> Node.
Variable rank : NodeId -> nat.
Hypothesis Hacyclic : acyclic g rank.

Lemma sum_list_with_le {A} (f1 f2 : A -> nat) (l : list A) :
  Forall (fun x => (f1 x <= f2 x)%nat) l ->
  (sum_list_with f1 l <= sum_list_with f2 l)%nat.
Proof. induction 1 as [|x l Hx _ IH]; cbn; lia. Qed.

Lemma visits_mono_S (d : nat) : forall n, (visits g d n <= visits g (S d) n)%nat.
Proof.
  induction d as [|d IH]; intros n.
  - cbn. lia.
  - cbn [visits]. apply le_n_S. apply sum_list_with_le.
    apply Forall_forall. intros edge _. destruct (pushes g edge); [apply IH | lia].
Qed.

Lemma visits_mono (d d' : nat) (n : NodeId) :
  (d <= d')%nat -> (visits g d n <= visits g d' n)%nat.
Proof.
  induction 1 as [|d' _ IH]; [lia|].
  etransitivity; [exact IH | apply visits_mono_S].
Qed.

Local Abbreviation edge_visits := (edge_visits g rank).

Lemma visits_step (n : NodeId) :
  (S (sum_list_with edge_visits (next_edges (g n))) <= visits g (rank n) n)%nat.
Proof.
  destruct (rank n) as [|r] eqn:Er.
  - cbn. apply le_n_S. apply Nat.le_0_r.
    assert (Hz : Forall (fun e => (edge_visits e <= 0)%nat) (next_edges (g n))).
    { apply Forall_forall. intros edge Hin. unfold edge_visits.
      destruct (pushes g edge) as [f|] eqn:Ep; [|lia].
      apply list_elem_of_In in Hin.
      pose proof (Hacyclic n edge f Hin Ep). lia. }
    pose proof (sum_list_with_le edge_visits (fun _ => 0%nat) _ Hz) as Hle.
    assert (Hzero : forall l : list Edge, sum_list_with (fun _ => 0%nat) l = 0%nat).
    { induction l; cbn; lia. }
    rewrite Hzero in Hle. lia.
  - cbn [visits]. apply le_n_S. apply sum_list_with_le.
    apply Forall_forall. intros edge Hin. unfold edge_visits.
    destruct (pushes g edge) as [f|] eqn:Ep; [|lia].
    apply list_elem_of_In in Hin.
    apply visits_mono. pose proof (Hacyclic n edge f Hin Ep). lia.
Qed.

Lemma queue_visits_app (q1 q2 : list (option NodeId)) :
  queue_visits g rank (q1 ++ q2) = (queue_visits g rank q1 + queue_visits g rank q2)%nat.
Proof. unfold queue_visits. apply sum_list_with_app. Qed.

Lemma queue_visits_pushed (edges : list Edge) :
  queue_visits g rank (pushed_entries g edges) = sum_list_with edge_visits edges.
Proof.
  unfold queue_visits, pushed_entries, edge_visits.
  induction edges as [|edge edges IH]; [reflexivity|].
  cbn. destruct (pushes g edge); cbn; rewrite IH; reflexivity.
Qed.

Lemma pushed_entries_cons (edge : Edge) (edges : list Edge) :
  pushed_entries g (edge :: edges) =
  match pushes g edge with
  | Some f => Some f :: pushed_entries g edges
  | None => pushed_entries g edges
  end.
Proof. unfold pushed_entries. cbn. destruct (pushes g edge); reflexivity. Qed.

(** *** The forward walk *)

Lemma visit_edge_queue idx edge q fns :
  match visit_edge g idx edge (q, fns) with
  | Ok (q', _) => q' = q ++ pushed_entries g [edge]
  | Err e => e <> OutOfFuel
  end.
Proof.
  unfold visit_edge, pushed_entries, pushes. cbn.
  destruct (function edge) as [f|]; [|discriminate].
  destruct (String.eqb (name (g f)) AccumulateGrad_name).
  - destruct (variable (g f)) as [v|]; [|discriminate].
    destruct (idx !! grad_address v) as [i|]; [|cbn; rewrite app_nil_r; reflexivity].
    unfold at_. destruct (fns !! i) as [slot|]; cbn; [|discriminate].
    destruct slot; rewrite app_nil_r; reflexivity.
  - reflexivity.
Qed.

Lemma visit_edges_queue idx edges :
  forall q fns,
    match visit_edges g idx edges (q, fns) with
    | Ok (q', _) => q' = q ++ pushed_entries g edges
    | Err e => e <> OutOfFuel
    end.
Proof.
  induction edges as [|edge edges IH]; intros q fns.
  - cbn. rewrite app_nil_r. reflexivity.
  - cbn [visit_edges]. pose proof (visit_edge_queue idx edge q fns) as H1.
    destruct (visit_edge g idx edge (q, fns)) as [[q1 fns1]|e]; cbn [res_bind];
      [|exact H1].
    specialize (IH q1 fns1).
    destruct (visit_edges g idx edges (q1, fns1)) as [[q2 fns2]|e]; [|exact IH].
    subst. rewrite <- app_assoc. f_equal.
    unfold pushed_entries. cbn. destruct (pushes g edge); reflexivity.
Qed.

Lemma forward_walk_returns idx (fuel : nat) :
  forall q fns,
    (queue_visits g rank q <= fuel)%nat ->
    find_input_grad_fns fuel g idx q fns <> Err OutOfFuel.
Proof.
  induction fuel as [|fuel IH]; intros q fns Hle.
  - destruct q as [|[n|] q]; cbn in *; try discriminate.
    + pose proof (visits_step n). lia.
    + lia.
  - destruct q as [|[n|] q]; cbn [find_input_grad_fns]; try discriminate.
    pose proof (visit_edges_queue idx (next_edges (g n)) q fns) as Hq.
    destruct (visit_edges g idx (next_edges (g n)) (q, fns)) as [[q' fns']|e];
      cbn [res_bind fst snd].
    + apply IH. subst q'. rewrite queue_visits_app, queue_visits_pushed.
      cbn in Hle. pose proof (visits_step n). unfold queue_visits in *. lia.
    + intros [= ->]. apply Hq. reflexivity.
Qed.

Lemma forward_walk_stable idx (fuel : nat) :
  forall q fns,
    find_input_grad_fns fuel g idx q fns <> Err OutOfFuel ->
    find_input_grad_fns (S fuel) g idx q fns = find_input_grad_fns fuel g idx q fns.
Proof.
  induction fuel as [|fuel IH]; intros q fns Hne.
  - destruct q as [|x q]; [reflexivity|]. cbn in Hne. congruence.
  - destruct q as [|[n|] q]; try reflexivity.
    cbn [find_input_grad_fns] in Hne |- *.
    destruct (visit_edges g idx (next_edges (g n)) (q, fns)) as [[q' fns']|e];
      cbn [res_bind fst snd] in *; [|reflexivity].
    apply IH. exact Hne.
Qed.

Lemma forward_walk_more idx (fuel fuel' : nat) q fns :
  find_input_grad_fns fuel g idx q fns <> Err OutOfFuel -> (fuel <= fuel')%nat ->
  find_input_grad_fns fuel' g idx q fns = find_input_grad_fns fuel g idx q fns.
Proof.
  intros Hne. induction 1 as [|fuel' _ IH]; [reflexivity|].
  rewrite forward_walk_stable; [exact IH|]. rewrite IH. exact Hne.
Qed.

(** *** The backward walk *)

Lemma deliver_queue edge gradient q s (h : Heap) :
  match deliver g edge gradient (q, s) h with
  | (Ok (q', _), _) => map fst q' = map fst q ++ pushed_entries g [edge]
  | (Err e, _) => e <> OutOfFuel
  end.
Proof.
  unfold deliver, pushed_entries, pushes. cbn.
  destruct (function edge) as [f|]; [|discriminate].
  destruct (String.eqb (name (g f)) AccumulateGrad_name).
  - destruct (variable (g f)) as [v|]; [|discriminate].
    destruct (bool_decide (f ∉ s)); cbn.
    + rewrite app_nil_r. reflexivity.
    + destruct (grad (cell h v)); cbn; [|discriminate].
      rewrite app_nil_r. reflexivity.
  - cbn. rewrite map_app. reflexivity.
Qed.

Lemma deliver_all_queue edges :
  forall gradients q s (h : Heap),
    match deliver_all g edges gradients (q, s) h with
    | (Ok (q', _), _) => map fst q' = map fst q ++ pushed_entries g edges
    | (Err e, _) => e <> OutOfFuel
    end.
Proof.
  induction edges as [|edge edges IH]; intros gradients q s h.
  - cbn. rewrite app_nil_r. reflexivity.
  - cbn [deliver_all]. destruct gradients as [|gradient gradients]; [discriminate|].
    unfold exec_bind.
    pose proof (deliver_queue edge gradient q s h) as H1.
    destruct (deliver g edge gradient (q, s) h) as [[[q1 s1]|e] h1]; [|exact H1].
    specialize (IH gradients q1 s1 h1).
    destruct (deliver_all g edges gradients (q1, s1) h1) as [[[q2 s2]|e] h2];
      [|exact IH].
    rewrite IH, H1, <- app_assoc. f_equal.
    unfold pushed_entries. cbn. destruct (pushes g edge); reflexivity.
Qed.

Hypothesis Hreturn : nodes_return g.

Lemma backward_walk_returns (fuel : nat) :
  forall q s (h : Heap),
    (queue_visits g rank (map fst q) <= fuel)%nat ->
    fst (propagate fuel g q s h) <> Err OutOfFuel.
Proof.
  induction fuel as [|fuel IH]; intros q s h Hle.
  - destruct q as [|[[n|] t] q]; cbn in *; try discriminate.
    + pose proof (visits_step n). lia.
    + lia.
  - destruct q as [|[[n|] t] q]; cbn [propagate fst snd]; try discriminate.
    unfold exec_bind at 1.
    pose proof (Hreturn n [t] h) as Hn.
    destruct (apply (g n) [t] h) as [[gradients|e] h1]; cbn [fst] in *;
      [|intros [= ->]; apply Hn; reflexivity].
    unfold exec_bind at 1. unfold lift_res.
    destruct (length gradients =? length (next_edges (g n)))%nat; cbn; [|discriminate].
    unfold exec_bind.
    pose proof (deliver_all_queue (next_edges (g n)) gradients q s h1) as Hq.
    destruct (deliver_all g (next_edges (g n)) gradients (q, s) h1)
      as [[[q' s']|e] h2]; cbn [fst snd].
    + apply IH. rewrite Hq, queue_visits_app, queue_visits_pushed.
      cbn in Hle. pose proof (visits_step n). unfold queue_visits in *. lia.
    + intros [= ->]. apply Hq. reflexivity.
Qed.

Lemma backward_walk_stable (fuel : nat) :
  forall q s (h : Heap),
    fst (propagate fuel g q s h) <> Err OutOfFuel ->
    propagate (S fuel) g q s h = propagate fuel g q s h.
Proof.
  induction fuel as [|fuel IH]; intros q s h Hne.
  - destruct q as [|x q]; [reflexivity|]. cbn in Hne. congruence.
  - destruct q as [|[[n|] t] q]; try reflexivity.
    cbn [propagate fst snd] in Hne |- *.
    unfold exec_bind, lift_res in Hne |- *.
    destruct (apply (g n) [t] h) as [[gradients|e] h1]; [|reflexivity].
    destruct (TORCH_INTERNAL_ASSERT (length gradients =? length (next_edges (g n)))%nat);
      [|reflexivity].
    destruct (deliver_all g (next_edges (g n)) gradients (q, s) h1)
      as [[[q' s']|e] h2]; [|reflexivity].
    exact (IH q' s' h2 Hne).
Qed.

Lemma backward_walk_more (fuel fuel' : nat) q s (h : Heap) :
  fst (propagate fuel g q s h) <> Err OutOfFuel -> (fuel <= fuel')%nat ->
  propagate fuel' g q s h = propagate fuel g q s h.
Proof.
  intros Hne. induction 1 as [|fuel' _ IH]; [reflexivity|].
  rewrite backward_walk_stable; [exact IH|]. rewrite IH. exact Hne.
Qed.

(** C9. On an acyclic autograd graph whose nodes return when called,
    both walks end: some number of iterations is enough for the forward
    walk over [next_edges] and for the gradient walk to give their
    result, whatever the queue they start from, and more iterations
    change nothing. *)
Theorem walks_terminate :
  (forall idx queue fns, exists fuel0, forall fuel, (fuel0 <= fuel)%nat ->
     find_input_grad_fns fuel g idx queue fns <> Err OutOfFuel /\
     find_input_grad_fns fuel g idx queue fns
       = find_input_grad_fns fuel0 g idx queue fns) /\
  (forall queue accu_set (h : Heap), exists fuel0, forall fuel, (fuel0 <= fuel)%nat ->
     fst (propagate fuel g queue accu_set h) <> Err OutOfFuel /\
     propagate fuel g queue accu_set h = propagate fuel0 g queue accu_set h).
Proof.
  split.
  - intros idx queue fns. exists (queue_visits g rank queue). intros fuel Hle.
    pose proof (forward_walk_returns idx _ queue fns (Nat.le_refl _)) as Hne.
    rewrite (forward_walk_more idx _ fuel queue fns Hne Hle). split; [exact Hne|reflexivity].
  - intros queue accu_set h. exists (queue_visits g rank (map fst queue)).
    intros fuel Hle.
    pose proof (backward_walk_returns _ queue accu_set h (Nat.le_refl _)) as Hne.
    rewrite (backward_walk_more _ fuel queue accu_set h Hne Hle).
    split; [exact Hne|reflexivity].
Qed.

End Termination.

(** *** Graphs given by a list of nodes *)

Lemma graph_of_cases (nodes : list (NodeId * Node)) (n : NodeId) :
  Examples.graph_of nodes n = Examples.leaf \/ In n (map fst nodes).
Proof.
  induction nodes as [|[k node] nodes IH]; [left; reflexivity|].
  cbn. destruct (Pos.eqb_spec k n) as [->|Hne].
  - right. left. reflexivity.
  - destruct IH as [IH|IH]; [left; exact IH | right; right; exact IH].
Qed.

Lemma acyclic_graph_of (nodes : list (NodeId * Node)) (rank : NodeId -> nat) :
  forallb (fun p => Examples.ranked (Examples.graph_of nodes) rank (fst p)) nodes = true ->
  acyclic (Examples.graph_of nodes) rank.
Proof.
  intros Hall n edge f Hin Hp.
  destruct (graph_of_cases nodes n) as [Hleaf|Hkey].
  - rewrite Hleaf in Hin. cbn in Hin. inversion Hin.
  - apply in_map_iff in Hkey as [p [<- Hp_in]].
    rewrite forallb_forall in Hall. specialize (Hall p Hp_in).
    unfold Examples.ranked in Hall. rewrite forallb_forall in Hall.
    apply list_elem_of_In in Hin. specialize (Hall edge Hin).
    rewrite Hp in Hall. apply Nat.ltb_lt. exact Hall.
Qed.

Lemma nodes_return_graph_of (nodes : list (NodeId * Node)) :
  Forall (fun p => forall grads h, fst (apply (snd p) grads h) <> Err OutOfFuel) nodes ->
  nodes_return (Examples.graph_of nodes).
Proof.
  induction 1 as [|[k node] nodes Hnode _ IH]; intros n grads h.
  - cbn. discriminate.
  - cbn. destruct (Pos.eqb k n); [apply Hnode | apply IH].
Qed.

Lemma add_add_graph_acyclic (h : Heap) (y x : Tensor) :
  acyclic (Examples.add_add_graph h y x) Examples.add_add_rank.
Proof.
  apply acyclic_graph_of. unfold Examples.gradient_edge.
  destruct (requires_grad (cell h y)), (requires_grad (cell h x)); reflexivity.
Qed.

Lemma add_add_graph_returns (h : Heap) (y x : Tensor) :
  nodes_return (Examples.add_add_graph h y x).
Proof.
  apply nodes_return_graph_of. repeat constructor; intros grads h'; discriminate.
Qed.

Lemma walks_terminate_witness :
  let g := Examples.add_add_graph Examples.marked_heap 1 2 in
  (exists fuel0, forall fuel, (fuel0 <= fuel)%nat ->
     find_input_grad_fns fuel g ∅ [Some 1%positive] [] <> Err OutOfFuel /\
     find_input_grad_fns fuel g ∅ [Some 1%positive] []
       = find_input_grad_fns fuel0 g ∅ [Some 1%positive] []) /\
  (exists fuel0, forall fuel, (fuel0 <= fuel)%nat ->
     fst (propagate fuel g [(Some 1%positive, 3%positive)] ∅ Examples.marked_heap)
       <> Err OutOfFuel /\
     propagate fuel g [(Some 1%positive, 3%positive)] ∅ Examples.marked_heap
       = propagate fuel0 g [(Some 1%positive, 3%positive)] ∅ Examples.marked_heap).
Proof.
  intros g.
  destruct (walks_terminate g Examples.add_add_rank
              (add_add_graph_acyclic Examples.marked_heap 1 2)
              (add_add_graph_returns Examples.marked_heap 1 2)) as [Hforward Hbackward].
  split; [apply Hforward | apply Hbackward].
Defined.

(** ** The forward walk finds the accumulators *)

Section ForwardWalk.
Variable g : NodeId -> Node.
Variable idx : gmap positive nat.

Lemma visit_edge_valid edge q fns f :
  function edge = Some f ->
  (String.eqb (name (g f)) AccumulateGrad_name = true -> variable (g f) <> None) ->
  (forall v i, idx !! v = Some i -> (i < length fns)%nat) ->
  exists fns',
    visit_edge g idx edge (q, fns) = Ok (q ++ pushed_entries g [edge], fns') /\
    length fns' = length fns /\
    (forall i a, fns !! i = Some (Some a) -> fns' !! i = Some (Some a)) /\
    (forall i a, fns' !! i = Some (Some a) ->
       fns !! i = Some (Some a) \/ (a = f /\ keyed g idx f i)) /\
    (forall i, keyed g idx f i -> assigned fns' i).
Proof.
  intros Hf Hvar Hidx. unfold visit_edge, pushed_entries, pushes. cbn. rewrite Hf.
  destruct (String.eqb (name (g f)) AccumulateGrad_name) eqn:Hname.
  - destruct (variable (g f)) as [v|] eqn:Hv; [|exfalso; apply Hvar; reflexivity].
    cbn. rewrite app_nil_r.
    destruct (idx !! grad_address v) as [i|] eqn:Hi.
    + pose proof (Hidx _ _ Hi) as Hlt.
      destruct (lookup_lt_is_Some_2 fns i Hlt) as [slot Hslot].
      unfold at_. rewrite Hslot. cbn. destruct slot as [a0|].
      * exists fns. repeat split; auto.
        intros j [_ [v' [Hv' Hj]]]. rewrite Hv in Hv'. injection Hv' as <-.
        rewrite Hi in Hj. injection Hj as <-. exists a0. exact Hslot.
      * exists (<[i := Some f]> fns). split; [reflexivity|].
        split; [apply length_insert|]. split; [|split].
        -- intros j a Hj. destruct (decide (i = j)) as [->|Hne].
           ++ rewrite Hslot in Hj. discriminate.
           ++ rewrite list_lookup_insert_ne by exact Hne. exact Hj.
        -- intros j a Hj. destruct (decide (i = j)) as [->|Hne].
           ++ rewrite list_lookup_insert_eq in Hj by exact Hlt.
              injection Hj as <-. right. split; [reflexivity|].
              split; [exact Hname|]. exists v. split; assumption.
           ++ rewrite list_lookup_insert_ne in Hj by exact Hne. left. exact Hj.
        -- intros j [_ [v' [Hv' Hj]]]. rewrite Hv in Hv'. injection Hv' as <-.
           rewrite Hi in Hj. injection Hj as <-. exists f.
           apply list_lookup_insert_eq. exact Hlt.
    + exists fns. repeat split; auto.
      intros j [_ [v' [Hv' Hj]]]. rewrite Hv in Hv'. injection Hv' as <-.
      rewrite Hi in Hj. discriminate.
  - exists fns. repeat split; auto.
    intros j [Hn _]. congruence.
Qed.

Lemma visit_edges_valid edges :
  forall q fns,
    Forall (fun edge => exists f, function edge = Some f /\
              (String.eqb (name (g f)) AccumulateGrad_name = true ->
               variable (g f) <> None)) edges ->
    (forall v i, idx !! v = Some i -> (i < length fns)%nat) ->
    exists fns',
      visit_edges g idx edges (q, fns) = Ok (q ++ pushed_entries g edges, fns') /\
      length fns' = length fns /\
      (forall i a, fns !! i = Some (Some a) -> fns' !! i = Some (Some a)) /\
      (forall i a, fns' !! i = Some (Some a) ->
         fns !! i = Some (Some a) \/ keyed g idx a i) /\
      (forall edge f i, edge ∈ edges -> function edge = Some f ->
         keyed g idx f i -> assigned fns' i).
Proof.
  induction edges as [|edge edges IH]; intros q fns Hall Hidx.
  - exists fns. cbn. rewrite app_nil_r. repeat split; auto.
    intros edge f i Hin. inversion Hin.
  - inversion Hall as [|? ? [f [Hf Hvar]] Hrest]; subst.
    destruct (visit_edge_valid edge q fns f Hf Hvar Hidx)
      as [fns1 [Hrun [Hlen [Hkeep [Hfrom Hnew]]]]].
    destruct (IH (q ++ pushed_entries g [edge]) fns1 Hrest) as
      [fns2 [Hrun2 [Hlen2 [Hkeep2 [Hfrom2 Hnew2]]]]].
    { intros v i Hi. rewrite Hlen. eapply Hidx. exact Hi. }
    exists fns2. cbn [visit_edges]. rewrite Hrun. cbn [res_bind]. rewrite Hrun2.
    split.
    { f_equal. f_equal. rewrite <- app_assoc. f_equal.
      unfold pushed_entries. cbn. destruct (pushes g edge); reflexivity. }
    split; [congruence|]. split; [auto|]. split.
    + intros i a Hi. destruct (Hfrom2 i a Hi) as [H1|H1]; [|right; exact H1].
      destruct (Hfrom i a H1) as [H0|[-> H0]]; [left; exact H0 | right; exact H0].
    + intros edge' f' i Hin Hf' Hk. apply elem_of_cons in Hin as [->|Hin].
      * rewrite Hf in Hf'. injection Hf' as <-.
        destruct (Hnew i Hk) as [a Ha]. exists a. apply Hkeep2. exact Ha.
      * eapply Hnew2; eassumption.
Qed.

Lemma pushed_entries_elem (edges : list Edge) (x : option NodeId) :
  x ∈ pushed_entries g edges <->
  exists edge f, edge ∈ edges /\ pushes g edge = Some f /\ x = Some f.
Proof.
  unfold pushed_entries. split.
  - intros Hx. apply list_elem_of_In, in_map_iff in Hx as [f [<- Hf]].
    apply list_elem_of_In, list_elem_of_omap in Hf as [edge [Hin Hp]].
    exists edge, f. auto.
  - intros [edge [f [Hin [Hp ->]]]].
    apply list_elem_of_In, in_map. apply list_elem_of_In, list_elem_of_omap.
    exists edge. auto.
Qed.

Lemma check_input_grad_fns_assigned (fns : list (option NodeId)) :
  (forall i, (i < length fns)%nat -> assigned fns i) ->
  check_input_grad_fns fns = Ok tt.
Proof.
  induction fns as [|fn fns IH]; intros Hall; [reflexivity|].
  destruct (Hall 0%nat) as [a Ha]; [cbn; lia|]. cbn in Ha. injection Ha as ->.
  cbn. apply IH. intros i Hi. destruct (Hall (S i)) as [b Hb]; [cbn; lia|].
  exists b. exact Hb.
Qed.

Lemma forward_walk_finds (fuel : nat) :
  forall q fns,
    find_input_grad_fns fuel g idx q fns <> Err OutOfFuel ->
    (forall x, x ∈ q -> exists n, x = Some n /\ valid_from g n) ->
    (forall v i, idx !! v = Some i -> (i < length fns)%nat) ->
    (forall i a, fns !! i = Some (Some a) -> keyed g idx a i) ->
    (forall i, (i < length fns)%nat ->
       assigned fns i \/
       exists n a, Some n ∈ q /\ reaches g n a /\ keyed g idx a i) ->
    exists fns',
      find_input_grad_fns fuel g idx q fns = Ok fns' /\
      length fns' = length fns /\
      (forall i, (i < length fns)%nat -> assigned fns' i) /\
      (forall i a, fns' !! i = Some (Some a) -> keyed g idx a i) /\
      (forall i a, fns !! i = Some (Some a) -> fns' !! i = Some (Some a)).
Proof.
  induction fuel as [|fuel IH]; intros q fns Hne Hvalid Hidx Hkeyed Hcov.
  - destruct q as [|x q]; [|cbn in Hne; congruence].
    exists fns. split; [reflexivity|]. split; [reflexivity|].
    split; [|split; [exact Hkeyed | auto]].
    intros i Hi. destruct (Hcov i Hi) as [Ha|[n [a [Hin _]]]]; [exact Ha|].
    inversion Hin.
  - destruct q as [|x q].
    { exists fns. split; [reflexivity|]. split; [reflexivity|].
      split; [|split; [exact Hkeyed | auto]].
      intros i Hi. destruct (Hcov i Hi) as [Ha|[n [a [Hin _]]]]; [exact Ha|].
      inversion Hin. }
    destruct (Hvalid x) as [n [-> Hn]]; [left|].
    cbn [find_input_grad_fns] in Hne |- *.
    assert (Hedges : Forall (fun edge => exists f, function edge = Some f /\
              (String.eqb (name (g f)) AccumulateGrad_name = true ->
               variable (g f) <> None)) (next_edges (g n))).
    { apply Forall_forall. intros edge Hin. apply list_elem_of_In in Hin.
      apply (Hn n (descends_refl g n)). exact Hin. }
    destruct (visit_edges_valid (next_edges (g n)) q fns Hedges Hidx)
      as [fns1 [Hrun [Hlen [Hkeep [Hfrom Hnew]]]]].
    rewrite Hrun in Hne |- *. cbn [res_bind fst snd] in Hne |- *.
    destruct (IH (q ++ pushed_entries g (next_edges (g n))) fns1 Hne)
      as [fns2 [Hrun2 [Hlen2 [Hall2 [Hkeyed2 Hkeep2]]]]].
    + intros x Hx. apply elem_of_app in Hx as [Hx|Hx].
      * apply Hvalid. right. exact Hx.
      * apply pushed_entries_elem in Hx as [edge [f [Hin [Hp ->]]]].
        exists f. split; [reflexivity|]. intros m Hm. apply Hn.
        eapply descends_step; eassumption.
    + intros v i Hi. rewrite Hlen. eapply Hidx. exact Hi.
    + intros i a Hi. destruct (Hfrom i a Hi) as [H0|H0]; [eapply Hkeyed; exact H0 | exact H0].
    + intros i Hi. rewrite Hlen in Hi.
      destruct (Hcov i Hi) as [[a Ha]|[n' [a [Hin [Hreach Hk]]]]].
      * left. exists a. apply Hkeep. exact Ha.
      * apply elem_of_cons in Hin as [[= ->]|Hin].
        -- inversion Hreach as [? edge ? Hedge Hf Hname|? edge f ? Hedge Hp Hrest]; subst.
           ++ left. eapply Hnew; eassumption.
           ++ right. exists f, a. split; [|split; assumption].
              apply elem_of_app. right. apply pushed_entries_elem.
              exists edge, f. auto.
        -- right. exists n', a. split; [|split; assumption].
           apply elem_of_app. left. exact Hin.
    + exists fns2. split; [exact Hrun2|]. split; [congruence|].
      split; [intros i Hi; apply Hall2; rewrite Hlen; exact Hi|].
      split; [exact Hkeyed2|]. intros i a Ha. apply Hkeep2, Hkeep. exact Ha.
Qed.

(** What the walk of [ExecuteATenOperator] does on a graph whose edges
    are all valid: under the precondition that the accumulator of every
    index is reachable and keyed, every entry of [input_grad_fns] is
    given an accumulator keyed to its index, and the closing assertions
    pass. *)
Lemma forward_walk_assigns_all (rank : NodeId -> nat) (output_grad_fn : NodeId)
    (k : nat) :
  acyclic g rank ->
  valid_from g output_grad_fn ->
  (forall v i, idx !! v = Some i -> (i < k)%nat) ->
  covered g idx output_grad_fn k ->
  exists fuel0, forall fuel, (fuel0 <= fuel)%nat ->
    exists fns,
      find_input_grad_fns fuel g idx [Some output_grad_fn] (replicate k None) = Ok fns /\
      length fns = k /\
      (forall i, (i < k)%nat -> exists a, fns !! i = Some (Some a) /\ keyed g idx a i) /\
      check_input_grad_fns fns = Ok tt.
Proof.
  intros Hacyclic Hvalid Hidx Hcov.
  exists (queue_visits g rank [Some output_grad_fn]). intros fuel Hle.
  pose proof (forward_walk_returns g rank Hacyclic idx _ [Some output_grad_fn]
                (replicate k None) (Nat.le_refl _)) as Hne.
  rewrite (forward_walk_more g idx _ fuel _ _ Hne Hle).
  destruct (forward_walk_finds _ [Some output_grad_fn] (replicate k None) Hne)
    as [fns [Hrun [Hlen [Hall [Hkeyed _]]]]].
  - intros x Hx. apply list_elem_of_singleton in Hx as ->.
    exists output_grad_fn. auto.
  - intros v i Hi. rewrite length_replicate. eapply Hidx. exact Hi.
  - intros i a Hi. apply lookup_replicate in Hi as [Hi _]. discriminate.
  - intros i Hi. rewrite length_replicate in Hi. right.
    destruct (Hcov i Hi) as [a [Hreach Hk]].
    exists output_grad_fn, a. split; [left|]. split; assumption.
  - rewrite length_replicate in *. exists fns. split; [exact Hrun|].
    split; [exact Hlen|]. split.
    + intros i Hi. destruct (Hall i Hi) as [a Ha]. exists a.
      split; [exact Ha | eapply Hkeyed; exact Ha].
    + apply check_input_grad_fns_assigned. intros i Hi. apply Hall. lia.
Qed.

End ForwardWalk.

(** C4 at an input the code mishandles. The sample operator computes
    [(y + x) + x]; only [y] requires grad, so torch records an invalid
    edge (null function) for [x]. The accumulator of [y] is reachable
    from the output's grad_fn and keyed by the address of its grad, as
    the precondition asks, yet the walk calls [name()] through the null
    function of the invalid edge: no entry of [input_grad_fns] is
    assigned and the closing assertion is never reached. *)
Theorem forward_walk_null_edge :
  let call fuel :=
    @ExecuteATenOperator Examples.sample_dlpack fuel "sample::add_add" EmptyString
      [Some (Examples.tensor_dlpack 3 1); Some (Examples.tensor_dlpack 4 2)]
      [0] true Examples.sample_world in
  let g := graph (torch (snd (call 1%nat))) in
  let grad_ptr_to_indices : gmap positive nat := {[ 1%positive := 0%nat ]} in
  covered g grad_ptr_to_indices 1 1 /\
  (forall fuel,
     find_input_grad_fns (S fuel) g grad_ptr_to_indices [Some 1%positive] [None]
       = Err NullDereference) /\
  (forall fuel, fst (call (S fuel)) = Err NullDereference) /\
  (forall fuel, autograd_contexts_ (snd (call fuel)) = ∅).
Proof.
  intros call g idx. split; [|split; [|split]].
  - intros i Hi. assert (i = 0%nat) as -> by lia. exists 3%positive. split.
    + apply (reaches_step g 1 (mkEdge (Some 2%positive) 0) 2 3).
      * vm_compute. left.
      * reflexivity.
      * apply (reaches_edge g 2 (mkEdge (Some 3%positive) 0) 3).
        -- vm_compute. left.
        -- reflexivity.
        -- reflexivity.
    + split; [reflexivity|]. exists 1%positive. split; reflexivity.
  - intros fuel. vm_compute. reflexivity.
  - intros fuel. vm_compute. reflexivity.
  - intros fuel. destruct fuel; vm_compute; reflexivity.
Qed.

(** ** Executing an operator *)

Section ExecuteOnce.
Context `{ATenDLPack}.

(** What [requires_grad_(true)] does, by the dtype of the tensor. *)
Lemma requires_grad__run (t : Tensor) (h : Heap) :
  requires_grad_ t h =
    if isDifferentiableType (scalar_type (cell h t)) then
      (Ok tt,
       {| cell := <[t := {| payload := payload (cell h t);
                            scalar_type := scalar_type (cell h t);
                            is_contiguous := is_contiguous (cell h t);
                            requires_grad := true; grad := grad (cell h t);
                            grad_fn := grad_fn (cell h t) |}]> (cell h);
          next := next h; flowed := flowed h |})
    else (Err HostThrow, h).
Proof.
  unfold requires_grad_, exec_bind, read.
  destruct (isDifferentiableType (scalar_type (cell h t))); reflexivity.
Qed.

Lemma bind_ok {S A B} (m : Exec S A) (k : A -> Exec S B) (s s' : S) (a : A) :
  m s = (Ok a, s') -> exec_bind m k s = k a s'.
Proof. intros E. unfold exec_bind. rewrite E. reflexivity. Qed.

Lemma bind_err {S A B} (m : Exec S A) (k : A -> Exec S B) (s s' : S) (e : Failure) :
  m s = (Err e, s') -> exec_bind m k s = (Err e, s').
Proof. intros E. unfold exec_bind. rewrite E. reflexivity. Qed.






Lemma jit_pop_length (stack rets : list IValue) (n : nat) :
  jit_pop stack n = Ok rets -> length rets = n.
Proof.
  unfold jit_pop. destruct (Nat.ltb_spec (length stack) n) as [Hlt|Hge]; [discriminate|].
  intros [= <-]. rewrite length_skipn. lia.
Qed.



Lemma on_tensors_run {A} (m : Exec Heap A) (w w' : World) (r : Res A) :
  on_tensors m w = (r, w') ->
  executed w' = executed w /\ context_id_ w' = context_id_ w /\
  graph (torch w') = graph (torch w) /\
  m (heap (torch w)) = (r, heap (torch w')).
Proof.
  unfold on_tensors, on_torch, on_heap.
  destruct (m (heap (torch w))) as [r0 h0]. intros [= <- <-]. repeat split.
Qed.



End ExecuteOnce.

Lemma pair_of_fst {A B} (p : A * B) (a : A) : fst p = a -> p = (a, snd p).
Proof. intros <-. destruct p; reflexivity. Qed.


(** ** Backward *)

Section BackwardWalk.
Context `{ATenDLPack}.
Variable g : NodeId -> Node.

(** The first gradient handed to an accumulator becomes the grad of its
    variable: the same tensor, not a copy. *)
Lemma deliver_first edge gradient q s (h : Heap) f v :
  function edge = Some f ->
  String.eqb (name (g f)) AccumulateGrad_name = true ->
  variable (g f) = Some v ->
  f ∉ s ->
  exists h',
    deliver g edge gradient (q, s) h = (Ok (q, s ∪ {[ f ]}), h') /\
    grad (cell h' v) = Some gradient /\
    flowed h' = flowed h ++ [(f, payload (cell h gradient))].
Proof.
  intros Hf Hname Hv Hnew. unfold deliver. rewrite Hf, Hname, Hv.
  rewrite (bool_decide_eq_true_2 _ Hnew).
  eexists. split; [reflexivity|]. cbn. rewrite fn_lookup_insert. split; reflexivity.
Qed.

(** A later gradient is added in place to the tensor that is the grad. *)
Lemma deliver_later edge gradient q s (h : Heap) f v self :
  function edge = Some f ->
  String.eqb (name (g f)) AccumulateGrad_name = true ->
  variable (g f) = Some v ->
  f ∈ s ->
  grad (cell h v) = Some self ->
  exists h',
    deliver g edge gradient (q, s) h = (Ok (q, s), h') /\
    payload (cell h' self) = payload (cell h self) + payload (cell h gradient) /\
    flowed h' = flowed h ++ [(f, payload (cell h gradient))].
Proof.
  intros Hf Hname Hv Hold Hgrad. unfold deliver. rewrite Hf, Hname, Hv.
  rewrite bool_decide_eq_false_2 by (intros Hn; apply Hn; exact Hold).
  unfold exec_bind, note_flow, modify, read, add_, update. cbn. rewrite Hgrad.
  eexists. split; [reflexivity|]. cbn. rewrite fn_lookup_insert. split; reflexivity.
Qed.

(** The result vector has one entry for each saved accumulator. *)
Lemma export_input_grads_length (fns : list (option NodeId)) :
  forall result (h h' : Heap) out,
    export_input_grads g fns result h = (Ok out, h') ->
    length out = (length result + length fns)%nat.
Proof.
  induction fns as [|fn fns IH]; intros result h h' out Hrun.
  - cbn in Hrun. injection Hrun as <- _. cbn. lia.
  - cbn [export_input_grads] in Hrun. destruct fn as [n|]; [|discriminate].
    destruct (variable (g n)) as [v|]; [|discriminate].
    unfold exec_bind at 1 in Hrun. cbn [read] in Hrun.
    destruct (grad (cell h v)) as [t|]; [|discriminate].
    unfold exec_bind at 1 in Hrun.
    destruct (export_tensor t h) as [[d|e] h1]; [|discriminate].
    apply IH in Hrun. rewrite Hrun, length_app. cbn. lia.
Qed.

End BackwardWalk.

(** C2 at an input the code mishandles. The sample operator computes
    [(y + x) + x]; its forward call saves the accumulators of [y] and [x].
    In the backward call each addition hands the incoming gradient
    tensor on to both of its inputs: the accumulator of [x] is handed
    5 twice and that of [y] 5 once, so the grads should be 10 and 5.
    The first delivery makes the incoming tensor itself the grad of [x],
    the next makes it the grad of [y] too, and the in-place addition
    for [x] then changes the one tensor both grads are: [y] is
    returned 10, whatever number of iterations, three or more, the
    walks are allowed. *)
Theorem backward_gradients_aliased :
  forall fuel fuel',
    let fw := @ExecuteATenOperator Examples.sample_dlpack (3 + fuel) "sample::add_add" EmptyString
                [Some (Examples.tensor_dlpack 3 1); Some (Examples.tensor_dlpack 4 2)]
                [0; 1] true Examples.sample_world in
    let bw := @ExecuteATenOpBackward Examples.sample_dlpack (3 + fuel')
                (Some (Examples.tensor_dlpack 5 3)) 0 (snd fw) in
    let g := graph (torch (snd bw)) in
    let h := heap (torch (snd bw)) in
    autograd_contexts_ (snd fw) !! 0 =
      Some {| output_grad_fn := Some 1%positive;
              input_grad_fns := [Some 3%positive; Some 4%positive] |} /\
    variable (g 3%positive) = Some 1%positive /\
    variable (g 4%positive) = Some 2%positive /\
    flowed h = [(4%positive, 5); (3%positive, 5); (4%positive, 5)] /\
    flowed_into 3 h = 5 /\
    flowed_into 4 h = 10 /\
    grad (cell h 1%positive) = Some 4%positive /\
    grad (cell h 2%positive) = Some 4%positive /\
    payload (cell h 4%positive) = 10 /\
    fst bw = Ok [@dl_export Examples.sample_dlpack 4%positive (cell h 4%positive);
                 @dl_export Examples.sample_dlpack 4%positive (cell h 4%positive)] /\
    (exists t, grad (cell h 1%positive) = Some t /\
               payload (cell h t) <> flowed_into 3 h).
Proof.
  intros fuel fuel'. vm_compute. repeat split.
  exists 4%positive. split; [reflexivity | discriminate].
Qed.
(** ** More on the conversions *)

Section Templates.
Context {T : Type} `{CType T}.

Lemma object_at_ok (mem : list byte) (size i : nat) (bs : list byte) :
  object_at mem size i = Ok bs <->
  (i * size + size <= length mem)%nat /\ bs = firstn size (skipn (i * size) mem).
Proof.
  unfold object_at.
  destruct (Nat.eqb_spec (length (firstn size (skipn (i * size) mem))) size) as [E|E];
    rewrite length_take, length_drop in E.
  - split.
    + intros [= <-]. split; [|reflexivity].
      destruct size; [|lia]. lia.
    + intros [_ ->]. reflexivity.
  - split; [discriminate|]. intros [L _]. lia.
Qed.

Lemma load_ok (mem : list byte) (i : nat) (x : T) :
  load T mem i = Ok x <->
  (i * sizeof + sizeof <= length mem)%nat /\ x = object_of T mem i.
Proof.
  unfold load, object_of.
  destruct (object_at mem sizeof i) as [bs|e] eqn:E; cbn.
  - apply object_at_ok in E as [L ->]. split.
    + intros [= <-]. auto.
    + intros [_ ->]. reflexivity.
  - split; [discriminate|]. intros [L _].
    assert (Hok : object_at mem sizeof i = Ok (firstn sizeof (skipn (i * sizeof) mem)))
      by (apply object_at_ok; auto).
    congruence.
Qed.

Lemma emplace_loop_ok {U} (f : T -> U) (mem : list byte) (n : nat) :
  forall (i : nat) (acc l : list U),
    emplace_loop f mem i n acc = Ok l <->
    (n = 0%nat \/ ((i + n) * sizeof <= length mem)%nat) /\
    l = acc ++ map (fun j => f (object_of T mem j)) (seq i n).
Proof.
  induction n as [|n IH]; intros i acc l.
  - cbn. rewrite app_nil_r. split.
    + intros [= <-]. auto.
    + intros [_ ->]. reflexivity.
  - cbn [emplace_loop seq map].
    destruct (load T mem i) as [x|e] eqn:E; cbn [res_bind].
    + apply load_ok in E as [L ->]. rewrite IH. rewrite <- app_assoc. cbn [app].
      split.
      * intros [[->|L'] ->]; (split; [right; lia | reflexivity]).
      * intros [[?|L'] ->]; [discriminate|]. split; [|reflexivity].
        destruct n; [left; reflexivity | right; lia].
    + split; [discriminate|]. intros [[?|L] _]; [discriminate|].
      assert (Hok : load T mem i = Ok (object_of T mem i)) by (apply load_ok; split; [lia|reflexivity]).
      congruence.
Qed.

Lemma emplace_loop_map (mem : list byte) (n : nat) :
  forall (U : Type) (f : T -> U) (i : nat) (acc : list U),
    emplace_loop f mem i n acc =
    let? l := emplace_loop id mem i n [] in Ok (acc ++ map f l).
Proof.
  induction n as [|n IH]; intros U f i acc.
  - cbn. rewrite app_nil_r. reflexivity.
  - cbn [emplace_loop]. destruct (load T mem i) as [x|e]; cbn [res_bind]; [|reflexivity].
    rewrite (IH U f (S i) (acc ++ [f x])). rewrite (IH T id (S i) ([] ++ [id x])).
    destruct (emplace_loop id mem (S i) n []) as [l|e]; cbn [res_bind]; [|reflexivity].
    rewrite map_app, map_id, <- app_assoc. reflexivity.
Qed.

Lemma scalar_shape_true (t : DLTensor) :
  scalar_shape t = Ok true <->
  (ndim t = 0 /\ shape t = None) \/ (ndim t = 1 /\ exists dims, shape t = Some (1 :: dims)).
Proof.
  unfold scalar_shape, shape_at.
  destruct (Z.eqb_spec (ndim t) 0) as [E0|E0]; cbn [andb].
  - destruct (shape t) as [dims|] eqn:Es.
    + rewrite bool_decide_eq_false_2 by discriminate.
      destruct (Z.eqb_spec (ndim t) 1) as [E1|E1]; [lia|].
      split; [discriminate|]. intros [[_ ?]|[? _]]; [discriminate|lia].
    + rewrite bool_decide_eq_true_2 by reflexivity. split; auto.
  - destruct (Z.eqb_spec (ndim t) 1) as [E1|E1].
    + destruct (shape t) as [dims|] eqn:Es; cbn.
      * destruct dims as [|d dims]; cbn.
        -- split; [discriminate|]. intros [[? _]|[_ [dims' ?]]]; [lia|discriminate].
        -- destruct (Z.eqb_spec d 1) as [->|Hd].
           ++ split; [|reflexivity]. intros _. right. split; [exact E1|]. eauto.
           ++ split; [discriminate|].
              intros [[? _]|[_ [dims' [= ? ?]]]]; [lia|contradiction].
      * split; [discriminate|]. intros [[? _]|[_ [dims' ?]]]; [lia|discriminate].
    + split; [discriminate|]. intros [[? _]|[? _]]; contradiction.
Qed.

(** X1. [ToIValue<T>] gives a value exactly on a tensor of no dimension
    with a null shape, or of one dimension and one element, whose buffer
    holds an object of type [T]; the value is the first object of the
    buffer, optional or not.  It fails its assertion on every other
    number of dimensions and on a one-dimensional tensor of another
    length. *)
Theorem ToIValue_scalar (dlpack : DLManagedTensor) (is_optional : bool) :
  let t := dl_tensor dlpack in
  (forall v, ToIValue T dlpack is_optional = Ok v <->
     ((ndim t = 0 /\ shape t = None) \/
      (ndim t = 1 /\ exists dims, shape t = Some (1 :: dims))) /\
     (sizeof <= length (data t))%nat /\
     v = IValue_of (object_of T (data t) 0)) /\
  (ndim t <> 1 -> ~ (ndim t = 0 /\ shape t = None) ->
     ToIValue T dlpack is_optional = Err InternalAssert) /\
  (forall d dims, ndim t = 1 -> shape t = Some (d :: dims) -> d <> 1 ->
     ToIValue T dlpack is_optional = Err InternalAssert).
Proof.
  intros t. split; [|split].
  - intros v. unfold ToIValue. fold t.
    destruct (scalar_shape t) as [[|]|e] eqn:Es; cbn [res_bind TORCH_INTERNAL_ASSERT].
    + apply scalar_shape_true in Es.
      destruct (load T (data t) 0) as [x|e] eqn:El; cbn [res_bind].
      * apply load_ok in El as [L ->]. split.
        -- intros [= <-]. split; [exact Es|]. split; [lia|].
           destruct is_optional; reflexivity.
        -- intros [_ [_ ->]]. destruct is_optional; reflexivity.
      * split; [discriminate|]. intros [_ [L _]].
        assert (Hok : load T (data t) 0 = Ok (object_of T (data t) 0))
          by (apply load_ok; split; [lia|reflexivity]).
        congruence.
    + split; [discriminate|]. intros [Hs _]. apply scalar_shape_true in Hs. congruence.
    + split; [discriminate|]. intros [Hs _]. apply scalar_shape_true in Hs. congruence.
  - intros H1 H0. unfold ToIValue, scalar_shape. fold t.
    destruct (Z.eqb_spec (ndim t) 1) as [?|_]; [contradiction|].
    destruct (Z.eqb_spec (ndim t) 0) as [E0|E0]; cbn [andb]; [|reflexivity].
    destruct (shape t) eqn:Es.
    + rewrite bool_decide_eq_false_2 by discriminate. reflexivity.
    + exfalso. apply H0. auto.
  - intros d dims H1 Hs Hd. unfold ToIValue, scalar_shape, shape_at. fold t.
    rewrite H1, Hs. cbn.
    destruct (Z.eqb_spec d 1) as [?|_]; [contradiction|]. reflexivity.
Qed.

(** X2. [ToListIValue<T>] gives a list exactly on a one-dimensional
    tensor whose buffer holds [shape[0]] objects of type [T], [shape[0]]
    read as a [size_t]; the list has that many entries, the [i]-th being
    the [i]-th object of the buffer, so an empty list reads nothing.  On
    any other number of dimensions the assertion fails. *)
Theorem ToListIValue_elements (dlpack : DLManagedTensor) (is_optional : bool) :
  let t := dl_tensor dlpack in
  (forall v, ToListIValue T dlpack is_optional = Ok v <->
     ndim t = 1 /\
     exists n dims, shape t = Some (n :: dims) /\
       (to_size_t n * sizeof <= length (data t))%nat /\
       v = IValue_of_list (map (object_of T (data t)) (seq 0 (to_size_t n)))) /\
  (ndim t <> 1 -> ToListIValue T dlpack is_optional = Err InternalAssert).
Proof.
  intros t. split.
  - intros v. unfold ToListIValue, shape_at. fold t.
    destruct (Z.eqb_spec (ndim t) 1) as [E1|E1]; cbn [TORCH_INTERNAL_ASSERT res_bind];
      [|split; [discriminate | intros [? _]; contradiction]].
    destruct (shape t) as [[|n dims]|] eqn:Es; cbn [lookup list_lookup res_bind];
      try (split; [discriminate | intros [_ [n' [dims' [? _]]]]; discriminate]).
    cbn.
    destruct (emplace_loop id (data t) 0 (to_size_t n) []) as [l|e] eqn:El; cbn [res_bind].
    + apply emplace_loop_ok in El as [L ->]. cbn [app]. split.
      * intros [= <-]. split; [exact E1|]. exists n, dims. split; [reflexivity|].
        split; [destruct L as [->|L]; cbn in *; lia|].
        destruct is_optional; reflexivity.
      * intros [_ [n' [dims' [[= <- <-] [_ ->]]]]]. destruct is_optional; reflexivity.
    + split; [discriminate|]. intros [_ [n' [dims' [[= <- <-] [L _]]]]].
      assert (Hok : emplace_loop id (data t) 0 (to_size_t n) [] =
                    Ok ([] ++ map (fun j => id (object_of T (data t) j)) (seq 0 (to_size_t n)))).
      { apply emplace_loop_ok. split; [right; cbn; lia | reflexivity]. }
      congruence.
  - intros H1. unfold ToListIValue. fold t.
    destruct (Z.eqb_spec (ndim t) 1) as [?|_]; [contradiction|]. reflexivity.
Qed.

End Templates.

(** X3. [Int64ToBoolIValue] is the conversion of 64-bit integers followed
    by the cast to [bool]: it gives a result exactly when [ToIValue<int64_t>]
    (or [ToListIValue<int64_t>] for a list) does, the integers of that
    result tested against zero, and fails as that conversion fails. *)
Theorem Int64ToBoolIValue_casts (dlpack : DLManagedTensor) (is_list is_optional : bool) :
  Int64ToBoolIValue dlpack is_list is_optional =
  let? v := (if is_list then ToListIValue Z dlpack is_optional
             else ToIValue Z dlpack is_optional) in
  Ok (to_bool_IValue v).
Proof.
  unfold Int64ToBoolIValue, ToListIValue, ToIValue. destruct is_list.
  - destruct (TORCH_INTERNAL_ASSERT (ndim (dl_tensor dlpack) =? 1)) as [[]|e];
      cbn [res_bind]; [|reflexivity].
    destruct (shape_at (dl_tensor dlpack) 0) as [n|e]; cbn [res_bind]; [|reflexivity].
    rewrite (emplace_loop_map _ _ _ int64_to_bool).
    destruct (emplace_loop id (data (dl_tensor dlpack)) 0 (to_size_t n) []) as [l|e];
      cbn [res_bind app]; [|reflexivity].
    destruct is_optional; reflexivity.
  - destruct (scalar_shape (dl_tensor dlpack)) as [ok|e]; cbn [res_bind]; [|reflexivity].
    destruct (TORCH_INTERNAL_ASSERT ok) as [[]|e]; cbn [res_bind]; [|reflexivity].
    destruct (load Z (data (dl_tensor dlpack)) 0) as [x|e]; cbn [res_bind]; [|reflexivity].
    destruct is_optional; reflexivity.
Qed.

Section ArgumentConversion.
Context `{ATenDLPack}.

Lemma ToIValue_tag {T} `{CType T} (dl : DLManagedTensor) (is_optional : bool) (v : IValue) :
  ToIValue T dl is_optional = Ok v -> exists x : T, v = IValue_of x.
Proof.
  unfold ToIValue.
  destruct (scalar_shape (dl_tensor dl)) as [ok|e]; cbn [res_bind]; [|discriminate].
  destruct (TORCH_INTERNAL_ASSERT ok) as [[]|e]; cbn [res_bind]; [|discriminate].
  destruct (load T (data (dl_tensor dl)) 0) as [x|e]; cbn [res_bind]; [|discriminate].
  intros [= <-]. exists x. destruct is_optional; reflexivity.
Qed.

Lemma ToListIValue_tag {T} `{CType T} (dl : DLManagedTensor) (is_optional : bool)
    (v : IValue) :
  ToListIValue T dl is_optional = Ok v -> exists l : list T, v = IValue_of_list l.
Proof.
  unfold ToListIValue.
  destruct (TORCH_INTERNAL_ASSERT (ndim (dl_tensor dl) =? 1)) as [[]|e];
    cbn [res_bind]; [|discriminate].
  destruct (shape_at (dl_tensor dl) 0) as [n|e]; cbn [res_bind]; [|discriminate].
  destruct (emplace_loop id (data (dl_tensor dl)) 0 (to_size_t n) []) as [l|e];
    cbn [res_bind]; [|discriminate].
  intros [= <-]. exists l. destruct is_optional; reflexivity.
Qed.

Lemma Int64ToBoolIValue_tag (dl : DLManagedTensor) (is_list is_optional : bool) (v : IValue) :
  Int64ToBoolIValue dl is_list is_optional = Ok v ->
  IValue_tag v = Some (BoolType, is_list).
Proof.
  unfold Int64ToBoolIValue. destruct is_list.
  - destruct (TORCH_INTERNAL_ASSERT (ndim (dl_tensor dl) =? 1)) as [[]|e];
      cbn [res_bind]; [|discriminate].
    destruct (shape_at (dl_tensor dl) 0) as [n|e]; cbn [res_bind]; [|discriminate].
    destruct (emplace_loop int64_to_bool (data (dl_tensor dl)) 0 (to_size_t n) [])
      as [l|e]; cbn [res_bind]; [|discriminate].
    intros [= <-]. destruct is_optional; reflexivity.
  - destruct (scalar_shape (dl_tensor dl)) as [ok|e]; cbn [res_bind]; [|discriminate].
    destruct (TORCH_INTERNAL_ASSERT ok) as [[]|e]; cbn [res_bind]; [|discriminate].
    destruct (load Z (data (dl_tensor dl)) 0) as [x|e]; cbn [res_bind]; [|discriminate].
    intros [= <-]. destruct is_optional; reflexivity.
Qed.

(** What a conversion of a buffer that is there gives when it gives
    something. *)
Lemma ToIValueArgument_ok (self : ATenOperator) (dlpack : DLManagedTensor)
    (index : nat) (h h' : Heap) (v : IValue) :
  ToIValueArgument self (Some dlpack) index h = (Ok v, h') ->
  (index < argument_size self)%nat /\
  exists k l, elem_kinds self !! index = Some k /\
    is_list_arguments self !! index = Some l /\
    match k with
    | TensorType => v = IVTensor (next h) /\ h' = snd (fromDLPack dlpack h)
    | IntType | FloatType | BoolType => IValue_tag v = Some (k, l) /\ h' = h
    | _ => False
    end.
Proof.
  unfold ToIValueArgument, exec_bind, lift_res, at_.
  destruct (Nat.ltb_spec index (argument_size self)) as [Hlt|Hge];
    cbn [TORCH_INTERNAL_ASSERT]; [|discriminate].
  destruct (is_optional_arguments self !! index) as [is_optional|]; [|discriminate].
  rewrite (bool_decide_eq_true_2 (Some dlpack <> None)) by discriminate.
  cbn [orb TORCH_INTERNAL_ASSERT].
  destruct (is_list_arguments self !! index) as [is_list|]; [|discriminate].
  destruct (elem_kinds self !! index) as [k|]; [|discriminate].
  destruct k; try discriminate.
  - cbn. intros [= <- <-]. split; [exact Hlt|].
    exists TensorType, is_list. split; [reflexivity|]. split; [reflexivity|].
    split; [destruct is_optional; reflexivity | reflexivity].
  - destruct (dtype_is dlpack kDLInt 64); cbn [TORCH_INTERNAL_ASSERT]; [|discriminate].
    intros [= E <-]. split; [exact Hlt|].
    exists IntType, is_list. split; [reflexivity|]. split; [reflexivity|].
    split; [|reflexivity].
    destruct is_list; [apply ToListIValue_tag in E | apply ToIValue_tag in E];
      destruct E as [x ->]; reflexivity.
  - destruct (dtype_is dlpack kDLFloat 32); cbn [TORCH_INTERNAL_ASSERT]; [|discriminate].
    intros [= E <-]. split; [exact Hlt|].
    exists FloatType, is_list. split; [reflexivity|]. split; [reflexivity|].
    split; [|reflexivity].
    destruct is_list; [apply ToListIValue_tag in E | apply ToIValue_tag in E];
      destruct E as [x ->]; reflexivity.
  - destruct (dtype_is dlpack kDLInt 64).
    + intros [= E <-]. split; [exact Hlt|].
      exists BoolType, is_list. split; [reflexivity|]. split; [reflexivity|].
      split; [|reflexivity]. eapply Int64ToBoolIValue_tag. exact E.
    + destruct (dtype_is dlpack kDLUInt 8); cbn [TORCH_INTERNAL_ASSERT]; [|discriminate].
      intros [= E <-]. split; [exact Hlt|].
      exists BoolType, is_list. split; [reflexivity|]. split; [reflexivity|].
      split; [|reflexivity].
      destruct is_list; [apply ToListIValue_tag in E | apply ToIValue_tag in E];
        destruct E as [x ->]; reflexivity.
Qed.

Lemma ToIValueArgument_err (self : ATenOperator) (dlpack : option DLManagedTensor)
    (index : nat) (h h' : Heap) (e : Failure) :
  ToIValueArgument self dlpack index h = (Err e, h') -> h' = h.
Proof.
  unfold ToIValueArgument, exec_bind, lift_res, at_.
  destruct (index <? argument_size self)%nat; cbn [TORCH_INTERNAL_ASSERT];
    [|intros [= _ <-]; reflexivity].
  destruct (is_optional_arguments self !! index) as [is_optional|];
    [|intros [= _ <-]; reflexivity].
  destruct dlpack as [dl|].
  - rewrite (bool_decide_eq_true_2 (Some dl <> None)) by discriminate.
    cbn [orb TORCH_INTERNAL_ASSERT].
    destruct (is_list_arguments self !! index) as [is_list|];
      [|intros [= _ <-]; reflexivity].
    destruct (elem_kinds self !! index) as [k|]; [|intros [= _ <-]; reflexivity].
    destruct k; try (cbn; intros [= _ <-]; reflexivity).
    + destruct (dtype_is dl kDLInt 64); cbn; intros [= _ <-]; reflexivity.
    + destruct (dtype_is dl kDLFloat 32); cbn; intros [= _ <-]; reflexivity.
    + destruct (dtype_is dl kDLInt 64); [intros [= _ <-]; reflexivity|].
      destruct (dtype_is dl kDLUInt 8); cbn; intros [= _ <-]; reflexivity.
  - rewrite (bool_decide_eq_false_2 (None <> None)) by (intros Hn; apply Hn; reflexivity).
    cbn [orb]. destruct is_optional; cbn; [intros E; discriminate E|].
    destruct (default_values self !! index) as [[d|]|]; cbn; intros E;
      try discriminate E; injection E as _ <-; reflexivity.
Qed.

(** X4. What [ToIValueArgument] makes of a buffer that is there.  A
    result has the type the schema asks for: a tensor for an argument of
    kind Tensor, and for the kinds Int, Float and Bool a value or a list
    of that kind as the argument is a list or not; no other kind has a
    result.  Only a tensor argument touches the heap: it gets a tensor
    of its own that does not require grad, and nothing else changes; a
    call that fails leaves the heap as it was. *)
Theorem ToIValueArgument_typed (self : ATenOperator) (dlpack : DLManagedTensor)
    (index : nat) (h : Heap) :
  let r := ToIValueArgument self (Some dlpack) index h in
  (forall e, fst r = Err e -> snd r = h) /\
  (forall v, fst r = Ok v ->
     (index < argument_size self)%nat /\
     exists k l, elem_kinds self !! index = Some k /\
       is_list_arguments self !! index = Some l /\
       match k with
       | TensorType =>
           v = IVTensor (next h) /\
           next (snd r) = Pos.succ (next h) /\
           flowed (snd r) = flowed h /\
           (forall t, t <> next h -> cell (snd r) t = cell h t) /\
           cell (snd r) (next h) =
             {| payload := dl_payload dlpack; scalar_type := dtype (dl_tensor dlpack);
                is_contiguous := dl_contiguous dlpack;
                requires_grad := false; grad := None; grad_fn := None |}
       | IntType | FloatType | BoolType =>
           IValue_tag v = Some (k, l) /\ snd r = h
       | _ => False
       end).
Proof.
  intros r. subst r.
  destruct (ToIValueArgument self (Some dlpack) index h) as [[v|e] h'] eqn:Hrun;
    cbn [fst snd]; split; try discriminate.
  - intros v' [= <-].
    apply ToIValueArgument_ok in Hrun as [Hlt [k [l [Hk [Hl Hcase]]]]].
    split; [exact Hlt|]. exists k, l. split; [exact Hk|]. split; [exact Hl|].
    destruct k; try exact Hcase. destruct Hcase as [-> ->].
    split; [reflexivity|]. cbn. split; [reflexivity|]. split; [reflexivity|]. split.
    + intros t Ht. apply fn_lookup_insert_ne. congruence.
    + apply fn_lookup_insert.
  - intros e' _. eapply ToIValueArgument_err. exact Hrun.
Qed.

End ArgumentConversion.

(** ** More on the operator cache *)

Lemma add_arguments_err (args : list Argument) :
  forall a e, add_arguments a args = Err e -> e = InternalAssert.
Proof.
  induction args as [|arg args IH]; intros a e; [discriminate|].
  cbn [add_arguments]. rewrite add_argument_spec.
  destruct (kind_eqb (spec_elem_kind arg) TensorType && spec_is_list arg);
    cbn [res_bind]; [congruence | apply IH].
Qed.

Lemma check_returns_err (rets : list Type_) (e : Failure) :
  check_returns rets = Err e -> e = InternalAssert.
Proof.
  induction rets as [|r rets IH]; [discriminate|].
  cbn. destruct (kind_eqb (kind r) TensorType); cbn; [exact IH | congruence].
Qed.

Lemma add_arguments_ok_supported (args : list Argument) :
  forall a a', add_arguments a args = Ok a' ->
    Forall (fun x => ~ (spec_elem_kind x = TensorType /\ spec_is_list x = true)) args.
Proof.
  induction args as [|arg args IH]; intros a a' Hrun; [constructor|].
  cbn [add_arguments] in Hrun. rewrite add_argument_spec in Hrun.
  destruct (kind_eqb (spec_elem_kind arg) TensorType && spec_is_list arg) eqn:E;
    [discriminate|]. cbn [res_bind] in Hrun.
  constructor; [|eapply IH; exact Hrun].
  intros [E1 E2]. rewrite E1, E2 in E. discriminate.
Qed.

Lemma check_returns_ok_supported (rets : list Type_) :
  check_returns rets = Ok tt -> Forall (fun r => kind r = TensorType) rets.
Proof.
  induction rets as [|r rets IH]; intros Hrun; [constructor|].
  cbn in Hrun. destruct (kind_eqb (kind r) TensorType) eqn:E; [|discriminate].
  constructor; [apply kind_eqb_eq; exact E | apply IH; exact Hrun].
Qed.

Lemma make_aten_op_ok_supported (o : Operator) (a : ATenOperator) :
  make_aten_op o = Ok a -> supported o.
Proof.
  unfold make_aten_op. intros Hrun.
  destruct (add_arguments _ (arguments (schema o))) as [a1|e] eqn:E; [|discriminate].
  cbn [res_bind] in Hrun.
  destruct (check_returns (returns (schema o))) as [[]|e] eqn:E2; [|discriminate].
  split; [eapply add_arguments_ok_supported; exact E
         | apply check_returns_ok_supported; exact E2].
Qed.

Lemma make_aten_op_err (o : Operator) (e : Failure) :
  make_aten_op o = Err e -> e = InternalAssert /\ ~ supported o.
Proof.
  intros Hrun. split.
  - unfold make_aten_op in Hrun.
    destruct (add_arguments _ (arguments (schema o))) as [a1|e1] eqn:E; cbn [res_bind] in Hrun.
    + destruct (check_returns (returns (schema o))) as [[]|e2] eqn:E2; [discriminate|].
      cbn in Hrun. injection Hrun as <-. eapply check_returns_err. exact E2.
    + injection Hrun as <-. eapply add_arguments_err. exact E.
  - intros Hs. rewrite (make_aten_op_supported o Hs) in Hrun. discriminate.
Qed.

(** What a call of [GetOperator] on a pair that is not cached comes to. *)
Lemma GetOperator_miss (op_name overload_name : string) (w : World) :
  ops_ w !! (op_name, overload_name) = None ->
  GetOperator op_name overload_name w =
  let w1 := snd (findOperatorFor (op_name, overload_name) w) in
  match registry w (op_name, overload_name) with
  | None => (Err InternalAssert, w1)
  | Some o =>
      match make_aten_op o with
      | Err e => (Err e, w1)
      | Ok a => (Ok a, snd (set_ops (insert (op_name, overload_name) a) w1))
      end
  end.
Proof.
  intros Ek. unfold GetOperator, exec_bind, get_state, pure. rewrite Ek.
  unfold findOperatorFor, lift_res, raise, set_ops, modify.
  destruct (registry w (op_name, overload_name)) as [o|]; cbn; [|reflexivity].
  destruct (make_aten_op o) as [a1|e]; cbn; [|reflexivity].
  unfold emplace. rewrite Ek. rewrite lookup_insert_eq. reflexivity.
Qed.

(** C6, as the code has it. [GetOperator] consults the registry and
    derives the metadata of the operator (element kinds with the
    optional and list wrappers taken off, the is-list and is-optional
    flags, the default values and the number of returns) only when the
    pair is not cached yet; when the registry has an operator under the
    pair that has no list of tensors among its arguments and only
    tensors as returns, that call caches the metadata and returns it; a
    call on a cached pair returns the cached entry and touches nothing;
    no call removes or replaces an entry; once a call has returned an
    entry, every later call with the same pair returns that entry; and
    when every cached entry is the metadata of the registry's operator
    under its key, that stays so and a returned entry is the metadata
    of the operator registered under the pair.  A pair that is not
    cached and has no such operator in the registry fails an assertion,
    caches nothing, and is looked up in the registry again by the next
    call, which fails again. *)
Theorem GetOperator_caches (op_name overload_name : string) (w : World) :
  let key := (op_name, overload_name) in
  let r := GetOperator op_name overload_name w in
  (ops_ w !! key = None ->
     resolved (snd r) = resolved w ++ [key] /\
     forall o, registry w key = Some o -> supported o ->
       fst r = Ok (spec_aten_op o) /\
       ops_ (snd r) = <[key := spec_aten_op o]> (ops_ w)) /\
  (forall a, ops_ w !! key = Some a -> r = (Ok a, w)) /\
  (forall k a, ops_ w !! k = Some a -> ops_ (snd r) !! k = Some a) /\
  (forall a, fst r = Ok a ->
     forall keys,
       let w' := GetOperator_calls keys (snd r) in
       GetOperator op_name overload_name w' = (Ok a, w')) /\
  (registered w ->
     registered (snd r) /\
     forall a, fst r = Ok a ->
       exists o, registry w key = Some o /\ a = spec_aten_op o) /\
  (ops_ w !! key = None ->
   ~ (exists o, registry w key = Some o /\ supported o) ->
     fst r = Err InternalAssert /\
     ops_ (snd r) = ops_ w /\
     let r' := GetOperator op_name overload_name (snd r) in
     fst r' = Err InternalAssert /\
     ops_ (snd r') = ops_ w /\
     resolved (snd r') = resolved w ++ [key; key]).
Proof.
  intros key r. split; [|split; [|split; [|split; [|split]]]].
  - intros Ek. subst r key.
    unfold GetOperator, exec_bind, get_state, pure.
    rewrite Ek. unfold findOperatorFor, lift_res, raise, set_ops, modify.
    split.
    + destruct (registry w (op_name, overload_name)) as [o|]; cbn; [|reflexivity].
      destruct (make_aten_op o) as [a1|e]; cbn; [|reflexivity].
      unfold emplace. rewrite Ek. rewrite lookup_insert_eq. reflexivity.
    + intros o Ho Hs. rewrite Ho. cbn.
      rewrite (make_aten_op_supported o Hs). cbn.
      unfold emplace. rewrite Ek. rewrite lookup_insert_eq. cbn. split; reflexivity.
  - intros a Ea. apply GetOperator_hit. exact Ea.
  - intros k a Ea. apply GetOperator_keeps. exact Ea.
  - intros a Ea keys w'. apply GetOperator_hit.
    apply GetOperator_calls_keep. apply GetOperator_result_cached. exact Ea.
  - apply GetOperator_registered.
  - intros Ek Hnone. subst r key.
    assert (Hfail : forall w0, ops_ w0 !! (op_name, overload_name) = None ->
              registry w0 = registry w ->
              GetOperator op_name overload_name w0 =
                (Err InternalAssert, snd (findOperatorFor (op_name, overload_name) w0))).
    { intros w0 Ek0 Hr. rewrite (GetOperator_miss _ _ _ Ek0). cbn zeta. rewrite Hr.
      destruct (registry w (op_name, overload_name)) as [o|] eqn:Ho; [|reflexivity].
      destruct (make_aten_op o) as [a1|e1] eqn:Hm.
      - exfalso. apply Hnone. exists o. split; [reflexivity|].
        eapply make_aten_op_ok_supported. exact Hm.
      - apply make_aten_op_err in Hm as [-> _]. reflexivity. }
    rewrite (Hfail w Ek eq_refl). cbn [fst snd findOperatorFor ops_].
    split; [reflexivity|]. split; [reflexivity|].
    rewrite Hfail by (cbn; auto). cbn. rewrite <- app_assoc.
    split; [reflexivity|]. split; reflexivity.
Qed.

Lemma GetOperator_caches_witness :
  let r := GetOperator "aten::sample" EmptyString Examples.sample_world in
  let w' := GetOperator_calls [("aten::other"%string, EmptyString)] (snd r) in
  resolved (snd r) = [("aten::sample"%string, EmptyString)] /\
  fst r = Ok (spec_aten_op Examples.sample_operator) /\
  GetOperator "aten::sample" EmptyString w' = (Ok (spec_aten_op Examples.sample_operator), w').
Proof.
  intros r w'.
  destruct (GetOperator_caches "aten::sample" EmptyString Examples.sample_world)
    as [Hfirst [_ [_ [Hlater _]]]].
  destruct (Hfirst (lookup_empty _)) as [Hres Hnew].
  destruct (Hnew Examples.sample_operator eq_refl sample_operator_supported)
    as [Hret _].
  split; [exact Hres|]. split; [exact Hret|].
  exact (Hlater _ Hret [("aten::other"%string, EmptyString)]).
Defined.

(** C6 as stated fails on the code: the registry has the operator
    [(Tensor[] tensors, int dim=0) -> Tensor] under its pair, but the
    first call fails the assertion on the list of tensors before
    anything is cached, and so does the second, which asks the registry
    again: the pair is resolved on every call and no call returns a
    cached entry. *)
Lemma unsupported_pair_resolved_again :
  let key := ("aten::cat"%string, EmptyString) in
  let r1 := GetOperator "aten::cat" EmptyString Examples.cat_world in
  let r2 := GetOperator "aten::cat" EmptyString (snd r1) in
  registry Examples.cat_world key = Some Examples.cat_operator /\
  fst r1 = Err InternalAssert /\
  fst r2 = Err InternalAssert /\
  resolved (snd r1) = [key] /\
  resolved (snd r2) = [key; key] /\
  ops_ (snd r2) = ∅.
Proof.
  intros key r1 r2. repeat split; vm_compute; reflexivity.
Qed.

(** X5. [GetOperator] returns an entry exactly when the pair is cached
    or the registry has a supported operator under it, and then the
    entry is the cached one or the metadata of that operator.  Every
    failure is a failed assertion on a pair that is not cached; it caches
    nothing, so the same call made again asks the registry again and
    fails again. *)
Theorem GetOperator_failure (op_name overload_name : string) (w : World) :
  let key := (op_name, overload_name) in
  let r := GetOperator op_name overload_name w in
  (forall a, fst r = Ok a <->
     ops_ w !! key = Some a \/
     (ops_ w !! key = None /\
      exists o, registry w key = Some o /\ supported o /\ a = spec_aten_op o)) /\
  (forall e, fst r = Err e ->
     e = InternalAssert /\
     ops_ w !! key = None /\
     ~ (exists o, registry w key = Some o /\ supported o) /\
     ops_ (snd r) = ops_ w /\
     resolved (snd r) = resolved w ++ [key] /\
     let r' := GetOperator op_name overload_name (snd r) in
     fst r' = Err InternalAssert /\
     resolved (snd r') = resolved w ++ [key; key]).
Proof.
  intros key r. subst r key.
  destruct (ops_ w !! (op_name, overload_name)) as [a0|] eqn:Ek.
  - rewrite (GetOperator_hit _ _ _ _ Ek). cbn [fst snd]. split.
    + intros a. split.
      * intros [= <-]. left. reflexivity.
      * intros [[= <-]|[? _]]; [reflexivity | discriminate].
    + discriminate.
  - rewrite (GetOperator_miss _ _ _ Ek). cbn zeta.
    destruct (registry w (op_name, overload_name)) as [o|] eqn:Ho.
    + destruct (make_aten_op o) as [a1|e1] eqn:Hm; cbn [fst snd].
      * pose proof (make_aten_op_ok_supported _ _ Hm) as Hs.
        apply make_aten_op_ok in Hm. subst a1. split.
        -- intros a. split.
           ++ intros [= <-]. right. split; [reflexivity|]. exists o. auto.
           ++ intros [?|[_ [o' [[= <-] [_ ->]]]]]; [discriminate | reflexivity].
        -- discriminate.
      * apply make_aten_op_err in Hm as [-> Hns]. split.
        -- intros a. split; [discriminate|].
           intros [?|[_ [o' [[= <-] [Hs _]]]]]; [discriminate | contradiction].
        -- intros e [= <-]. split; [reflexivity|]. split; [reflexivity|].
           split; [intros [o' [[= <-] Hs]]; contradiction|].
           split; [reflexivity|]. split; [reflexivity|].
           rewrite GetOperator_miss by exact Ek. cbn [registry findOperatorFor snd].
           rewrite Ho.
           destruct (make_aten_op o) as [a1|e1] eqn:Hm.
           ++ exfalso. apply Hns. eapply make_aten_op_ok_supported. exact Hm.
           ++ apply make_aten_op_err in Hm as [-> _]. cbn. rewrite <- app_assoc.
              split; reflexivity.
    + cbn [fst snd]. split.
      * intros a. split; [discriminate|].
        intros [?|[_ [o' [? _]]]]; discriminate.
      * intros e [= <-]. split; [reflexivity|]. split; [reflexivity|].
        split; [intros [o' [? _]]; discriminate|].
        split; [reflexivity|]. split; [reflexivity|].
        rewrite GetOperator_miss by exact Ek. cbn [registry findOperatorFor snd].
        rewrite Ho. cbn. rewrite <- app_assoc. split; reflexivity.
Qed.

(** ** What a call leaves alone *)

(** [GetOperator] changes [ops_] and [resolved] and nothing else. *)
Lemma GetOperator_frame {B} (f : World -> B) (op_name overload_name : string) :
  (forall w ops res,
     f {| torch := torch w; registry := registry w; resolved := res;
          executed := executed w; cout := cout w; ops_ := ops;
          autograd_contexts_ := autograd_contexts_ w;
          context_id_ := context_id_ w |} = f w) ->
  keeps f (GetOperator op_name overload_name).
Proof.
  intros Hf w.
  destruct (ops_ w !! (op_name, overload_name)) as [a0|] eqn:Ek.
  - rewrite (GetOperator_hit _ _ _ _ Ek). reflexivity.
  - rewrite (GetOperator_miss _ _ _ Ek). cbn zeta.
    destruct (registry w (op_name, overload_name)) as [o|]; [|exact (Hf w _ _)].
    destruct (make_aten_op o) as [a1|e]; exact (Hf w _ _).
Qed.

Section Frames.
Context `{ATenDLPack}.

Lemma ExecuteInternal_frame {B} (f : World -> B) (o : Operator) (arguments : list IValue)
    (n : nat) (result : list DLManagedTensor) :
  (forall t w, f (with_torch t w) = f w) ->
  (forall w, f (snd (record_execution o arguments w)) = f w) ->
  keeps f (ExecuteInternal o arguments n result).
Proof.
  intros Ht Hr. unfold ExecuteInternal.
  apply keeps_bind; [exact Hr|]. intros _.
  apply keeps_bind; [apply keeps_on_torch; exact Ht|]. intros stack.
  apply keeps_bind; [apply keeps_lift_res|]. intros rets.
  apply keeps_on_torch. exact Ht.
Qed.

Lemma ExecuteInternal_executed (o : Operator) (arguments : list IValue)
    (n : nat) (result : list DLManagedTensor) (w : World) :
  executed (snd (ExecuteInternal o arguments n result w)) = executed w ++ [(o, arguments)].
Proof.
  unfold ExecuteInternal.
  unfold exec_bind at 1. cbn [record_execution modify].
  match goal with |- executed (snd (?k ?w1)) = _ =>
    assert (Hk : keeps executed k)
      by (apply keeps_bind; [apply keeps_on_torch; reflexivity|]; intros ?;
          apply keeps_bind; [apply keeps_lift_res|]; intros ?;
          apply keeps_on_torch; reflexivity);
    rewrite Hk end.
  reflexivity.
Qed.

Lemma Insert_frame {B} (f : World -> B) (c : AutogradContext) :
  (forall w m i,
     f {| torch := torch w; registry := registry w; resolved := resolved w;
          executed := executed w; cout := cout w; ops_ := ops_ w;
          autograd_contexts_ := m; context_id_ := i |} = f w) ->
  keeps f (Insert c).
Proof. intros Hf w. cbn. apply Hf. Qed.

Lemma Pop_frame {B} (f : World -> B) (context_id : Z) :
  (forall w m,
     f {| torch := torch w; registry := registry w; resolved := resolved w;
          executed := executed w; cout := cout w; ops_ := ops_ w;
          autograd_contexts_ := m; context_id_ := context_id_ w |} = f w) ->
  keeps f (Pop context_id).
Proof.
  intros Hf w. unfold Pop, exec_bind, get_state, lift_res.
  destruct (autograd_contexts_ w !! context_id); cbn; [apply Hf | reflexivity].
Qed.

(** The steps of [ExecuteATenOperator] after the operator is fetched. *)
Lemma ExecuteATenOperator_unfold (fuel : nat) (op_name overload_name : string)
    (dlpacks : list (option DLManagedTensor)) (requires_grad : list Z)
    (p_context_id : bool) (w : World) :
  ExecuteATenOperator fuel op_name overload_name dlpacks requires_grad p_context_id w =
  exec_bind (GetOperator op_name overload_name) (fun aten_op =>
    let* _ := lift_res (TORCH_INTERNAL_ASSERT (length dlpacks =? argument_size aten_op)%nat) in
    let* arguments := on_tensors (convert_arguments aten_op dlpacks 0 []) in
    let* grad_ptr_to_indices :=
      on_tensors (mark_inputs aten_op arguments 0 (length requires_grad) ∅) in
    let* _ := lift_res (TORCH_INTERNAL_ASSERT
                          (p_context_id || bool_decide (requires_grad = []))) in
    if p_context_id then
      let* r := ExecuteInternal (op aten_op) arguments (return_size aten_op) [] in
      let* output := lift_res (toTensor (fst r)) in
      let* output_grad_fn := on_tensors (read output grad_fn) in
      let* w := get_state in
      let* fns := lift_res (find_input_grad_fns fuel (graph (torch w)) grad_ptr_to_indices
                              [output_grad_fn]
                              (replicate (length requires_grad) (@None NodeId))) in
      let* _ := lift_res (check_input_grad_fns fns) in
      let* context_id := Insert {| output_grad_fn := output_grad_fn;
                                   input_grad_fns := fns |} in
      pure (snd r, Some context_id)
    else
      let* r := ExecuteInternal (op aten_op) arguments (return_size aten_op) [] in
      pure (snd r, None)) (snd (print "New way..." w)).
Proof. reflexivity. Qed.

Lemma ExecuteATenOperator_frame {B} (f : World -> B) (fuel : nat)
    (op_name overload_name : string) (dlpacks : list (option DLManagedTensor))
    (requires_grad : list Z) (p_context_id : bool) :
  (forall w t res exe out ops m i,
     f {| torch := t; registry := registry w; resolved := res;
          executed := exe; cout := out; ops_ := ops;
          autograd_contexts_ := m; context_id_ := i |} = f w) ->
  keeps f (ExecuteATenOperator fuel op_name overload_name dlpacks requires_grad p_context_id).
Proof.
  intros Hf. unfold ExecuteATenOperator.
  assert (Ht : forall t w, f (with_torch t w) = f w) by (intros; apply Hf).
  assert (Hex : forall o a n r, keeps f (ExecuteInternal o a n r)).
  { intros. apply ExecuteInternal_frame; [exact Ht | intros; apply Hf]. }
  apply keeps_bind; [intros w; apply Hf|]. intros _.
  apply keeps_bind; [apply GetOperator_frame; intros; apply Hf|]. intros aten_op.
  apply keeps_bind; [apply keeps_lift_res|]. intros _.
  apply keeps_bind; [apply keeps_on_torch; exact Ht|]. intros arguments.
  apply keeps_bind; [apply keeps_on_torch; exact Ht|]. intros idx.
  apply keeps_bind; [apply keeps_lift_res|]. intros _.
  destruct p_context_id.
  - apply keeps_bind; [apply Hex|]. intros r.
    apply keeps_bind; [apply keeps_lift_res|]. intros output.
    apply keeps_bind; [apply keeps_on_torch; exact Ht|]. intros output_grad_fn.
    apply keeps_bind; [apply keeps_get_state|]. intros w'.
    apply keeps_bind; [apply keeps_lift_res|]. intros fns.
    apply keeps_bind; [apply keeps_lift_res|]. intros _.
    apply keeps_bind; [apply Insert_frame; intros; apply Hf|]. intros id.
    apply keeps_pure.
  - apply keeps_bind; [apply Hex|]. intros r. apply keeps_pure.
Qed.

Lemma ExecuteATenOpBackward_frame {B} (f : World -> B) (fuel : nat)
    (dlpack : option DLManagedTensor) (context_id : Z) :
  (forall w t m,
     f {| torch := t; registry := registry w; resolved := resolved w;
          executed := executed w; cout := cout w; ops_ := ops_ w;
          autograd_contexts_ := m; context_id_ := context_id_ w |} = f w) ->
  keeps f (ExecuteATenOpBackward fuel dlpack context_id).
Proof.
  intros Hf. unfold ExecuteATenOpBackward.
  assert (Ht : forall t w, f (with_torch t w) = f w) by (intros; apply Hf).
  apply keeps_bind; [apply Pop_frame; intros; apply Hf|]. intros c.
  apply keeps_bind; [destruct dlpack; [apply keeps_pure | apply keeps_raise]|]. intros d.
  apply keeps_bind; [apply keeps_on_torch; exact Ht|]. intros t.
  apply keeps_bind; [apply keeps_get_state|]. intros w'.
  apply keeps_bind; [apply keeps_on_torch; exact Ht|]. intros _.
  apply keeps_on_torch. exact Ht.
Qed.

Lemma cache_sound_frame (w w' : World) :
  ops_ w' = ops_ w -> registry w' = registry w -> cache_sound w -> cache_sound w'.
Proof. intros Ho Hr Hs k a. rewrite Ho, Hr. apply Hs. Qed.

Lemma GetOperator_sound (op_name overload_name : string) (w : World) :
  cache_sound w -> cache_sound (snd (GetOperator op_name overload_name w)).
Proof.
  intros Hs.
  destruct (ops_ w !! (op_name, overload_name)) as [a0|] eqn:Ek.
  - rewrite (GetOperator_hit _ _ _ _ Ek). exact Hs.
  - rewrite (GetOperator_miss _ _ _ Ek). cbn zeta.
    destruct (registry w (op_name, overload_name)) as [o|] eqn:Ho; [|exact Hs].
    destruct (make_aten_op o) as [a1|e] eqn:Hm; [|exact Hs].
    pose proof (make_aten_op_ok_supported _ _ Hm) as Hsup.
    apply make_aten_op_ok in Hm. subst a1.
    intros k a Hk. cbn in Hk.
    destruct (decide (k = (op_name, overload_name))) as [->|Hne].
    + rewrite lookup_insert_eq in Hk. injection Hk as <-. exists o. auto.
    + rewrite lookup_insert_ne in Hk by congruence. apply Hs. exact Hk.
Qed.

Lemma GetOperator_registry (op_name overload_name : string) :
  keeps registry (GetOperator op_name overload_name).
Proof. apply GetOperator_frame. reflexivity. Qed.

Lemma ExecuteATenOperator_sound (fuel : nat) (op_name overload_name : string)
    (dlpacks : list (option DLManagedTensor)) (requires_grad : list Z)
    (p_context_id : bool) (w : World) :
  cache_sound w ->
  cache_sound (snd (ExecuteATenOperator fuel op_name overload_name dlpacks requires_grad
                      p_context_id w)).
Proof.
  intros Hs. rewrite ExecuteATenOperator_unfold. unfold exec_bind at 1.
  set (w0 := snd (print "New way..." w)).
  assert (Hs0 : cache_sound w0) by exact Hs.
  pose proof (GetOperator_sound op_name overload_name w0 Hs0) as Hs1.
  destruct (GetOperator op_name overload_name w0) as [[aten_op|e] w1]; cbn [snd] in *;
    [|exact Hs1].
  match goal with |- cache_sound (snd (?k w1)) =>
    assert (Ho : keeps ops_ k); [|assert (Hr : keeps registry k)] end.
  3: { eapply cache_sound_frame; [apply Ho | apply Hr | exact Hs1]. }
  all: apply keeps_bind; [apply keeps_lift_res|]; intros _;
    apply keeps_bind; [apply keeps_on_torch; reflexivity|]; intros arguments;
    apply keeps_bind; [apply keeps_on_torch; reflexivity|]; intros idx;
    apply keeps_bind; [apply keeps_lift_res|]; intros _;
    destruct p_context_id;
    repeat first
      [ apply keeps_pure | apply keeps_lift_res | apply keeps_get_state
      | apply keeps_on_torch; reflexivity
      | apply ExecuteInternal_frame; [reflexivity | reflexivity]
      | apply Insert_frame; reflexivity
      | apply keeps_bind; [|intros ?] ].
Qed.

(** X6. The operator cache stays sound: when every cached entry is the
    metadata of a supported operator that the registry has under its
    key, it is so after a call of any of the four entry points, however
    the call ends.  In such a cache the four vectors of an entry have
    [argument_size] entries each, so an index below [argument_size] is
    in range for all of them, and an argument of kind Tensor is never a
    list. *)
Theorem cache_sound_invariant (w : World) :
  cache_sound w ->
  (forall op_name overload_name,
     cache_sound (snd (GetOperator op_name overload_name w))) /\
  (forall op_name overload_name index,
     cache_sound (snd (IsTensorArgument op_name overload_name index w))) /\
  (forall fuel op_name overload_name dlpacks requires_grad p_context_id,
     cache_sound (snd (ExecuteATenOperator fuel op_name overload_name dlpacks
                         requires_grad p_context_id w))) /\
  (forall fuel dlpack context_id,
     cache_sound (snd (ExecuteATenOpBackward fuel dlpack context_id w))) /\
  (forall k a, ops_ w !! k = Some a ->
     length (elem_kinds a) = argument_size a /\
     length (is_list_arguments a) = argument_size a /\
     length (is_optional_arguments a) = argument_size a /\
     length (default_values a) = argument_size a /\
     forall i, elem_kinds a !! i = Some TensorType ->
       is_list_arguments a !! i = Some false).
Proof.
  intros Hs. repeat match goal with |- _ /\ _ => split end.
  - intros. apply GetOperator_sound. exact Hs.
  - intros op_name overload_name index. unfold IsTensorArgument, exec_bind.
    pose proof (GetOperator_sound op_name overload_name w Hs) as Hs1.
    destruct (GetOperator op_name overload_name w) as [[aten_op|e] w1]; cbn [snd] in *;
      [|exact Hs1].
    unfold lift_res.
    destruct (TORCH_INTERNAL_ASSERT (index <? argument_size aten_op)%nat) as [[]|e];
      [|exact Hs1].
    destruct (at_ (elem_kinds aten_op) index); exact Hs1.
  - intros. apply ExecuteATenOperator_sound. exact Hs.
  - intros fuel dlpack context_id.
    eapply cache_sound_frame; [| |exact Hs].
    + apply (ExecuteATenOpBackward_frame ops_). reflexivity.
    + apply (ExecuteATenOpBackward_frame registry). reflexivity.
  - intros k a Hk. destruct (Hs k a Hk) as [o [_ [[Hargs _] ->]]].
    unfold spec_aten_op.
    cbn [elem_kinds is_list_arguments is_optional_arguments default_values argument_size].
    rewrite !length_map. repeat split.
    intros i Hi. rewrite list_lookup_fmap in Hi. rewrite list_lookup_fmap.
    destruct (arguments (schema o) !! i) as [arg|] eqn:Ea; [|discriminate].
    cbn [fmap option_fmap option_map] in Hi |- *. injection Hi as Hi. f_equal.
    rewrite Forall_forall in Hargs.
    assert (Hin : In arg (arguments (schema o))).
    { apply list_elem_of_In. eapply list_elem_of_lookup_2. exact Ea. }
    specialize (Hargs arg Hin).
    destruct (spec_is_list arg); [|reflexivity]. exfalso. apply Hargs. auto.
Qed.

End Frames.

Lemma cache_sound_invariant_witness :
  cache_sound Examples.sample_world /\
  cache_sound (snd (@ExecuteATenOperator Examples.sample_dlpack 10 "sample::add_add" EmptyString
                      [Some (Examples.tensor_dlpack 3 1); Some (Examples.tensor_dlpack 4 2)]
                      [0; 1] true Examples.sample_world)).
Proof.
  assert (H0 : cache_sound Examples.sample_world).
  { intros k a Hk. cbn in Hk. rewrite lookup_empty in Hk. discriminate. }
  split; [exact H0|].
  destruct (@cache_sound_invariant Examples.sample_dlpack Examples.sample_world H0)
    as [_ [_ [Hexec _]]].
  apply Hexec.
Defined.

Lemma GetOperator_sound_run (op_name overload_name : string) (w : World) (o : Operator) :
  cache_sound w ->
  registry w (op_name, overload_name) = Some o ->
  supported o ->
  exists w1,
    GetOperator op_name overload_name w = (Ok (spec_aten_op o), w1) /\
    ops_ w1 !! (op_name, overload_name) = Some (spec_aten_op o).
Proof.
  intros Hs Ho Hsup.
  destruct (ops_ w !! (op_name, overload_name)) as [a0|] eqn:Ek.
  - destruct (Hs _ _ Ek) as [o' [Ho' [_ ->]]].
    assert (o' = o) as -> by congruence.
    exists w. split; [apply GetOperator_hit; exact Ek | exact Ek].
  - rewrite (GetOperator_miss _ _ _ Ek). cbn zeta. rewrite Ho.
    rewrite (make_aten_op_supported o Hsup).
    eexists. split; [reflexivity|]. cbn. apply lookup_insert_eq.
Qed.

Lemma tensor_kind_of_supported (a : Argument) :
  ~ (spec_elem_kind a = TensorType /\ spec_is_list a = true) ->
  kind_eqb (spec_elem_kind a) TensorType =
  match without_optional (arg_type a) with
  | TensorT => true
  | _ => false
  end.
Proof.
  unfold spec_elem_kind, spec_is_list. intros Hn.
  destruct (without_optional (arg_type a)) as [ | | | | | | | | | e | e ]; try reflexivity.
  cbn [without_list].
  destruct (kind_eqb (kind e) TensorType) eqn:E; [|reflexivity].
  exfalso. apply Hn. split; [apply kind_eqb_eq; exact E | reflexivity].
Qed.

Section TensorArgument.
Context `{ATenDLPack}.

(** X7. On a sound cache, for a pair under which the registry has a
    supported operator, [IsTensorArgument] tells whether the argument of
    the given index is a tensor or an optional tensor; a list argument
    is never reported as a tensor.  An index that is not below the
    number of arguments fails the assertion.  Either way the operator is
    cached afterwards. *)
Theorem IsTensorArgument_spec (op_name overload_name : string) (index : nat)
    (w : World) (o : Operator) :
  cache_sound w ->
  registry w (op_name, overload_name) = Some o ->
  supported o ->
  let r := IsTensorArgument op_name overload_name index w in
  ops_ (snd r) !! (op_name, overload_name) = Some (spec_aten_op o) /\
  (forall a, arguments (schema o) !! index = Some a ->
     fst r = Ok (match without_optional (arg_type a) with
                 | TensorT => true
                 | _ => false
                 end)) /\
  ((length (arguments (schema o)) <= index)%nat -> fst r = Err InternalAssert).
Proof.
  intros Hs Ho Hsup r. subst r.
  destruct (GetOperator_sound_run op_name overload_name w o Hs Ho Hsup) as [w1 [Hrun Hc]].
  unfold IsTensorArgument.
  rewrite (bind_ok _ _ _ _ _ Hrun). unfold exec_bind, lift_res, at_.
  cbn [argument_size elem_kinds spec_aten_op].
  destruct (Nat.ltb_spec index (length (arguments (schema o)))) as [Hlt|Hge];
    cbn [TORCH_INTERNAL_ASSERT].
  - rewrite list_lookup_fmap.
    destruct (lookup_lt_is_Some_2 (arguments (schema o)) index Hlt) as [a Ha].
    rewrite Ha. cbn. split; [exact Hc|]. split; [|lia].
    intros a' [= <-]. f_equal. apply tensor_kind_of_supported.
    destruct Hsup as [Hargs _]. rewrite Forall_forall in Hargs. apply Hargs.
    apply list_elem_of_In. eapply list_elem_of_lookup_2. exact Ha.
  - cbn. split; [exact Hc|]. split; [|reflexivity].
    intros a Ha. apply lookup_lt_Some in Ha. lia.
Qed.

End TensorArgument.

Lemma cache_sound_empty (w : World) : ops_ w = ∅ -> cache_sound w.
Proof. intros E k a Hk. rewrite E, lookup_empty in Hk. discriminate. Qed.

Lemma IsTensorArgument_spec_witness :
  fst (@IsTensorArgument "aten::sample" EmptyString 0 Examples.sample_world) = Ok true /\
  fst (@IsTensorArgument "aten::sample" EmptyString 3 Examples.sample_world) = Ok false /\
  fst (@IsTensorArgument "aten::sample" EmptyString 4 Examples.sample_world)
    = Err InternalAssert.
Proof.
  pose proof (fun i => @IsTensorArgument_spec "aten::sample" EmptyString i
                 Examples.sample_world Examples.sample_operator
                 (cache_sound_empty Examples.sample_world eq_refl) eq_refl sample_operator_supported) as T.
  split; [|split].
  - destruct (T 0%nat) as [_ [Hin _]]. exact (Hin _ eq_refl).
  - destruct (T 3%nat) as [_ [Hin _]]. exact (Hin _ eq_refl).
  - destruct (T 4%nat) as [_ [_ Hout]]. apply Hout. cbn. lia.
Defined.

(** ** The hash of the operator cache *)

Lemma lxor_size_t (a b : Z) :
  0 <= a < 2 ^ 64 -> 0 <= b < 2 ^ 64 -> 0 <= Z.lxor a b < 2 ^ 64.
Proof.
  intros [Ha0 Ha] [Hb0 Hb].
  assert (H0 : 0 <= Z.lxor a b) by (apply Z.lxor_nonneg; tauto).
  split; [exact H0|].
  destruct (Z.eq_dec (Z.lxor a b) 0) as [E|E]; [rewrite E; reflexivity|].
  apply Z.log2_lt_pow2; [lia|].
  pose proof (Z.log2_lxor a b Ha0 Hb0) as Hl.
  assert (La : Z.log2 a < 64).
  { destruct (Z.eq_dec a 0) as [->|Hn]; [reflexivity|]. apply Z.log2_lt_pow2; lia. }
  assert (Lb : Z.log2 b < 64).
  { destruct (Z.eq_dec b 0) as [->|Hn]; [reflexivity|]. apply Z.log2_lt_pow2; lia. }
  lia.
Qed.

(** X8. [PairHash] keeps within [size_t], does not tell a pair from the
    pair with its components swapped, sends every pair of two equal
    components to 0, and, between two pairs with the same first
    component, collides exactly when the hashes of the second components
    do. *)
Theorem PairHash_collisions {T : Type} (hash : T -> Z) :
  (forall x, 0 <= hash x < 2 ^ 64) ->
  (forall a b, 0 <= PairHash hash hash (a, b) < 2 ^ 64) /\
  (forall a b, PairHash hash hash (a, b) = PairHash hash hash (b, a)) /\
  (forall a, PairHash hash hash (a, a) = 0) /\
  (forall a b c, PairHash hash hash (a, b) = PairHash hash hash (a, c) <-> hash b = hash c).
Proof.
  intros Hr. unfold PairHash. cbn [fst snd]. repeat split.
  - apply lxor_size_t; apply Hr.
  - apply lxor_size_t; apply Hr.
  - intros a b. apply Z.lxor_comm.
  - intros a. apply Z.lxor_nilpotent.
  - intros E. apply Z.lxor_eq.
    assert (E' : Z.lxor (hash a) (Z.lxor (hash a) (hash b)) =
                 Z.lxor (hash a) (Z.lxor (hash a) (hash c))) by (rewrite E; reflexivity).
    rewrite <- !Z.lxor_assoc, !Z.lxor_nilpotent, !Z.lxor_0_l in E'.
    rewrite E'. apply Z.lxor_nilpotent.
  - intros ->. reflexivity.
Qed.

Lemma PairHash_collisions_witness :
  let hash := fun x : Z => x mod 2 ^ 64 in
  PairHash hash hash (3, 5) = PairHash hash hash (5, 3) /\
  PairHash hash hash (7, 7) = 0.
Proof.
  intros hash.
  destruct (PairHash_collisions hash) as [_ [Hswap [Hdiag _]]].
  - intros x. apply Z.mod_pos_bound. reflexivity.
  - split; [apply Hswap | apply Hdiag].
Defined.

(** ** More on the context cache *)

(** X9. [Insert] and [Pop] back to back.  [Insert] returns the value of
    the counter and touches no other id.  When that id is free, the
    [Pop] of it gives back the context inserted and the map is again
    what it was before the two calls.  When the id is taken, [Insert]
    stores nothing: the map is unchanged and [Pop] gives back the
    context that was there before. *)
Theorem Insert_Pop_round_trip (c : AutogradContext) (w : World) :
  let r := Insert c w in
  let id := context_id_ w in
  fst r = Ok id /\
  (forall k, k <> id -> autograd_contexts_ (snd r) !! k = autograd_contexts_ w !! k) /\
  (autograd_contexts_ w !! id = None ->
     fst (Pop id (snd r)) = Ok c /\
     autograd_contexts_ (snd (Pop id (snd r))) = autograd_contexts_ w) /\
  (forall c0, autograd_contexts_ w !! id = Some c0 ->
     autograd_contexts_ (snd r) = autograd_contexts_ w /\
     fst (Pop id (snd r)) = Ok c0 /\
     autograd_contexts_ (snd (Pop id (snd r))) !! id = None).
Proof.
  intros r id. subst r id. split; [reflexivity|]. split; [|split].
  - intros k Hk. rewrite Insert_contexts. unfold emplace.
    destruct (autograd_contexts_ w !! context_id_ w); [reflexivity|].
    apply lookup_insert_ne. congruence.
  - intros Hfree.
    assert (Hin : autograd_contexts_ (snd (Insert c w)) !! context_id_ w = Some c).
    { rewrite Insert_contexts. unfold emplace. rewrite Hfree. apply lookup_insert_eq. }
    destruct (Pop_present _ _ _ Hin) as [Hr [Hdel _]]. split; [exact Hr|].
    rewrite Hdel, Insert_contexts. unfold emplace. rewrite Hfree.
    apply delete_insert_id. exact Hfree.
  - intros c0 Htaken.
    assert (Hsame : autograd_contexts_ (snd (Insert c w)) = autograd_contexts_ w).
    { rewrite Insert_contexts. unfold emplace. rewrite Htaken. reflexivity. }
    split; [exact Hsame|].
    assert (Hin : autograd_contexts_ (snd (Insert c w)) !! context_id_ w = Some c0)
      by (rewrite Hsame; exact Htaken).
    destruct (Pop_present _ _ _ Hin) as [Hr _]. split; [exact Hr|].
    apply Pop_erases.
Qed.

(** ** More on executing an operator *)

Lemma keeps_run {A B} (f : World -> B) (m : Exec World A) (w w' : World) (r : Res A) :
  keeps f m -> m w = (r, w') -> f w' = f w.
Proof. intros Hk E. specialize (Hk w). rewrite E in Hk. exact Hk. Qed.

Lemma find_input_grad_fns_head (fuel : nat) (g : NodeId -> Node) (idx : gmap positive nat)
    (output_grad_fn : option NodeId) (fns fns' : list (option NodeId)) :
  find_input_grad_fns fuel g idx [output_grad_fn] fns = Ok fns' ->
  exists n, output_grad_fn = Some n.
Proof.
  destruct fuel; [discriminate|]. cbn [find_input_grad_fns].
  destruct output_grad_fn as [n|]; [eauto | discriminate].
Qed.

Lemma visit_edge_length (g : NodeId -> Node) (idx : gmap positive nat) (edge : Edge)
    (q q' fns fns' : list (option NodeId)) :
  visit_edge g idx edge (q, fns) = Ok (q', fns') -> length fns' = length fns.
Proof.
  unfold visit_edge. destruct (function edge) as [f|]; [|discriminate].
  destruct (String.eqb (name (g f)) AccumulateGrad_name); [|intros [= _ <-]; reflexivity].
  destruct (variable (g f)) as [v|]; [|discriminate].
  destruct (idx !! grad_address v) as [i|]; [|intros [= _ <-]; reflexivity].
  unfold at_. destruct (fns !! i) as [[a|]|]; cbn; [| |discriminate].
  - intros [= _ <-]. reflexivity.
  - intros [= _ <-]. apply length_insert.
Qed.

Lemma visit_edges_length (g : NodeId -> Node) (idx : gmap positive nat) (edges : list Edge) :
  forall q q' fns fns',
    visit_edges g idx edges (q, fns) = Ok (q', fns') -> length fns' = length fns.
Proof.
  induction edges as [|edge edges IH]; intros q q' fns fns'.
  - cbn. intros [= _ <-]. reflexivity.
  - cbn [visit_edges].
    destruct (visit_edge g idx edge (q, fns)) as [[q1 fns1]|e] eqn:E1; [|discriminate].
    cbn [res_bind]. intros E2. apply IH in E2. apply visit_edge_length in E1. congruence.
Qed.

Lemma find_input_grad_fns_length (g : NodeId -> Node) (idx : gmap positive nat) (fuel : nat) :
  forall q fns fns',
    find_input_grad_fns fuel g idx q fns = Ok fns' -> length fns' = length fns.
Proof.
  induction fuel as [|fuel IH]; intros q fns fns'.
  - destruct q; [intros [= <-]; reflexivity | discriminate].
  - destruct q as [|[n|] q]; [intros [= <-]; reflexivity| |discriminate].
    cbn [find_input_grad_fns].
    destruct (visit_edges g idx (next_edges (g n)) (q, fns)) as [[q1 fns1]|e] eqn:E1;
      [|discriminate].
    cbn [res_bind fst snd]. intros E2. apply IH in E2.
    apply visit_edges_length in E1. congruence.
Qed.

Lemma check_input_grad_fns_ok (fns : list (option NodeId)) :
  check_input_grad_fns fns = Ok tt -> Forall (fun fn => fn <> None) fns.
Proof.
  induction fns as [|fn fns IH]; intros Hrun; [constructor|].
  cbn in Hrun. destruct fn as [a|]; [|discriminate].
  constructor; [discriminate | apply IH; exact Hrun].
Qed.

Section Calls.
Context `{ATenDLPack}.

Lemma on_tensors_fields {A} (m : Exec Heap A) (w w' : World) (r : Res A) :
  on_tensors m w = (r, w') ->
  executed w' = executed w /\ cout w' = cout w /\
  autograd_contexts_ w' = autograd_contexts_ w /\ context_id_ w' = context_id_ w /\
  ops_ w' = ops_ w.
Proof.
  unfold on_tensors, on_torch, on_heap.
  destruct (m (heap (torch w))) as [r0 h0]. intros [= <- <-]. repeat split.
Qed.

Lemma convert_arguments_length (aten_op : ATenOperator)
    (dlpacks : list (option DLManagedTensor)) :
  forall i arguments h arguments' h',
    convert_arguments aten_op dlpacks i arguments h = (Ok arguments', h') ->
    length arguments' = (length arguments + length dlpacks)%nat.
Proof.
  induction dlpacks as [|dlpack dlpacks IH]; intros i arguments h arguments' h'.
  - cbn. intros [= <- _]. lia.
  - cbn [convert_arguments]. unfold exec_bind at 1.
    destruct (ToIValueArgument aten_op dlpack i h) as [[v|e] h1]; [|discriminate].
    intros E. apply IH in E. rewrite E, length_app. cbn. lia.
Qed.

Lemma mark_inputs_bound (aten_op : ATenOperator) (arguments : list IValue) (n : nat) :
  forall i idx h idx' h',
    mark_inputs aten_op arguments i n idx h = (Ok idx', h') ->
    n = 0%nat \/ (i + n <= length arguments)%nat.
Proof.
  induction n as [|n IH]; intros i idx h idx' h'; [left; reflexivity|].
  cbn [mark_inputs]. unfold exec_bind at 1. unfold lift_res at 1.
  destruct (at_ (is_optional_arguments aten_op) i) as [is_optional|e]; [|discriminate].
  unfold exec_bind at 1. unfold lift_res at 1. unfold at_ at 1.
  destruct (arguments !! i) as [argument|] eqn:Ea; [|discriminate].
  apply lookup_lt_Some in Ea.
  unfold exec_bind at 1. unfold lift_res at 1.
  destruct (if is_optional then toOptionalTensor_value argument else toTensor argument)
    as [tensor|e]; [|discriminate].
  unfold exec_bind at 1.
  destruct (requires_grad_ tensor h) as [[[]|e] h1]; [|discriminate].
  intros E. apply IH in E. right. lia.
Qed.

Lemma export_returns_length (rets : list IValue) :
  forall is_first first_output result h v out h',
    export_returns rets is_first first_output result h = (Ok (v, out), h') ->
    length out = (length result + length rets)%nat.
Proof.
  induction rets as [|ret rets IH]; intros is_first first_output result h v out h'.
  - cbn. intros [= _ <- _]. lia.
  - cbn [export_returns]. unfold exec_bind at 1. unfold lift_res at 1.
    destruct (toTensor ret) as [tensor|e]; [|discriminate].
    unfold exec_bind at 1.
    destruct (export_tensor tensor h) as [[d|e] h1]; [|discriminate].
    intros E. apply IH in E. rewrite E, length_app. cbn. lia.
Qed.

Lemma ExecuteInternal_fields (o : Operator) (arguments : list IValue) (n : nat)
    (result : list DLManagedTensor) (w w' : World)
    (r : Res (IValue * list DLManagedTensor)) :
  ExecuteInternal o arguments n result w = (r, w') ->
  executed w' = executed w ++ [(o, arguments)] /\ cout w' = cout w /\
  autograd_contexts_ w' = autograd_contexts_ w /\ context_id_ w' = context_id_ w /\
  ops_ w' = ops_ w /\
  (forall v out, r = Ok (v, out) -> length out = (length result + n)%nat).
Proof.
  intros E.
  split; [pose proof (ExecuteInternal_executed o arguments n result w) as Hx;
          rewrite E in Hx; exact Hx|].
  split; [apply (keeps_run cout _ _ _ _
                   (ExecuteInternal_frame cout o arguments n result
                      (fun _ _ => eq_refl) (fun _ => eq_refl)) E)|].
  split; [apply (keeps_run autograd_contexts_ _ _ _ _
                   (ExecuteInternal_frame autograd_contexts_ o arguments n result
                      (fun _ _ => eq_refl) (fun _ => eq_refl)) E)|].
  split; [apply (keeps_run context_id_ _ _ _ _
                   (ExecuteInternal_frame context_id_ o arguments n result
                      (fun _ _ => eq_refl) (fun _ => eq_refl)) E)|].
  split; [apply (keeps_run ops_ _ _ _ _
                   (ExecuteInternal_frame ops_ o arguments n result
                      (fun _ _ => eq_refl) (fun _ => eq_refl)) E)|].
  intros v out ->. revert E. unfold ExecuteInternal.
  unfold exec_bind at 1. cbn [record_execution modify].
  unfold exec_bind at 1.
  match goal with |- context [on_torch ?m ?w1] => destruct (on_torch m w1) as [[stack|e] w2] end;
    [|discriminate].
  unfold exec_bind at 1. unfold lift_res at 1.
  destruct (jit_pop stack n) as [rets|e] eqn:Hpop; [|discriminate].
  apply jit_pop_length in Hpop.
  unfold on_tensors, on_torch, on_heap.
  destruct (export_returns rets true IVNone result (heap (torch w2))) as [[[v' out']|e] h']
    eqn:Hexp; [|discriminate].
  intros [= _ <- _]. apply export_returns_length in Hexp. lia.
Qed.

(** The ways a call of [ExecuteATenOperator] can go and what each of
    them leaves behind. *)
Lemma ExecuteATenOperator_cases (fuel : nat) (op_name overload_name : string)
    (dlpacks : list (option DLManagedTensor)) (requires_grad : list Z)
    (p_context_id : bool) (w : World) :
  let r := ExecuteATenOperator fuel op_name overload_name dlpacks requires_grad
             p_context_id w in
  cout (snd r) = cout w ++ ["New way..."%string] /\
  ((exists e, fst r = Err e /\ executed (snd r) = executed w /\
      autograd_contexts_ (snd r) = autograd_contexts_ w /\
      context_id_ (snd r) = context_id_ w) \/
   (exists aten_op arguments,
      ops_ (snd r) !! (op_name, overload_name) = Some aten_op /\
      executed (snd r) = executed w ++ [(op aten_op, arguments)] /\
      length dlpacks = argument_size aten_op /\
      length arguments = length dlpacks /\
      (length requires_grad <= length dlpacks)%nat /\
      (p_context_id = true \/ requires_grad = []) /\
      ((exists e, fst r = Err e /\
          autograd_contexts_ (snd r) = autograd_contexts_ w /\
          context_id_ (snd r) = context_id_ w) \/
       (p_context_id = false /\
        exists result, fst r = Ok (result, None) /\
          length result = return_size aten_op /\
          autograd_contexts_ (snd r) = autograd_contexts_ w /\
          context_id_ (snd r) = context_id_ w) \/
       (p_context_id = true /\
        exists result n fns, fst r = Ok (result, Some (context_id_ w)) /\
          length result = return_size aten_op /\
          context_id_ (snd r) = wrap_int64 (context_id_ w + 1) /\
          autograd_contexts_ (snd r) =
            emplace (context_id_ w)
              {| output_grad_fn := Some n; input_grad_fns := fns |}
              (autograd_contexts_ w) /\
          length fns = length requires_grad /\
          Forall (fun fn => fn <> None) fns)))).
Proof.
  intros r. subst r. rewrite ExecuteATenOperator_unfold.
  set (w0 := snd (print "New way..." w)).
  assert (F0 : executed w0 = executed w /\ cout w0 = cout w ++ ["New way..."%string] /\
               autograd_contexts_ w0 = autograd_contexts_ w /\
               context_id_ w0 = context_id_ w) by (repeat split).
  destruct F0 as [Fe0 [Fc0 [Fa0 Fi0]]].
  destruct (GetOperator op_name overload_name w0) as [[aten_op|e] w1] eqn:HG.
  2:{ rewrite (bind_err _ _ _ _ _ HG). cbn [fst snd].
      rewrite (keeps_run cout _ _ _ _ (GetOperator_frame cout op_name overload_name
                                         (fun _ _ _ => eq_refl)) HG).
      split; [exact Fc0|]. left. exists e. split; [reflexivity|].
      rewrite (keeps_run executed _ _ _ _ (GetOperator_frame executed op_name overload_name
                                             (fun _ _ _ => eq_refl)) HG).
      rewrite (keeps_run autograd_contexts_ _ _ _ _
                 (GetOperator_frame autograd_contexts_ op_name overload_name
                    (fun _ _ _ => eq_refl)) HG).
      rewrite (keeps_run context_id_ _ _ _ _
                 (GetOperator_frame context_id_ op_name overload_name
                    (fun _ _ _ => eq_refl)) HG).
      auto. }
  rewrite (bind_ok _ _ _ _ _ HG).
  assert (Fc1 : cout w1 = cout w ++ ["New way..."%string]).
  { rewrite (keeps_run cout _ _ _ _ (GetOperator_frame cout op_name overload_name
                                       (fun _ _ _ => eq_refl)) HG). exact Fc0. }
  assert (Fe1 : executed w1 = executed w).
  { rewrite (keeps_run executed _ _ _ _ (GetOperator_frame executed op_name overload_name
                                           (fun _ _ _ => eq_refl)) HG). exact Fe0. }
  assert (Fa1 : autograd_contexts_ w1 = autograd_contexts_ w).
  { rewrite (keeps_run autograd_contexts_ _ _ _ _
               (GetOperator_frame autograd_contexts_ op_name overload_name
                  (fun _ _ _ => eq_refl)) HG). exact Fa0. }
  assert (Fi1 : context_id_ w1 = context_id_ w).
  { rewrite (keeps_run context_id_ _ _ _ _
               (GetOperator_frame context_id_ op_name overload_name
                  (fun _ _ _ => eq_refl)) HG). exact Fi0. }
  assert (Fo1 : ops_ w1 !! (op_name, overload_name) = Some aten_op).
  { pose proof (GetOperator_result_cached op_name overload_name w0 aten_op) as Hc.
    rewrite HG in Hc. apply Hc. reflexivity. }
  clearbody w0. clear HG Fe0 Fc0 Fa0 Fi0.
  destruct (length dlpacks =? argument_size aten_op)%nat eqn:Hlen.
  2:{ rewrite (bind_err _ _ w1 w1 InternalAssert) by reflexivity.
      cbn [fst snd]. split; [exact Fc1|]. left. exists InternalAssert. auto. }
  rewrite (bind_ok _ _ w1 w1 tt) by reflexivity.
  apply Nat.eqb_eq in Hlen.
  destruct (on_tensors (convert_arguments aten_op dlpacks 0 []) w1)
    as [[arguments|e] w2] eqn:Hconv.
  2:{ rewrite (bind_err _ _ _ _ _ Hconv). cbn [fst snd].
      destruct (on_tensors_fields _ _ _ _ Hconv) as [Fe [Fc [Fa [Fi _]]]].
      split; [congruence|]. left. exists e. repeat split; congruence. }
  rewrite (bind_ok _ _ _ _ _ Hconv).
  destruct (on_tensors_fields _ _ _ _ Hconv) as [Fe2 [Fc2 [Fa2 [Fi2 Fo2]]]].
  assert (Hargs : length arguments = length dlpacks).
  { destruct (on_tensors_run _ _ _ _ Hconv) as [_ [_ [_ Hrun]]].
    apply convert_arguments_length in Hrun. exact Hrun. }
  destruct (on_tensors (mark_inputs aten_op arguments 0 (length requires_grad) ∅) w2)
    as [[idx|e] w3] eqn:Hmark.
  2:{ rewrite (bind_err _ _ _ _ _ Hmark). cbn [fst snd].
      destruct (on_tensors_fields _ _ _ _ Hmark) as [Fe [Fc [Fa [Fi _]]]].
      split; [congruence|]. left. exists e. repeat split; congruence. }
  rewrite (bind_ok _ _ _ _ _ Hmark).
  destruct (on_tensors_fields _ _ _ _ Hmark) as [Fe3 [Fc3 [Fa3 [Fi3 Fo3]]]].
  assert (Hrg : (length requires_grad <= length dlpacks)%nat).
  { destruct (on_tensors_run _ _ _ _ Hmark) as [_ [_ [_ Hrun]]].
    apply mark_inputs_bound in Hrun. lia. }
  destruct (p_context_id || bool_decide (requires_grad = [])) eqn:Hguard.
  2:{ rewrite (bind_err _ _ w3 w3 InternalAssert) by reflexivity.
      cbn [fst snd]. split; [congruence|]. left. exists InternalAssert.
      repeat split; congruence. }
  rewrite (bind_ok _ _ w3 w3 tt) by reflexivity.
  assert (Hg : p_context_id = true \/ requires_grad = []).
  { apply orb_true_iff in Hguard as [Hp|Hp]; [left; exact Hp|].
    right. apply bool_decide_eq_true in Hp. exact Hp. }
  destruct (ExecuteInternal (op aten_op) arguments (return_size aten_op) [] w3)
    as [rr w4] eqn:Hexec.
  destruct (ExecuteInternal_fields _ _ _ _ _ _ _ Hexec) as [Fe4 [Fc4 [Fa4 [Fi4 [Fo4 Hout]]]]].
  assert (Hcommon : forall W : World,
    cout W = cout w4 -> executed W = executed w4 -> ops_ W = ops_ w4 ->
    cout W = cout w ++ ["New way..."%string] /\
    ops_ W !! (op_name, overload_name) = Some aten_op /\
    executed W = executed w ++ [(op aten_op, arguments)]).
  { intros W Hc He Ho. repeat split; congruence. }
  destruct p_context_id.
  - destruct rr as [[first_output result]|e].
    2:{ rewrite (bind_err _ _ _ _ _ Hexec). cbn [fst snd].
        destruct (Hcommon w4 eq_refl eq_refl eq_refl) as [C1 [C2 C3]].
        split; [exact C1|]. right. exists aten_op, arguments.
        repeat (split; [assumption|]). left. exists e. repeat split; congruence. }
    rewrite (bind_ok _ _ _ _ _ Hexec). cbn [fst snd].
    specialize (Hout _ _ eq_refl). cbn in Hout.
    destruct (toTensor first_output) as [output|e] eqn:Ht.
    2:{ rewrite (bind_err _ _ w4 w4 e) by reflexivity.
        cbn [fst snd].
        destruct (Hcommon w4 eq_refl eq_refl eq_refl) as [C1 [C2 C3]].
        split; [exact C1|]. right. exists aten_op, arguments.
        repeat (split; [assumption|]). left. exists e. repeat split; congruence. }
    rewrite (bind_ok _ _ w4 w4 output) by reflexivity.
    destruct (on_tensors (read output grad_fn) w4) as [[output_grad_fn|e] w5] eqn:Hread.
    2:{ rewrite (bind_err _ _ _ _ _ Hread). cbn [fst snd].
        destruct (on_tensors_fields _ _ _ _ Hread) as [Fe [Fc [Fa [Fi Fo]]]].
        destruct (Hcommon w5 Fc Fe Fo) as [C1 [C2 C3]].
        split; [exact C1|]. right. exists aten_op, arguments.
        repeat (split; [assumption|]). left. exists e. repeat split; congruence. }
    rewrite (bind_ok _ _ _ _ _ Hread).
    destruct (on_tensors_fields _ _ _ _ Hread) as [Fe5 [Fc5 [Fa5 [Fi5 Fo5]]]].
    destruct (Hcommon w5 Fc5 Fe5 Fo5) as [C1 [C2 C3]].
    rewrite (bind_ok get_state _ w5 w5 w5 eq_refl).
    destruct (find_input_grad_fns fuel (graph (torch w5)) idx [output_grad_fn]
                (replicate (length requires_grad) None)) as [fns|e] eqn:Hwalk.
    2:{ rewrite (bind_err _ _ w5 w5 e) by reflexivity.
        cbn [fst snd]. split; [exact C1|]. right. exists aten_op, arguments.
        repeat (split; [assumption|]). left. exists e. repeat split; congruence. }
    rewrite (bind_ok _ _ w5 w5 fns) by reflexivity.
    destruct (check_input_grad_fns fns) as [[]|e] eqn:Hcheck.
    2:{ rewrite (bind_err _ _ w5 w5 e) by reflexivity.
        cbn [fst snd]. split; [exact C1|]. right. exists aten_op, arguments.
        repeat (split; [assumption|]). left. exists e. repeat split; congruence. }
    rewrite (bind_ok _ _ w5 w5 tt) by reflexivity.
    destruct (find_input_grad_fns_head _ _ _ _ _ _ Hwalk) as [n ->].
    apply find_input_grad_fns_length in Hwalk. rewrite length_replicate in Hwalk.
    apply check_input_grad_fns_ok in Hcheck.
    cbn [exec_bind Insert CreateId set_contexts modify pure fst snd
         cout executed ops_ autograd_contexts_ context_id_].
    split; [exact C1|]. right. exists aten_op, arguments.
    repeat (split; [assumption|]). right. right. split; [reflexivity|].
    exists result, n, fns.
    assert (E5 : context_id_ w5 = context_id_ w) by congruence.
    assert (A5 : autograd_contexts_ w5 = autograd_contexts_ w) by congruence.
    rewrite E5, A5. repeat split; assumption.
  - destruct rr as [[first_output result]|e].
    2:{ rewrite (bind_err _ _ _ _ _ Hexec). cbn [fst snd].
        destruct (Hcommon w4 eq_refl eq_refl eq_refl) as [C1 [C2 C3]].
        split; [exact C1|]. right. exists aten_op, arguments.
        repeat (split; [assumption|]). left. exists e. repeat split; congruence. }
    rewrite (bind_ok _ _ _ _ _ Hexec). cbn [fst snd pure].
    specialize (Hout _ _ eq_refl). cbn in Hout.
    destruct (Hcommon w4 eq_refl eq_refl eq_refl) as [C1 [C2 C3]].
    split; [exact C1|]. right. exists aten_op, arguments.
    repeat (split; [assumption|]). right. left. split; [reflexivity|].
    exists result. repeat split; congruence.
Qed.

End Calls.

Section CallOutcomes.
Context `{ATenDLPack}.

(** X10. A call of [ExecuteATenOperator] runs the operator at most once.
    When it runs it, that is the operation of the entry cached under the
    pair, on as many arguments as there are [dlpacks], and every guard
    before the execution held: the count of [dlpacks] is the number of
    arguments of the schema, [requires_grad] has no more entries than
    there are [dlpacks], and [p_context_id] is non-null or
    [requires_grad] is empty.  When it does not run it, the call fails.
    A call that returns gives one export for each declared return, and
    a context id exactly when [p_context_id] is non-null. *)
Theorem ExecuteATenOperator_at_most_once (fuel : nat) (op_name overload_name : string)
    (dlpacks : list (option DLManagedTensor)) (requires_grad : list Z)
    (p_context_id : bool) (w : World) :
  let r := ExecuteATenOperator fuel op_name overload_name dlpacks requires_grad
             p_context_id w in
  (executed (snd r) = executed w /\ exists e, fst r = Err e) \/
  (exists aten_op arguments,
     executed (snd r) = executed w ++ [(op aten_op, arguments)] /\
     ops_ (snd r) !! (op_name, overload_name) = Some aten_op /\
     length dlpacks = argument_size aten_op /\
     length arguments = length dlpacks /\
     (length requires_grad <= length dlpacks)%nat /\
     (p_context_id = true \/ requires_grad = []) /\
     forall result id, fst r = Ok (result, id) ->
       length result = return_size aten_op /\
       (id = None <-> p_context_id = false)).
Proof.
  intros r.
  destruct (ExecuteATenOperator_cases fuel op_name overload_name dlpacks requires_grad
              p_context_id w) as [_ [[e [He [Hx _]]]|[aten_op [arguments Hrun]]]];
    fold r in He, Hx || fold r in Hrun.
  - left. split; [exact Hx | exists e; exact He].
  - right. exists aten_op, arguments.
    destruct Hrun as [Ho [Hx [Hl [Ha [Hrg [Hg Hend]]]]]].
    repeat (split; [assumption|]).
    intros result id Hr.
    destruct Hend as [[e [He _]]|[[Hp [res [He [Hlen _]]]]|[Hp [res [n [fns [He [Hlen _]]]]]]]];
      rewrite He in Hr; [discriminate| |]; injection Hr as <- <-.
    + split; [exact Hlen|]. split; [intros _; exact Hp | reflexivity].
    + split; [exact Hlen|]. split; [discriminate | congruence].
Qed.

(** X11. What a call of [ExecuteATenOperator] leaves in the process
    state.  It prints its line once, however it ends.  A context is
    stored only by a call that returns with [p_context_id] non-null: the
    id it returns is the value of the counter, the counter moves on by
    one, the context goes under that id unless the id is taken, its
    output node is not null and its [input_grad_fns] are as many as the
    entries of [requires_grad], none of them null.  Every other call,
    failed or without [p_context_id], leaves the contexts and the
    counter as they were. *)
Theorem ExecuteATenOperator_context (fuel : nat) (op_name overload_name : string)
    (dlpacks : list (option DLManagedTensor)) (requires_grad : list Z)
    (p_context_id : bool) (w : World) :
  let r := ExecuteATenOperator fuel op_name overload_name dlpacks requires_grad
             p_context_id w in
  cout (snd r) = cout w ++ ["New way..."%string] /\
  match fst r with
  | Ok (_, Some id) =>
      p_context_id = true /\ id = context_id_ w /\
      context_id_ (snd r) = wrap_int64 (context_id_ w + 1) /\
      exists n fns,
        autograd_contexts_ (snd r) =
          emplace id {| output_grad_fn := Some n; input_grad_fns := fns |}
            (autograd_contexts_ w) /\
        length fns = length requires_grad /\
        Forall (fun fn => fn <> None) fns
  | Ok (_, None) =>
      p_context_id = false /\
      autograd_contexts_ (snd r) = autograd_contexts_ w /\
      context_id_ (snd r) = context_id_ w
  | Err _ =>
      autograd_contexts_ (snd r) = autograd_contexts_ w /\
      context_id_ (snd r) = context_id_ w
  end.
Proof.
  intros r.
  destruct (ExecuteATenOperator_cases fuel op_name overload_name dlpacks requires_grad
              p_context_id w) as [Hc Hcases]. fold r in Hc, Hcases.
  split; [exact Hc|].
  destruct Hcases as [[e [He [_ [Ha Hi]]]]|[aten_op [arguments [_ [_ [_ [_ [_ [_ Hend]]]]]]]]].
  - rewrite He. auto.
  - destruct Hend as [[e [He [Ha Hi]]]|[[Hp [res [He [_ [Ha Hi]]]]]
                     |[Hp [res [n [fns [He [_ [Hi [Ha [Hl Hf]]]]]]]]]]]; rewrite He.
    + auto.
    + auto.
    + split; [exact Hp|]. split; [reflexivity|]. split; [exact Hi|].
      exists n, fns. auto.
Qed.

End CallOutcomes.

(** ** The inputs that are marked *)

Lemma tensor_argument (is_optional : bool) (argument : IValue) (t : positive) :
  (if is_optional then toOptionalTensor_value argument else toTensor argument) = Ok t ->
  argument = IVTensor t.
Proof.
  destruct is_optional, argument; cbn; congruence.
Qed.

Lemma mark_inputs_marks (aten_op : ATenOperator) (arguments : list IValue) (n : nat) :
  forall (i : nat) (idx : gmap positive nat) (h : Heap) idx' h',
    mark_inputs aten_op arguments i n idx h = (Ok idx', h') ->
    (forall t, requires_grad (cell h t) = true -> requires_grad (cell h' t) = true) /\
    (forall t j, idx !! t = Some j ->
       exists j', idx' !! t = Some j' /\
         (j' = j \/ (i <= j' < i + n)%nat /\ arguments !! j' = Some (IVTensor t))) /\
    (forall t j, idx' !! t = Some j ->
       idx !! t = Some j \/ (i <= j < i + n)%nat /\ arguments !! j = Some (IVTensor t)) /\
    (forall j, (i <= j < i + n)%nat ->
       exists t, arguments !! j = Some (IVTensor t) /\
         requires_grad (cell h' t) = true /\
         exists j', idx' !! t = Some j' /\ (j <= j' < i + n)%nat /\
           arguments !! j' = Some (IVTensor t)) /\
    (forall t, (forall j, (i <= j < i + n)%nat -> arguments !! j <> Some (IVTensor t)) ->
       cell h' t = cell h t /\ idx' !! t = idx !! t) /\
    (forall t, payload (cell h' t) = payload (cell h t) /\
       is_contiguous (cell h' t) = is_contiguous (cell h t) /\
       grad (cell h' t) = grad (cell h t) /\
       grad_fn (cell h' t) = grad_fn (cell h t)) /\
    next h' = next h /\ flowed h' = flowed h.
Proof.
  induction n as [|n IH]; intros i idx h idx' h'.
  - cbn. intros [= <- <-].
    split; [auto|]. split; [eauto|]. split; [auto|].
    split; [intros; lia|]. split; [auto|]. auto.
  - cbn [mark_inputs]. unfold exec_bind at 1. unfold lift_res at 1.
    destruct (at_ (is_optional_arguments aten_op) i) as [is_optional|e]; [|discriminate].
    unfold exec_bind at 1. unfold lift_res at 1. unfold at_ at 1.
    destruct (arguments !! i) as [argument|] eqn:Ea; [|discriminate].
    unfold exec_bind at 1. unfold lift_res at 1.
    destruct (if is_optional then toOptionalTensor_value argument else toTensor argument)
      as [t0|e] eqn:Et; [|discriminate].
    apply tensor_argument in Et. subst argument.
    unfold exec_bind at 1. rewrite requires_grad__run.
    destruct (isDifferentiableType (scalar_type (cell h t0))); [|discriminate].
    intros Hrun. apply IH in Hrun.
    destruct Hrun as [Hmono [Hdom [Horig [Hmark [Hout [Hsame [Hnext Hflow]]]]]]].
    cbn [cell next flowed] in *. unfold grad_address in *.
    assert (Hreq0 : requires_grad
              ((<[t0 := {| payload := payload (cell h t0);
                           scalar_type := scalar_type (cell h t0);
                           is_contiguous := is_contiguous (cell h t0);
                           requires_grad := true; grad := grad (cell h t0);
                           grad_fn := grad_fn (cell h t0) |}]> (cell h)) t0) = true)
      by (rewrite fn_lookup_insert; reflexivity).
    split; [|split; [|split; [|split; [|split; [|split; [|split]]]]]].
    + intros t Ht. apply Hmono. destruct (decide (t = t0)) as [->|Hne]; [exact Hreq0|].
      rewrite fn_lookup_insert_ne by congruence. exact Ht.
    + intros t j Hj. destruct (decide (t = t0)) as [->|Hne].
      * destruct (Hdom t0 i) as [j' [Hj' Hc]]; [apply lookup_insert_eq|].
        exists j'. split; [exact Hj'|]. right.
        destruct Hc as [->|[Hr Ha]]; [split; [lia | exact Ea] | split; [lia | exact Ha]].
      * destruct (Hdom t j) as [j' [Hj' Hc]];
          [rewrite lookup_insert_ne by congruence; exact Hj|].
        exists j'. split; [exact Hj'|].
        destruct Hc as [->|[Hr Ha]]; [left; reflexivity | right; split; [lia | exact Ha]].
    + intros t j Hj. destruct (Horig t j Hj) as [Hc|[Hr Ha]].
      * destruct (decide (t = t0)) as [->|Hne].
        -- rewrite lookup_insert_eq in Hc. injection Hc as <-. right. split; [lia | exact Ea].
        -- rewrite lookup_insert_ne in Hc by congruence. left. exact Hc.
      * right. split; [lia | exact Ha].
    + intros j Hj. destruct (decide (j = i)) as [->|Hne].
      * exists t0. split; [exact Ea|]. split; [apply Hmono; exact Hreq0|].
        destruct (Hdom t0 i) as [j' [Hj' Hc]]; [apply lookup_insert_eq|].
        exists j'. split; [exact Hj'|].
        destruct Hc as [->|[Hr Ha]]; [split; [lia | exact Ea] | split; [lia | exact Ha]].
      * destruct (Hmark j) as [t [Ha [Hr [j' [Hj' [Hb Ha']]]]]]; [lia|].
        exists t. split; [exact Ha|]. split; [exact Hr|].
        exists j'. split; [exact Hj'|]. split; [lia | exact Ha'].
    + intros t Hnot.
      assert (Hne : t0 <> t) by (intros ->; apply (Hnot i); [lia | exact Ea]).
      destruct (Hout t) as [Hc Hi]; [intros j Hj; apply Hnot; lia|].
      rewrite Hc, Hi. split; [apply fn_lookup_insert_ne | apply lookup_insert_ne]; exact Hne.
    + intros t. destruct (Hsame t) as [-> [-> [-> ->]]].
      destruct (decide (t = t0)) as [->|Hne];
        [rewrite fn_lookup_insert | rewrite fn_lookup_insert_ne by congruence];
        repeat split.
    + exact Hnext.
    + exact Hflow.
Qed.

Section MarkedInputs.
Context `{ATenDLPack}.

(** X12. The entries of [requires_grad] are never read: a call depends
    on the vector through its size alone.  The loop over it marks the
    arguments of index 0 to [requires_grad.size() - 1]: each of them is
    a tensor, requires grad afterwards, and [grad_ptr_to_indices] maps
    the address of its grad to the last index in that range at which
    the tensor is passed; the map has no other key, and the loop changes
    nothing else of any tensor. *)
Theorem requires_grad_marks_leading_arguments :
  (forall fuel op_name overload_name dlpacks p_context_id w
          (requires_grad requires_grad' : list Z),
     length requires_grad = length requires_grad' ->
     ExecuteATenOperator fuel op_name overload_name dlpacks requires_grad p_context_id w =
     ExecuteATenOperator fuel op_name overload_name dlpacks requires_grad' p_context_id w) /\
  (forall aten_op arguments (requires_grad : list Z) h grad_ptr_to_indices h',
     mark_inputs aten_op arguments 0 (length requires_grad) ∅ h
       = (Ok grad_ptr_to_indices, h') ->
     (length requires_grad <= length arguments)%nat /\
     (forall i, (i < length requires_grad)%nat ->
        exists t, arguments !! i = Some (IVTensor t) /\
          Torch.requires_grad (cell h' t) = true /\
          exists j, grad_ptr_to_indices !! grad_address t = Some j /\
            (i <= j < length requires_grad)%nat /\
            arguments !! j = Some (IVTensor t)) /\
     (forall t j, grad_ptr_to_indices !! grad_address t = Some j ->
        (j < length requires_grad)%nat /\ arguments !! j = Some (IVTensor t)) /\
     (forall t, grad_ptr_to_indices !! grad_address t = None -> cell h' t = cell h t) /\
     (forall t, payload (cell h' t) = payload (cell h t) /\
        is_contiguous (cell h' t) = is_contiguous (cell h t) /\
        grad (cell h' t) = grad (cell h t) /\
        grad_fn (cell h' t) = grad_fn (cell h t))).
Proof.
  split.
  - intros fuel op_name overload_name dlpacks p_context_id w rg rg' Hlen.
    unfold ExecuteATenOperator. rewrite Hlen.
    assert (Hnil : bool_decide (rg = []) = bool_decide (rg' = [])).
    { destruct rg, rg'; try discriminate; reflexivity. }
    rewrite Hnil. reflexivity.
  - intros aten_op arguments rg h idx h' Hrun.
    pose proof (mark_inputs_bound _ _ _ _ _ _ _ _ Hrun) as Hb.
    apply mark_inputs_marks in Hrun.
    destruct Hrun as [_ [_ [Horig [Hmark [Hout [Hsame _]]]]]].
    unfold grad_address.
    split; [lia|]. split; [|split; [|split]].
    + intros i Hi. destruct (Hmark i) as [t [Ha [Hr [j [Hj [Hb' Ha']]]]]]; [lia|].
      exists t. split; [exact Ha|]. split; [exact Hr|]. exists j.
      split; [exact Hj|]. split; [lia | exact Ha'].
    + intros t j Hj. destruct (Horig t j Hj) as [Hc|[Hr Ha]].
      * rewrite lookup_empty in Hc. discriminate.
      * split; [lia | exact Ha].
    + intros t Hn. apply Hout. intros j Hj Ha.
      destruct (Hmark j Hj) as [t' [Ha' [_ [j' [Hj' _]]]]].
      rewrite Ha in Ha'. injection Ha' as <-. congruence.
    + exact Hsame.
Qed.

End MarkedInputs.

(** ** What the forward walk assigns *)

Section WalkSound.
Variable g : NodeId -> Node.
Variable idx : gmap positive nat.

Lemma pushed_entries_single (edge : Edge) (f : NodeId) :
  function edge = Some f ->
  pushed_entries g [edge] =
  if String.eqb (name (g f)) AccumulateGrad_name then [] else [Some f].
Proof.
  intros Hf. unfold pushed_entries, pushes. cbn. rewrite Hf.
  destruct (String.eqb (name (g f)) AccumulateGrad_name); reflexivity.
Qed.

Lemma visit_edge_sound (edge : Edge) (q q' fns fns' : list (option NodeId)) :
  visit_edge g idx edge (q, fns) = Ok (q', fns') ->
  q' = q ++ pushed_entries g [edge] /\
  length fns' = length fns /\
  (forall i a, fns !! i = Some (Some a) -> fns' !! i = Some (Some a)) /\
  (forall i a, fns' !! i = Some (Some a) ->
     fns !! i = Some (Some a) \/ (function edge = Some a /\ keyed g idx a i)).
Proof.
  unfold visit_edge.
  destruct (function edge) as [f|] eqn:Hf; [|discriminate].
  rewrite (pushed_entries_single edge f Hf).
  destruct (String.eqb (name (g f)) AccumulateGrad_name) eqn:Hname.
  - destruct (variable (g f)) as [v|] eqn:Hv; [|discriminate].
    rewrite app_nil_r.
    destruct (idx !! grad_address v) as [i|] eqn:Hi;
      [|intros [= <- <-]; repeat split; auto].
    unfold at_. destruct (fns !! i) as [[a0|]|] eqn:Hslot; cbn [res_bind]; [| |discriminate].
    + intros [= <- <-]. repeat split; auto.
    + intros [= <- <-]. split; [reflexivity|]. split; [apply length_insert|]. split.
      * intros j a Hj. destruct (decide (i = j)) as [->|Hne]; [congruence|].
        rewrite list_lookup_insert_ne by exact Hne. exact Hj.
      * intros j a Hj. destruct (decide (i = j)) as [->|Hne].
        -- rewrite list_lookup_insert_eq in Hj by (eapply lookup_lt_Some; exact Hslot).
           injection Hj as <-. right. split; [reflexivity|].
           split; [exact Hname|]. exists v. auto.
        -- rewrite list_lookup_insert_ne in Hj by exact Hne. left. exact Hj.
  - intros [= <- <-]. repeat split; auto.
Qed.

Lemma visit_edges_sound (edges : list Edge) :
  forall q q' fns fns',
    visit_edges g idx edges (q, fns) = Ok (q', fns') ->
    q' = q ++ pushed_entries g edges /\
    length fns' = length fns /\
    (forall i a, fns !! i = Some (Some a) -> fns' !! i = Some (Some a)) /\
    (forall i a, fns' !! i = Some (Some a) ->
       fns !! i = Some (Some a) \/
       exists edge, edge ∈ edges /\ function edge = Some a /\ keyed g idx a i).
Proof.
  induction edges as [|edge edges IH]; intros q q' fns fns'.
  - cbn. intros [= <- <-]. rewrite app_nil_r. repeat split; auto.
  - cbn [visit_edges].
    destruct (visit_edge g idx edge (q, fns)) as [[q1 fns1]|e] eqn:E1; [|discriminate].
    cbn [res_bind]. intros E2.
    apply visit_edge_sound in E1 as [-> [Hl1 [Hk1 Hn1]]].
    apply IH in E2 as [-> [Hl2 [Hk2 Hn2]]].
    split; [rewrite <- app_assoc; f_equal; unfold pushed_entries; cbn;
            destruct (pushes g edge); reflexivity|].
    split; [congruence|]. split; [auto|].
    intros i a Ha. destruct (Hn2 i a Ha) as [H1|[edge' [Hin [Hf Hk]]]].
    + destruct (Hn1 i a H1) as [H0|[Hf Hk]]; [left; exact H0|].
      right. exists edge. split; [left|]. auto.
    + right. exists edge'. split; [right; exact Hin|]. auto.
Qed.

Lemma find_input_grad_fns_sound (fuel : nat) :
  forall q fns fns',
    find_input_grad_fns fuel g idx q fns = Ok fns' ->
    length fns' = length fns /\
    (forall i a, fns !! i = Some (Some a) -> fns' !! i = Some (Some a)) /\
    (forall i a, fns' !! i = Some (Some a) ->
       fns !! i = Some (Some a) \/
       (keyed g idx a i /\ exists n, Some n ∈ q /\ reaches g n a)).
Proof.
  induction fuel as [|fuel IH]; intros q fns fns'.
  - destruct q; [|discriminate]. intros [= <-]. repeat split; auto.
  - destruct q as [|[n|] q]; [intros [= <-]; repeat split; auto| |discriminate].
    cbn [find_input_grad_fns].
    destruct (visit_edges g idx (next_edges (g n)) (q, fns)) as [[q1 fns1]|e] eqn:E1;
      [|discriminate].
    cbn [res_bind fst snd]. intros E2.
    apply visit_edges_sound in E1 as [-> [Hl1 [Hk1 Hn1]]].
    apply IH in E2 as [Hl2 [Hk2 Hn2]].
    split; [congruence|]. split; [auto|].
    intros i a Ha. destruct (Hn2 i a Ha) as [H1|[Hkey [m [Hin Hreach]]]].
    + destruct (Hn1 i a H1) as [H0|[edge [Hin [Hf Hk]]]]; [left; exact H0|].
      right. split; [exact Hk|]. exists n. split; [left|].
      eapply reaches_edge; [exact Hin | exact Hf | apply Hk].
    + right. split; [exact Hkey|].
      apply elem_of_app in Hin as [Hin|Hin].
      * exists m. split; [right; exact Hin | exact Hreach].
      * apply pushed_entries_elem in Hin as [edge [f [Hin [Hp [= ->]]]]].
        exists n. split; [left|]. eapply reaches_step; eassumption.
Qed.

(** X13. What the forward walk assigns, on any graph.  When the walk
    ends, [input_grad_fns] has the length it had, an entry that was set
    is what it was (the first accumulator found for an index is kept),
    an entry the walk has set is an [AccumulateGrad] node met from a
    queued node whose variable's grad is mapped to that index, and no
    node is set for two indices. *)
Theorem forward_walk_sound (fuel : nat) (grad_fn_queue : list (option NodeId))
    (input_grad_fns fns : list (option NodeId)) :
  find_input_grad_fns fuel g idx grad_fn_queue input_grad_fns = Ok fns ->
  length fns = length input_grad_fns /\
  (forall i a, input_grad_fns !! i = Some (Some a) -> fns !! i = Some (Some a)) /\
  (forall i a, fns !! i = Some (Some a) -> input_grad_fns !! i = Some None ->
     String.eqb (name (g a)) AccumulateGrad_name = true /\
     (exists v, variable (g a) = Some v /\ idx !! grad_address v = Some i) /\
     exists n, Some n ∈ grad_fn_queue /\ reaches g n a) /\
  (forall i j a, fns !! i = Some (Some a) -> fns !! j = Some (Some a) ->
     input_grad_fns !! i = Some None -> input_grad_fns !! j = Some None -> i = j).
Proof.
  intros Hrun. apply find_input_grad_fns_sound in Hrun as [Hl [Hk Hn]].
  assert (Hnew : forall i a, fns !! i = Some (Some a) -> input_grad_fns !! i = Some None ->
            keyed g idx a i /\ exists n, Some n ∈ grad_fn_queue /\ reaches g n a).
  { intros i a Ha Hnone. destruct (Hn i a Ha) as [H0|Hk']; [congruence | exact Hk']. }
  split; [exact Hl|]. split; [exact Hk|]. split.
  - intros i a Ha Hnone. destruct (Hnew i a Ha Hnone) as [[Hname Hvar] Hreach]. auto.
  - intros i j a Hi Hj Hni Hnj.
    destruct (Hnew i a Hi Hni) as [[_ [v [Hv Hiv]]] _].
    destruct (Hnew j a Hj Hnj) as [[_ [v' [Hv' Hjv]]] _].
    congruence.
Qed.

End WalkSound.

Lemma forward_walk_sound_witness :
  let g := Examples.add_add_graph Examples.marked_heap 1 2 in
  let idx : gmap positive nat := <[2%positive := 1%nat]> (<[1%positive := 0%nat]> ∅) in
  find_input_grad_fns 3 g idx [Some 1%positive] [None; None]
    = Ok [Some 3%positive; Some 4%positive] /\
  reaches g 1 3 /\ reaches g 1 4.
Proof.
  intros g idx.
  assert (Hrun : find_input_grad_fns 3 g idx [Some 1%positive] [None; None]
                 = Ok [Some 3%positive; Some 4%positive]) by (vm_compute; reflexivity).
  split; [exact Hrun|].
  destruct (forward_walk_sound g idx _ _ _ _ Hrun) as [_ [_ [Hnew _]]].
  split.
  - destruct (Hnew 0%nat 3%positive eq_refl eq_refl) as [_ [_ [n [Hin Hr]]]].
    apply list_elem_of_singleton in Hin. injection Hin as ->. exact Hr.
  - destruct (Hnew 1%nat 4%positive eq_refl eq_refl) as [_ [_ [n [Hin Hr]]]].
    apply list_elem_of_singleton in Hin. injection Hin as ->. exact Hr.
Defined.

(** ** More on the backward call *)

Section BackwardCall.
Context `{ATenDLPack}.

Lemma export_input_grads_ok (g : NodeId -> Node) (fns : list (option NodeId)) :
  forall result (h h' : Heap) out,
    export_input_grads g fns result h = (Ok out, h') ->
    length out = (length result + length fns)%nat /\
    Forall (fun fn => exists n v, fn = Some n /\ variable (g n) = Some v) fns.
Proof.
  induction fns as [|fn fns IH]; intros result h h' out Hrun.
  - cbn in Hrun. injection Hrun as <- _. split; [cbn; lia | constructor].
  - cbn [export_input_grads] in Hrun. destruct fn as [n|]; [|discriminate].
    destruct (variable (g n)) as [v|] eqn:Hv; [|discriminate].
    unfold exec_bind at 1 in Hrun. cbn [read] in Hrun.
    destruct (grad (cell h v)) as [t|]; [|discriminate].
    unfold exec_bind at 1 in Hrun.
    destruct (export_tensor t h) as [[d|e] h1]; [|discriminate].
    apply IH in Hrun as [Hl Hall]. split.
    + rewrite Hl, length_app. cbn. lia.
    + constructor; [eauto | exact Hall].
Qed.

Lemma propagate_head (fuel : nat) (g : NodeId -> Node) (output_grad_fn : option NodeId)
    (t : positive) (h h' : Heap) :
  propagate fuel g [(output_grad_fn, t)] ∅ h = (Ok tt, h') ->
  exists n, output_grad_fn = Some n.
Proof.
  destruct fuel; [discriminate|]. cbn [propagate fst].
  destruct output_grad_fn as [n|]; [eauto | discriminate].
Qed.

(** What a backward call that returns has done. *)
Lemma Backward_run (fuel : nat) (dlpack : option DLManagedTensor) (context_id : Z)
    (w w' : World) (ds : list DLManagedTensor) :
  ExecuteATenOpBackward fuel dlpack context_id w = (Ok ds, w') ->
  exists ctx d n,
    autograd_contexts_ w !! context_id = Some ctx /\
    dlpack = Some d /\
    output_grad_fn ctx = Some n /\
    length ds = length (input_grad_fns ctx) /\
    Forall (fun fn => exists a v, fn = Some a /\ variable (graph (torch w) a) = Some v)
           (input_grad_fns ctx) /\
    autograd_contexts_ w' = delete context_id (autograd_contexts_ w).
Proof.
  unfold ExecuteATenOpBackward. intros Hrun.
  destruct (autograd_contexts_ w !! context_id) as [ctx|] eqn:Ectx.
  2:{ pose proof (Pop_absent context_id w Ectx) as Hp.
      rewrite (bind_err _ _ _ _ _ Hp) in Hrun. discriminate. }
  destruct (Pop context_id w) as [rp w1] eqn:Hp.
  destruct (Pop_present context_id w ctx Ectx) as [Hr [Hdel _]].
  rewrite Hp in Hr, Hdel. cbn [fst snd] in Hr, Hdel. subst rp.
  assert (Ht1 : torch w1 = torch w).
  { apply (keeps_run torch _ _ _ _ (Pop_frame torch context_id (fun _ _ => eq_refl)) Hp). }
  rewrite (bind_ok _ _ _ _ _ Hp) in Hrun.
  destruct dlpack as [d|]; [|discriminate].
  rewrite (bind_ok (pure d) _ w1 w1 d eq_refl) in Hrun.
  destruct (on_tensors (fromDLPack d) w1) as [[t|e] w2] eqn:Hfrom;
    [|rewrite (bind_err _ _ _ _ _ Hfrom) in Hrun; discriminate].
  rewrite (bind_ok _ _ _ _ _ Hfrom) in Hrun.
  destruct (on_tensors_fields _ _ _ _ Hfrom) as [_ [_ [Fa2 _]]].
  destruct (on_tensors_run _ _ _ _ Hfrom) as [_ [_ [Fg2 _]]].
  rewrite (bind_ok get_state _ w2 w2 w2 eq_refl) in Hrun. cbv zeta in Hrun.
  destruct (on_tensors (propagate fuel (graph (torch w2))
                          [(output_grad_fn ctx, t)] ∅) w2) as [[[]|e] w3] eqn:Hprop;
    [|rewrite (bind_err _ _ _ _ _ Hprop) in Hrun; discriminate].
  rewrite (bind_ok _ _ _ _ _ Hprop) in Hrun.
  destruct (on_tensors_fields _ _ _ _ Hprop) as [_ [_ [Fa3 _]]].
  destruct (on_tensors_run _ _ _ _ Hprop) as [_ [_ [_ Hp3]]].
  apply propagate_head in Hp3 as [n Hn].
  destruct (on_tensors_fields _ _ _ _ Hrun) as [_ [_ [Fa4 _]]].
  destruct (on_tensors_run _ _ _ _ Hrun) as [_ [_ [_ Hexp]]].
  apply export_input_grads_ok in Hexp as [Hlen Hall].
  exists ctx, d, n. split; [reflexivity|]. split; [reflexivity|]. split; [exact Hn|].
  split; [exact Hlen|]. split.
  - rewrite Fg2, Ht1 in Hall. exact Hall.
  - congruence.
Qed.

(** X14. A backward call that returns has found a context under its id
    and a gradient that is not null.  It returns one export for each
    accumulator the context saved, every one of them a node with a
    variable; the context is erased and no other one is touched; the
    operator cache, the counter of ids, the autograd graph and what was
    printed are what they were, and no operator has been run. *)
Theorem ExecuteATenOpBackward_result (fuel : nat) (dlpack : option DLManagedTensor)
    (context_id : Z) (w w' : World) (ds : list DLManagedTensor) :
  ExecuteATenOpBackward fuel dlpack context_id w = (Ok ds, w') ->
  (exists ctx,
     autograd_contexts_ w !! context_id = Some ctx /\
     output_grad_fn ctx <> None /\
     length ds = length (input_grad_fns ctx) /\
     Forall (fun fn => exists a v, fn = Some a /\ variable (graph (torch w) a) = Some v)
            (input_grad_fns ctx)) /\
  dlpack <> None /\
  autograd_contexts_ w' = delete context_id (autograd_contexts_ w) /\
  context_id_ w' = context_id_ w /\
  ops_ w' = ops_ w /\ resolved w' = resolved w /\
  executed w' = executed w /\ cout w' = cout w /\
  graph (torch w') = graph (torch w).
Proof.
  intros Hrun.
  destruct (Backward_run _ _ _ _ _ _ Hrun) as [ctx [d [n [Hc [-> [Hn [Hl [Hall Hdel]]]]]]]].
  split; [exists ctx; rewrite Hn; repeat split; auto; discriminate|].
  split; [discriminate|]. split; [exact Hdel|].
  split; [apply (keeps_run context_id_ _ _ _ _
                   (ExecuteATenOpBackward_frame context_id_ fuel (Some d) context_id
                      (fun _ _ _ => eq_refl)) Hrun)|].
  split; [apply (keeps_run ops_ _ _ _ _
                   (ExecuteATenOpBackward_frame ops_ fuel (Some d) context_id
                      (fun _ _ _ => eq_refl)) Hrun)|].
  split; [apply (keeps_run resolved _ _ _ _
                   (ExecuteATenOpBackward_frame resolved fuel (Some d) context_id
                      (fun _ _ _ => eq_refl)) Hrun)|].
  split; [apply (keeps_run executed _ _ _ _
                   (ExecuteATenOpBackward_frame executed fuel (Some d) context_id
                      (fun _ _ _ => eq_refl)) Hrun)|].
  split; [apply (keeps_run cout _ _ _ _
                   (ExecuteATenOpBackward_frame cout fuel (Some d) context_id
                      (fun _ _ _ => eq_refl)) Hrun)|].
  revert Hrun. unfold ExecuteATenOpBackward. intros Hrun.
  assert (Hg : forall {A} (m : Exec Heap A), keeps (fun w => graph (torch w)) (on_tensors m)).
  { intros A m w0. unfold on_tensors, on_torch, on_heap.
    destruct (m (heap (torch w0))) as [r0 h0]. reflexivity. }
  eapply (keeps_run (fun w => graph (torch w))); [|exact Hrun].
  apply keeps_bind; [apply Pop_frame; reflexivity|]. intros c.
  apply keeps_bind; [apply keeps_pure|]. intros d'.
  apply keeps_bind; [apply Hg|]. intros t.
  apply keeps_bind; [apply keeps_get_state|]. intros w0.
  apply keeps_bind; [apply Hg|]. intros _. apply Hg.
Qed.


End BackwardCall.

Lemma ExecuteATenOpBackward_result_witness :
  let fw := @ExecuteATenOperator Examples.sample_dlpack 10 "sample::add_add" EmptyString
              [Some (Examples.tensor_dlpack 3 1); Some (Examples.tensor_dlpack 4 2)]
              [0; 1] true Examples.sample_world in
  let bw := @ExecuteATenOpBackward Examples.sample_dlpack 10
              (Some (Examples.tensor_dlpack 5 3)) 0 (snd fw) in
  exists ds, fst bw = Ok ds /\ length ds = 2%nat /\
    autograd_contexts_ (snd bw) = delete 0 (autograd_contexts_ (snd fw)) /\
    executed (snd bw) = executed (snd fw).
Proof.
  intros fw bw.
  assert (Hbw : exists ds, bw = (Ok ds, snd bw)).
  { eexists. apply pair_of_fst. vm_compute. reflexivity. }
  destruct Hbw as [ds Hbw]. exists ds. split; [rewrite Hbw; reflexivity|].
  destruct (@ExecuteATenOpBackward_result Examples.sample_dlpack 10
              (Some (Examples.tensor_dlpack 5 3)) 0 (snd fw) (snd bw) ds Hbw)
    as [[ctx [Hc [_ [Hl _]]]] [_ [Hdel [_ [_ [_ [Hx _]]]]]]].
  split; [|split; [exact Hdel | exact Hx]].
  rewrite Hl. assert (Hc' : autograd_contexts_ (snd fw) !! 0 =
    Some {| output_grad_fn := Some 1%positive;
            input_grad_fns := [Some 3%positive; Some 4%positive] |})
    by (vm_compute; reflexivity).
  rewrite Hc' in Hc. injection Hc as <-. reflexivity.
Defined.


(** ** More on the reduction kernels *)

Section ReductionKernels.
Import Rocm.

(** X16. No two reduction kernels are configured alike: the kernel
    object together with the index mode and the reduce op handed to
    [ComputeImpl] tells the twelve classes apart.  The kernels that
    refuse several axes are ArgMax and ArgMin, which are also the ones
    that ask for flattened indices.  A kernel sets at most one of the
    four flags, and only a kernel that reduces with ADD sets any. *)
Theorem reduction_kernels_distinct :
  (forall k k', ComputeInternal k = ComputeInternal k' -> k = k') /\
  (forall k, allow_multi_axes (construct k) = false <-> (k = ArgMax \/ k = ArgMin)) /\
  (forall k, allow_multi_axes (construct k) = false <->
     ReduceTensorIndices (ComputeInternal k) = MIOPEN_REDUCE_TENSOR_FLATTENED_INDICES) /\
  (forall k,
     let flags := [calculate_log_ (construct k); calculate_sqt_ (construct k);
                   log_sum_exp_ (construct k); fast_reduction_ (construct k)] in
     (length (List.filter (fun b : bool => b) flags) <= 1)%nat /\
     (In true flags -> miopen_reduce_op (ComputeInternal k) = MIOPEN_REDUCE_TENSOR_ADD)).
Proof.
  split; [|split; [|split]].
  - intros k k'. destruct k, k'; intros E; try reflexivity; cbv in E; discriminate E.
  - intros k. destruct k; cbn; split; intros; try discriminate; auto;
      match goal with H : _ \/ _ |- _ => destruct H; discriminate end.
  - intros k. destruct k; cbv; split; congruence.
  - intros k flags. subst flags. destruct k; cbn; split; try lia; try reflexivity;
      intros Hin; repeat (destruct Hin as [Hin|Hin]; try discriminate); contradiction.
Qed.

End ReductionKernels.

(** ** Every input gets a tensor of its own *)

Section FreshInputs.
Context `{ATenDLPack}.

Lemma ToIValueArgument_next (self : ATenOperator) (dlpack : DLManagedTensor)
    (index : nat) (h h' : Heap) (v : IValue) :
  ToIValueArgument self (Some dlpack) index h = (Ok v, h') ->
  (next h <= next h')%positive /\
  (forall t, v = IVTensor t -> t = next h /\ next h' = Pos.succ (next h)).
Proof.
  unfold ToIValueArgument, exec_bind, lift_res, at_.
  destruct (index <? argument_size self)%nat; cbn [TORCH_INTERNAL_ASSERT]; [|discriminate].
  destruct (is_optional_arguments self !! index) as [is_optional|]; [|discriminate].
  rewrite (bool_decide_eq_true_2 (Some dlpack <> None)) by discriminate.
  cbn [orb TORCH_INTERNAL_ASSERT].
  destruct (is_list_arguments self !! index) as [is_list|]; [|discriminate].
  destruct (elem_kinds self !! index) as [k|]; [|discriminate].
  destruct k; try discriminate.
  - cbn. intros [= <- <-]. cbn. split; [lia|].
    intros t Ht. destruct is_optional; cbn in Ht; injection Ht as <-; auto.
  - destruct (dtype_is dlpack kDLInt 64); cbn [TORCH_INTERNAL_ASSERT]; [|discriminate].
    intros [= E <-]. split; [lia|]. intros t ->.
    destruct is_list; [apply ToListIValue_tag in E | apply ToIValue_tag in E];
      destruct E as [x E]; discriminate.
  - destruct (dtype_is dlpack kDLFloat 32); cbn [TORCH_INTERNAL_ASSERT]; [|discriminate].
    intros [= E <-]. split; [lia|]. intros t ->.
    destruct is_list; [apply ToListIValue_tag in E | apply ToIValue_tag in E];
      destruct E as [x E]; discriminate.
  - destruct (dtype_is dlpack kDLInt 64).
    + intros [= E <-]. split; [lia|]. intros t ->.
      apply Int64ToBoolIValue_tag in E. discriminate.
    + destruct (dtype_is dlpack kDLUInt 8); cbn [TORCH_INTERNAL_ASSERT]; [|discriminate].
      intros [= E <-]. split; [lia|]. intros t ->.
      destruct is_list; [apply ToListIValue_tag in E | apply ToIValue_tag in E];
        destruct E as [x E]; discriminate.
Qed.

Lemma ToIValueArgument_null_next (self : ATenOperator) (index : nat) (h h' : Heap)
    (r : Res IValue) :
  ToIValueArgument self None index h = (r, h') -> h' = h.
Proof.
  unfold ToIValueArgument, exec_bind, lift_res, at_.
  destruct (index <? argument_size self)%nat; cbn [TORCH_INTERNAL_ASSERT];
    [|intros [= _ <-]; reflexivity].
  destruct (is_optional_arguments self !! index) as [is_optional|];
    [|intros [= _ <-]; reflexivity].
  rewrite (bool_decide_eq_false_2 (None <> None)) by (intros Hn; apply Hn; reflexivity).
  cbn [orb]. destruct is_optional; cbn; [intros [= _ <-]; reflexivity|].
  destruct (default_values self !! index) as [[d|]|]; cbn; intros [= _ <-]; reflexivity.
Qed.

Lemma convert_arguments_fresh (aten_op : ATenOperator)
    (dlpacks : list (option DLManagedTensor)) :
  forall i arguments h arguments' h',
    convert_arguments aten_op dlpacks i arguments h = (Ok arguments', h') ->
    (next h <= next h')%positive /\
    exists new, arguments' = arguments ++ new /\
      forall p dl t, dlpacks !! p = Some (Some dl) -> new !! p = Some (IVTensor t) ->
        (next h <= t < next h')%positive /\
        forall q dl' t', (p < q)%nat -> dlpacks !! q = Some (Some dl') ->
          new !! q = Some (IVTensor t') -> (t < t')%positive.
Proof.
  induction dlpacks as [|dlpack dlpacks IH]; intros i arguments h arguments' h'.
  - cbn. intros [= <- <-]. split; [lia|]. exists []. rewrite app_nil_r.
    split; [reflexivity|]. intros p dl t Hp. rewrite lookup_nil in Hp. discriminate.
  - cbn [convert_arguments]. unfold exec_bind at 1.
    destruct (ToIValueArgument aten_op dlpack i h) as [[v|e] h1] eqn:Hv; [|discriminate].
    intros Hrun. apply IH in Hrun as [Hle [new [-> Hnew]]].
    assert (Hstep : (next h <= next h1)%positive /\
              forall dl t, dlpack = Some dl -> v = IVTensor t ->
                t = next h /\ next h1 = Pos.succ (next h)).
    { destruct dlpack as [dl|].
      - apply ToIValueArgument_next in Hv as [H1 H2]. split; [exact H1|].
        intros dl' t [= <-] Ht. apply H2. exact Ht.
      - apply ToIValueArgument_null_next in Hv as ->. split; [lia|]. discriminate. }
    destruct Hstep as [Hle1 Hfirst].
    split; [lia|]. exists (v :: new). split; [rewrite <- app_assoc; reflexivity|].
    intros p dl t Hp Ht. destruct p as [|p].
    + cbn in Hp, Ht. injection Hp as ->. injection Ht as ->.
      destruct (Hfirst dl t eq_refl eq_refl) as [-> Hs]. split; [lia|].
      intros q dl' t' Hq Hdq Htq. destruct q as [|q]; [lia|]. cbn in Hdq, Htq.
      destruct (Hnew q dl' t' Hdq Htq) as [Hr _]. lia.
    + cbn in Hp, Ht. destruct (Hnew p dl t Hp Ht) as [Hr Hlater]. split; [lia|].
      intros q dl' t' Hq Hdq Htq. destruct q as [|q]; [lia|]. cbn in Hdq, Htq.
      apply (Hlater q dl' t'); [lia | exact Hdq | exact Htq].
Qed.

(** X17. Every input that is passed gets a tensor of its own.  When the
    first [k] [dlpacks] are not null, the conversion gives each of them
    a tensor that did not exist before, no two of them the same, also
    when the same buffer is passed twice; the marking loop that follows
    makes each of them require grad and maps the address of its grad to
    its own index. *)
Theorem marked_inputs_keyed (aten_op : ATenOperator)
    (dlpacks : list (option DLManagedTensor)) (k : nat) (h h1 h2 : Heap)
    (arguments : list IValue) (grad_ptr_to_indices : gmap positive nat) :
  convert_arguments aten_op dlpacks 0 [] h = (Ok arguments, h1) ->
  mark_inputs aten_op arguments 0 k ∅ h1 = (Ok grad_ptr_to_indices, h2) ->
  (forall i, (i < k)%nat -> exists dl, dlpacks !! i = Some (Some dl)) ->
  forall i, (i < k)%nat ->
    exists t, arguments !! i = Some (IVTensor t) /\
      (next h <= t < next h1)%positive /\
      requires_grad (cell h2 t) = true /\
      grad_ptr_to_indices !! grad_address t = Some i /\
      forall j t', (j < k)%nat -> j <> i -> arguments !! j = Some (IVTensor t') -> t' <> t.
Proof.
  intros Hconv Hmark Hpassed i Hi.
  apply convert_arguments_fresh in Hconv as [_ [new [Hargs Hnew]]].
  cbn in Hargs. subst new.
  apply mark_inputs_marks in Hmark as [_ [_ [_ [Hm _]]]].
  destruct (Hm i) as [t [Ha [Hr [j [Hj [Hb Ha']]]]]]; [lia|].
  destruct (Hpassed i Hi) as [dl Hdl].
  destruct (Hnew i dl t Hdl Ha) as [Hrange Hlater].
  assert (Hdistinct : forall j t', (j < k)%nat -> j <> i ->
            arguments !! j = Some (IVTensor t') -> t' <> t).
  { intros j0 t' Hj0 Hne Ha0 ->.
    destruct (Hpassed j0 Hj0) as [dl0 Hdl0].
    destruct (Nat.lt_total i j0) as [Hlt|[Heq|Hgt]]; [| congruence |].
    - pose proof (Hlater j0 dl0 t Hlt Hdl0 Ha0). lia.
    - destruct (Hnew j0 dl0 t Hdl0 Ha0) as [_ Hl0].
      pose proof (Hl0 i dl t Hgt Hdl Ha). lia. }
  exists t. split; [exact Ha|]. split; [exact Hrange|]. split; [exact Hr|].
  split; [|exact Hdistinct].
  unfold grad_address. destruct (decide (j = i)) as [->|Hne]; [exact Hj|].
  exfalso. apply (Hdistinct j t); [lia | exact Hne | exact Ha' | reflexivity].
Qed.

End FreshInputs.

Lemma marked_inputs_keyed_witness :
  let aten_op := spec_aten_op Examples.add_add_operator in
  let same := Some (Examples.tensor_dlpack 3 1) in
  let c := @convert_arguments Examples.sample_dlpack aten_op [same; same] 0 []
             Examples.empty_heap in
  let m := mark_inputs aten_op [IVTensor 1%positive; IVTensor 2%positive] 0 2 ∅ (snd c) in
  fst c = Ok [IVTensor 1%positive; IVTensor 2%positive] /\
  exists idx, fst m = Ok idx /\ idx !! 1%positive = Some 0%nat /\ idx !! 2%positive = Some 1%nat.
Proof.
  intros aten_op same c m.
  assert (Hc : c = (Ok [IVTensor 1%positive; IVTensor 2%positive], snd c))
    by (apply pair_of_fst; vm_compute; reflexivity).
  assert (Hm : exists idx, m = (Ok idx, snd m)).
  { eexists. apply pair_of_fst. vm_compute. reflexivity. }
  destruct Hm as [idx Hm].
  split; [rewrite Hc; reflexivity|]. exists idx. split; [rewrite Hm; reflexivity|].
  assert (Hpassed : forall i, (i < 2)%nat ->
            exists dl, [same; same] !! i = Some (Some dl)).
  { intros [|[|i]] Hi; [eexists; reflexivity | eexists; reflexivity | lia]. }
  pose proof (@marked_inputs_keyed Examples.sample_dlpack aten_op [same; same] 2
                Examples.empty_heap (snd c) (snd m) _ idx Hc Hm Hpassed) as T.
  split.
  - destruct (T 0%nat) as [t [Ha [_ [_ [Hk _]]]]]; [lia|].
    cbn in Ha. injection Ha as <-. exact Hk.
  - destruct (T 1%nat) as [t [Ha [_ [_ [Hk _]]]]]; [lia|].
    cbn in Ha. injection Ha as <-. exact Hk.
Defined.

(** ** The returns of an operation *)

Section Returns.
Context `{ATenDLPack}.





End Returns.

(** ** Lookups of different operators *)

Lemma GetOperator_fst (op_name overload_name : string) (w : World) :
  fst (GetOperator op_name overload_name w) =
  match ops_ w !! (op_name, overload_name) with
  | Some a => Ok a
  | None =>
      match registry w (op_name, overload_name) with
      | None => Err InternalAssert
      | Some o => make_aten_op o
      end
  end.
Proof.
  destruct (ops_ w !! (op_name, overload_name)) as [a0|] eqn:Ek.
  - rewrite (GetOperator_hit _ _ _ _ Ek). reflexivity.
  - rewrite (GetOperator_miss _ _ _ Ek). cbn zeta.
    destruct (registry w (op_name, overload_name)) as [o|]; [|reflexivity].
    destruct (make_aten_op o); reflexivity.
Qed.

Lemma GetOperator_ops (op_name overload_name : string) (w : World) :
  ops_ (snd (GetOperator op_name overload_name w)) =
  match ops_ w !! (op_name, overload_name), registry w (op_name, overload_name) with
  | None, Some o =>
      match make_aten_op o with
      | Ok a => <[(op_name, overload_name) := a]> (ops_ w)
      | Err _ => ops_ w
      end
  | _, _ => ops_ w
  end.
Proof.
  destruct (ops_ w !! (op_name, overload_name)) as [a0|] eqn:Ek.
  - rewrite (GetOperator_hit _ _ _ _ Ek). reflexivity.
  - rewrite (GetOperator_miss _ _ _ Ek). cbn zeta.
    destruct (registry w (op_name, overload_name)) as [o|]; [|reflexivity].
    destruct (make_aten_op o); reflexivity.
Qed.

(** X19. Lookups of two different pairs do not interfere: what
    [GetOperator] returns for one pair is the same before and after a
    lookup of the other, and the cache after the two lookups is the
    same in either order. *)
Theorem GetOperator_independent (name1 overload1 name2 overload2 : string) (w : World) :
  (name1, overload1) <> (name2, overload2) ->
  let first1 := snd (GetOperator name1 overload1 w) in
  let first2 := snd (GetOperator name2 overload2 w) in
  fst (GetOperator name2 overload2 first1) = fst (GetOperator name2 overload2 w) /\
  fst (GetOperator name1 overload1 first2) = fst (GetOperator name1 overload1 w) /\
  ops_ (snd (GetOperator name2 overload2 first1)) =
  ops_ (snd (GetOperator name1 overload1 first2)).
Proof.
  intros Hne first1 first2.
  assert (Hr1 : registry first1 = registry w)
    by (apply (GetOperator_frame registry); reflexivity).
  assert (Hr2 : registry first2 = registry w)
    by (apply (GetOperator_frame registry); reflexivity).
  rewrite !GetOperator_fst, !GetOperator_ops, Hr1, Hr2.
  subst first1 first2. rewrite !GetOperator_ops.
  destruct (ops_ w !! (name1, overload1)) as [a1|] eqn:E1;
    destruct (ops_ w !! (name2, overload2)) as [a2|] eqn:E2;
    destruct (registry w (name1, overload1)) as [o1|];
    destruct (registry w (name2, overload2)) as [o2|];
    try destruct (make_aten_op o1) as [b1|?];
    try destruct (make_aten_op o2) as [b2|?];
    rewrite ?E1, ?E2, ?lookup_insert_ne by congruence;
    rewrite ?E1, ?E2;
    repeat split; try reflexivity.
  apply insert_insert_ne. congruence.
Qed.

Lemma GetOperator_independent_witness :
  let w1 := snd (GetOperator "sample::add_add" EmptyString Examples.sample_world) in
  fst (GetOperator "aten::sample" EmptyString w1)
    = fst (GetOperator "aten::sample" EmptyString Examples.sample_world).
Proof.
  intros w1.
  destruct (GetOperator_independent "sample::add_add" EmptyString "aten::sample" EmptyString
              Examples.sample_world) as [Hsame _].
  - discriminate.
  - exact Hsame.
Defined.

Section Agreement.
Context `{ATenDLPack}.

(** X20. [IsTensorArgument] and [ToIValueArgument] agree.  On a sound
    cache, for a supported operator of the registry, when
    [IsTensorArgument] answers for an index, every conversion of a
    buffer for the argument of that index by the cached entry gives a
    tensor if the answer is yes, and never gives one if it is no. *)
Theorem IsTensorArgument_agrees (op_name overload_name : string) (index : nat)
    (w : World) (o : Operator) (b : bool) :
  cache_sound w ->
  registry w (op_name, overload_name) = Some o ->
  supported o ->
  fst (IsTensorArgument op_name overload_name index w) = Ok b ->
  ops_ (snd (IsTensorArgument op_name overload_name index w)) !! (op_name, overload_name)
    = Some (spec_aten_op o) /\
  forall dlpack h v h',
    ToIValueArgument (spec_aten_op o) (Some dlpack) index h = (Ok v, h') ->
    (b = true <-> exists t, v = IVTensor t).
Proof.
  intros Hs Ho Hsup.
  destruct (GetOperator_sound_run op_name overload_name w o Hs Ho Hsup) as [w1 [Hrun Hc]].
  unfold IsTensorArgument.
  rewrite (bind_ok _ _ _ _ _ Hrun). unfold exec_bind, lift_res, at_.
  destruct (index <? argument_size (spec_aten_op o))%nat; cbn [TORCH_INTERNAL_ASSERT];
    [|discriminate].
  destruct (elem_kinds (spec_aten_op o) !! index) as [k|] eqn:Ek; [|discriminate].
  cbn [pure fst snd]. intros [= <-]. split; [exact Hc|].
  intros dlpack h v h' Hconv.
  apply ToIValueArgument_ok in Hconv as [_ [k' [l [Hk' [_ Hcase]]]]].
  rewrite Ek in Hk'. injection Hk' as <-.
  destruct k; try contradiction.
  - destruct Hcase as [-> _]. split; [eauto | reflexivity].
  - destruct Hcase as [Htag _]. split; [discriminate|].
    intros [t ->]. discriminate.
  - destruct Hcase as [Htag _]. split; [discriminate|].
    intros [t ->]. discriminate.
  - destruct Hcase as [Htag _]. split; [discriminate|].
    intros [t ->]. discriminate.
Qed.

End Agreement.

Lemma IsTensorArgument_agrees_witness :
  fst (@IsTensorArgument "aten::sample" EmptyString 0 Examples.sample_world) = Ok true /\
  exists t,
    fst (@ToIValueArgument Examples.sample_dlpack (spec_aten_op Examples.sample_operator)
           (Some (Examples.tensor_dlpack 3 1)) 0 Examples.empty_heap) = Ok (IVTensor t).
Proof.
  assert (Hb : fst (@IsTensorArgument "aten::sample" EmptyString 0 Examples.sample_world)
               = Ok true) by (vm_compute; reflexivity).
  split; [exact Hb|].
  destruct (@IsTensorArgument_agrees Examples.sample_dlpack "aten::sample" EmptyString 0
              Examples.sample_world Examples.sample_operator true
              (cache_sound_empty Examples.sample_world eq_refl) eq_refl
              sample_operator_supported Hb) as [_ Hagree].
  destruct (@ToIValueArgument Examples.sample_dlpack (spec_aten_op Examples.sample_operator)
              (Some (Examples.tensor_dlpack 3 1)) 0 Examples.empty_heap) as [[v|e] h'] eqn:E;
    [|vm_compute in E; discriminate E].
  destruct (proj1 (Hagree _ _ _ _ E) eq_refl) as [t ->].
  exists t. reflexivity.
Defined.

(** ** The forward walk checks the graph for the backward walk *)

Section WalkValidates.
Variable g : NodeId -> Node.

Lemma visit_edge_checks (idx : gmap positive nat) (edge : Edge)
    (st st' : list (option NodeId) * list (option NodeId)) :
  visit_edge g idx edge st = Ok st' ->
  exists f, function edge = Some f /\
    (String.eqb (name (g f)) AccumulateGrad_name = true -> variable (g f) <> None).
Proof.
  unfold visit_edge. destruct st as [q fns].
  destruct (function edge) as [f|]; [|discriminate].
  intros Hrun. exists f. split; [reflexivity|]. intros Hname. rewrite Hname in Hrun.
  destruct (variable (g f)); [discriminate | discriminate Hrun].
Qed.

Lemma visit_edges_checks (idx : gmap positive nat) (edges : list Edge) :
  forall st st',
    visit_edges g idx edges st = Ok st' ->
    forall edge, edge ∈ edges ->
      exists f, function edge = Some f /\
        (String.eqb (name (g f)) AccumulateGrad_name = true -> variable (g f) <> None).
Proof.
  induction edges as [|edge0 edges IH]; intros st st' Hrun edge Hin; [inversion Hin|].
  cbn [visit_edges] in Hrun.
  destruct (visit_edge g idx edge0 st) as [st1|e] eqn:E1; [|discriminate].
  cbn [res_bind] in Hrun. apply elem_of_cons in Hin as [->|Hin].
  - eapply visit_edge_checks. exact E1.
  - eapply IH; eassumption.
Qed.

Lemma find_input_grad_fns_checks (idx : gmap positive nat) (fuel : nat) :
  forall q fns fns',
    find_input_grad_fns fuel g idx q fns = Ok fns' ->
    forall x, x ∈ q -> exists n, x = Some n /\ valid_from g n.
Proof.
  induction fuel as [|fuel IH]; intros q fns fns' Hrun x Hx.
  - destruct q; [inversion Hx | discriminate].
  - destruct q as [|[n|] q]; [inversion Hx| |discriminate].
    cbn [find_input_grad_fns] in Hrun.
    destruct (visit_edges g idx (next_edges (g n)) (q, fns)) as [[q1 fns1]|e] eqn:E1;
      [|discriminate].
    cbn [res_bind fst snd] in Hrun.
    pose proof (visit_edges_checks _ _ _ _ E1) as Hedges.
    apply visit_edges_sound in E1 as [-> _].
    pose proof (IH _ _ _ Hrun) as Hrest.
    apply elem_of_cons in Hx as [->|Hx].
    + exists n. split; [reflexivity|]. intros m Hm.
      inversion Hm as [|? edge f ? Hin Hp Hd]; subst.
      * intros edge Hin. apply Hedges. exact Hin.
      * destruct (Hrest (Some f)) as [f' [[= <-] Hf]].
        { apply elem_of_app. right. apply pushed_entries_elem. exists edge, f. auto. }
        apply Hf. exact Hd.
    + apply Hrest. apply elem_of_app. left. exact Hx.
Qed.

Lemma deliver_checked (edge : Edge) (gradient : positive)
    (q : list (option NodeId * positive)) (s : gset positive) (h : Heap) :
  (exists f, function edge = Some f /\
     (String.eqb (name (g f)) AccumulateGrad_name = true -> variable (g f) <> None)) ->
  match deliver g edge gradient (q, s) h with
  | (Ok (q', _), _) => map fst q' = map fst q ++ pushed_entries g [edge]
  | (Err e, _) => e <> NullDereference
  end.
Proof.
  intros [f [Hf Hvar]]. unfold deliver. rewrite Hf.
  rewrite (pushed_entries_single g edge f Hf).
  destruct (String.eqb (name (g f)) AccumulateGrad_name).
  - destruct (variable (g f)) as [v|]; [|exfalso; apply Hvar; reflexivity].
    unfold exec_bind, note_flow, modify, set_grad, update, read, add_, pure, raise.
    destruct (bool_decide (f ∉ s)); cbn.
    + rewrite app_nil_r. reflexivity.
    + destruct (grad (cell h v)); cbn; [|discriminate].
      rewrite app_nil_r. reflexivity.
  - cbn. rewrite map_app. reflexivity.
Qed.

Lemma deliver_all_checked (edges : list Edge) :
  forall gradients q s (h : Heap),
    (forall edge, edge ∈ edges ->
       exists f, function edge = Some f /\
         (String.eqb (name (g f)) AccumulateGrad_name = true -> variable (g f) <> None)) ->
    match deliver_all g edges gradients (q, s) h with
    | (Ok (q', _), _) => map fst q' = map fst q ++ pushed_entries g edges
    | (Err e, _) => e <> NullDereference
    end.
Proof.
  induction edges as [|edge edges IH]; intros gradients q s h Hall.
  - cbn. rewrite app_nil_r. reflexivity.
  - cbn [deliver_all]. destruct gradients as [|gradient gradients]; [discriminate|].
    unfold exec_bind.
    pose proof (deliver_checked edge gradient q s h (Hall edge (list_elem_of_here _ _))) as H1.
    destruct (deliver g edge gradient (q, s) h) as [[[q1 s1]|e] h1]; [|exact H1].
    assert (Hrest : forall edge0, edge0 ∈ edges ->
       exists f, function edge0 = Some f /\
         (String.eqb (name (g f)) AccumulateGrad_name = true -> variable (g f) <> None)).
    { intros edge0 Hin. apply Hall. right. exact Hin. }
    specialize (IH gradients q1 s1 h1 Hrest).
    destruct (deliver_all g edges gradients (q1, s1) h1) as [[[q2 s2]|e] h2];
      [|exact IH].
    rewrite IH, H1, <- app_assoc. f_equal.
    unfold pushed_entries. cbn. destruct (pushes g edge); reflexivity.
Qed.

Lemma propagate_checked (fuel : nat) :
  (forall n grads (h : Heap), fst (apply (g n) grads h) <> Err NullDereference) ->
  forall q s (h : Heap),
    (forall x, x ∈ map fst q -> exists n, x = Some n /\ valid_from g n) ->
    fst (propagate fuel g q s h) <> Err NullDereference.
Proof.
  intros Hclean. induction fuel as [|fuel IH]; intros q s h Hq.
  - destruct q; cbn; discriminate.
  - destruct q as [|[x t] q]; [cbn; discriminate|].
    destruct (Hq x) as [n [-> Hn]]; [left|].
    cbn [propagate fst snd]. unfold exec_bind at 1.
    pose proof (Hclean n [t] h) as Hc.
    destruct (apply (g n) [t] h) as [[gradients|e] h1]; cbn [fst] in *;
      [|intros [= ->]; apply Hc; reflexivity].
    unfold exec_bind at 1. unfold lift_res.
    destruct (length gradients =? length (next_edges (g n)))%nat; cbn; [|discriminate].
    unfold exec_bind.
    assert (Hedges : forall edge, edge ∈ next_edges (g n) ->
       exists f, function edge = Some f /\
         (String.eqb (name (g f)) AccumulateGrad_name = true -> variable (g f) <> None)).
    { intros edge Hin. apply (Hn n (descends_refl g n)). exact Hin. }
    pose proof (deliver_all_checked (next_edges (g n)) gradients q s h1 Hedges) as Hd.
    destruct (deliver_all g (next_edges (g n)) gradients (q, s) h1)
      as [[[q' s']|e] h2]; cbn [fst snd]; [|intros [= ->]; apply Hd; reflexivity].
    apply IH. intros y Hy. rewrite Hd in Hy. apply elem_of_app in Hy as [Hy|Hy].
    + apply Hq. right. exact Hy.
    + apply pushed_entries_elem in Hy as [edge [f [Hin [Hp ->]]]].
      exists f. split; [reflexivity|]. intros m Hm. apply Hn.
      eapply descends_step; eassumption.
Qed.

(** X21. A forward walk that ends has checked the graph: every node it
    can push from the output's grad_fn has only valid edges (no null
    function), and every node behind such an edge that goes by the name
    of [AccumulateGrad] is one.  So the gradient walk over the same
    graph, which makes the same unchecked calls, meets no null node or
    edge, as long as no node does so when it is applied. *)
Theorem forward_walk_validates (fuel fuel' : nat) (idx : gmap positive nat)
    (output_grad_fn : option NodeId) (input_grad_fns fns : list (option NodeId)) :
  find_input_grad_fns fuel g idx [output_grad_fn] input_grad_fns = Ok fns ->
  exists n, output_grad_fn = Some n /\
    valid_from g n /\
    ((forall m grads (h : Heap), fst (apply (g m) grads h) <> Err NullDereference) ->
     forall gradient (h : Heap),
       fst (propagate fuel' g [(output_grad_fn, gradient)] ∅ h) <> Err NullDereference).
Proof.
  intros Hrun.
  destruct (find_input_grad_fns_checks idx fuel _ _ _ Hrun output_grad_fn)
    as [n [-> Hn]]; [left|].
  exists n. split; [reflexivity|]. split; [exact Hn|].
  intros Hclean gradient h. apply propagate_checked; [exact Hclean|].
  intros x Hx. cbn in Hx. apply list_elem_of_singleton in Hx as ->. eauto.
Qed.

End WalkValidates.

Lemma forward_walk_validates_witness :
  let g := Examples.add_add_graph Examples.marked_heap 1 2 in
  let idx : gmap positive nat := <[2%positive := 1%nat]> (<[1%positive := 0%nat]> ∅) in
  valid_from g 1 /\
  fst (propagate 3 g [(Some 1%positive, 3%positive)] ∅
         Examples.marked_heap) <> Err NullDereference.
Proof.
  intros g idx.
  assert (Hrun : find_input_grad_fns 3 g idx [Some 1%positive] [None; None]
                 = Ok [Some 3%positive; Some 4%positive]) by (vm_compute; reflexivity).
  destruct (forward_walk_validates g 3 3 idx _ _ _ Hrun)
    as [n [[= <-] [Hvalid Hback]]].
  split; [exact Hvalid|]. apply Hback.
  intros m grads h.
  destruct (graph_of_cases
              [(1%positive, Examples.AddBackward0
                              [mkEdge (Some 2%positive) 0;
                               Examples.gradient_edge Examples.marked_heap 2 4]);
               (2%positive, Examples.AddBackward0
                              [Examples.gradient_edge Examples.marked_heap 1 3;
                               Examples.gradient_edge Examples.marked_heap 2 4]);
               (3%positive, Examples.AccumulateGrad 1);
               (4%positive, Examples.AccumulateGrad 2)] m) as [Hleaf|Hin].
  - unfold g, Examples.add_add_graph. rewrite Hleaf. discriminate.
  - cbn in Hin. destruct Hin as [<-|[<-|[<-|[<-|[]]]]]; discriminate.
Defined.

(** ** Gradients that are not shared add up *)

Lemma foldr_add_snoc (l : list Z) (x : Z) :
  foldr Z.add 0 (l ++ [x]) = foldr Z.add 0 l + x.
Proof. induction l as [|y l IH]; cbn; [lia | rewrite IH; lia]. Qed.

Lemma flowed_into_snoc (h h' : Heap) (f f' : positive) (p : Z) :
  flowed h' = flowed h ++ [(f', p)] ->
  flowed_into f h' = flowed_into f h + (if Pos.eqb f' f then p else 0).
Proof.
  intros E. unfold flowed_into. rewrite E, omap_app.
  assert (Hone : omap (fun x : positive * Z =>
                         if Pos.eqb (fst x) f then Some (snd x) else None) [(f', p)]
                 = if Pos.eqb f' f then [p] else []).
  { cbn. destruct (Pos.eqb f' f); reflexivity. }
  rewrite Hone.
  destruct (Pos.eqb f' f); [apply foldr_add_snoc | rewrite app_nil_r; lia].
Qed.

Lemma flowed_into_same (h h' : Heap) (f : positive) :
  flowed h' = flowed h -> flowed_into f h' = flowed_into f h.
Proof. intros E. unfold flowed_into. rewrite E. reflexivity. Qed.

Lemma not_received_zero (h : Heap) (f : positive) :
  ~ received f h -> flowed_into f h = 0.
Proof.
  unfold received, flowed_into. induction (flowed h) as [|[f' p] l IH]; intros Hn;
    [reflexivity|].
  cbn. destruct (Pos.eqb_spec f' f) as [->|Hne].
  - exfalso. apply Hn. exists p. left.
  - cbn. apply IH. intros [p' Hin]. apply Hn. exists p'. right. exact Hin.
Qed.

Lemma received_snoc (h h' : Heap) (f f' : positive) (p : Z) :
  flowed h' = flowed h ++ [(f', p)] ->
  (received f h' <-> received f h \/ f = f').
Proof.
  intros E. unfold received. rewrite E. split.
  - intros [p' Hin]. apply elem_of_app in Hin as [Hin|Hin]; [left; eauto|].
    apply list_elem_of_singleton in Hin. injection Hin as -> _. right. reflexivity.
  - intros [[p' Hin]| ->].
    + exists p'. apply elem_of_app. left. exact Hin.
    + exists p. apply elem_of_app. right. left.
Qed.

Section SumsWithoutSharing.
Variable g : NodeId -> Node.

Local Abbreviation unused := (unused g).

Lemma deliver_sums (edge : Edge) (gradient : positive)
    (q q' : list (option NodeId * positive)) (s s' : gset positive) (h h' : Heap) :
  sums_kept g s h -> accumulators_apart g h ->
  unused s h gradient -> (gradient < next h)%positive ->
  deliver g edge gradient (q, s) h = (Ok (q', s'), h') ->
  sums_kept g s' h' /\ next h' = next h /\
  (forall t, t <> gradient -> unused s h t -> unused s' h' t).
Proof.
  intros [Hrec [Hsum Hapart]] Hacc Hun Hlt. unfold deliver.
  destruct (function edge) as [f|]; [|discriminate].
  destruct (String.eqb (name (g f)) AccumulateGrad_name) eqn:Hname.
  2:{ intros [= _ <- <-]. split; [exact (conj Hrec (conj Hsum Hapart))|].
      split; [reflexivity|]. auto. }
  destruct (variable (g f)) as [v|] eqn:Hv; [|discriminate].
  destruct (Hacc f v Hname Hv) as [Hvlt Hvinj].
  unfold exec_bind at 1. cbn [note_flow modify].
  destruct (decide (f ∈ s)) as [Hin|Hnew].
  - (* a later gradient *)
    rewrite bool_decide_eq_false_2 by (intros Hn; apply Hn; exact Hin).
    destruct (Hsum f Hin) as [_ [v0 [gt [Hv0 [Hgt [Hgtlt Hpay]]]]]].
    rewrite Hv in Hv0. injection Hv0 as <-.
    unfold exec_bind, read, add_, update, modify. cbn [cell]. rewrite Hgt.
    intros [= <- <- E]. cbn [cell next flowed] in E.
    assert (Hfl : flowed h' = flowed h ++ [(f, payload (cell h gradient))])
      by (rewrite <- E; reflexivity).
    assert (Hnx : next h' = next h) by (rewrite <- E; reflexivity).
    assert (Hgrad : forall t, grad (cell h' t) = grad (cell h t)).
    { intros t. rewrite <- E. cbn [cell]. destruct (decide (t = gt)) as [->|Hne];
        [rewrite fn_lookup_insert | rewrite fn_lookup_insert_ne by congruence];
        reflexivity. }
    assert (Hpself : payload (cell h' gt) = payload (cell h gt) + payload (cell h gradient)).
    { rewrite <- E. cbn [cell]. rewrite fn_lookup_insert. reflexivity. }
    assert (Hpother : forall t, t <> gt -> payload (cell h' t) = payload (cell h t)).
    { intros t Hne. rewrite <- E. cbn [cell].
      rewrite fn_lookup_insert_ne by congruence. reflexivity. }
    clear E.
    split; [|split; [exact Hnx|]].
    + split; [|split].
      * intros f0. rewrite (received_snoc h h' f0 f _ Hfl). rewrite <- Hrec.
        split; [auto | intros [H0| ->]; assumption].
      * intros f0 Hf0. destruct (Hsum f0 Hf0) as [Hn0 [v0 [gt0 [Hv0 [Hgt0 [Hlt0 Hpay0]]]]]].
        split; [exact Hn0|]. exists v0, gt0. split; [exact Hv0|].
        rewrite Hgrad. split; [exact Hgt0|]. split; [rewrite Hnx; exact Hlt0|].
        rewrite (flowed_into_snoc h h' f0 f _ Hfl).
        destruct (decide (f0 = f)) as [->|Hne].
        -- rewrite Hv in Hv0. injection Hv0 as <-. rewrite Hgt in Hgt0.
           injection Hgt0 as <-. rewrite Hpself, Pos.eqb_refl, Hpay. reflexivity.
        -- assert (Hgne : gt0 <> gt).
           { intros ->. apply Hne. exact (Hapart f0 f v0 v gt Hf0 Hin Hv0 Hv Hgt0 Hgt). }
           rewrite (Hpother gt0 Hgne).
           rewrite (proj2 (Pos.eqb_neq f f0)) by congruence. rewrite Hpay0. lia.
      * intros f1 f2 v1 v2 gt0 H1 H2 Hv1 Hv2 Hg1 Hg2.
        rewrite Hgrad in Hg1, Hg2. exact (Hapart f1 f2 v1 v2 gt0 H1 H2 Hv1 Hv2 Hg1 Hg2).
    + intros t Hne Hut f0 v0 Hf0 Hv0. rewrite Hgrad. apply (Hut f0); assumption.
  - (* the first gradient *)
    rewrite bool_decide_eq_true_2 by exact Hnew.
    unfold exec_bind, set_grad, update, modify, pure. cbn [cell next flowed].
    intros [= <- <- E].
    assert (Hfl : flowed h' = flowed h ++ [(f, payload (cell h gradient))])
      by (rewrite <- E; reflexivity).
    assert (Hnx : next h' = next h) by (rewrite <- E; reflexivity).
    assert (Hgrad : forall t, t <> v -> grad (cell h' t) = grad (cell h t)).
    { intros t Hne. rewrite <- E. cbn [cell].
      rewrite fn_lookup_insert_ne by congruence. reflexivity. }
    assert (Hgv : grad (cell h' v) = Some gradient).
    { rewrite <- E. cbn [cell]. rewrite fn_lookup_insert. reflexivity. }
    assert (Hpayload : forall t, payload (cell h' t) = payload (cell h t)).
    { intros t. rewrite <- E. cbn [cell]. destruct (decide (t = v)) as [->|Hne];
        [rewrite fn_lookup_insert | rewrite fn_lookup_insert_ne by congruence];
        reflexivity. }
    clear E.
    assert (Hother : forall f0 v0, f0 ∈ s -> variable (g f0) = Some v0 -> v0 <> v).
    { intros f0 v0 Hf0 Hv0 ->. apply Hnew.
      destruct (Hsum f0 Hf0) as [Hn0 _].
      rewrite <- (Hvinj f0 Hn0 Hv0). exact Hf0. }
    split; [|split; [exact Hnx|]].
    + split; [|split].
      * intros f0. rewrite (received_snoc h h' f0 f _ Hfl). rewrite <- Hrec.
        rewrite elem_of_union, elem_of_singleton. reflexivity.
      * intros f0 Hf0. apply elem_of_union in Hf0 as [Hf0|Hf0].
        -- destruct (Hsum f0 Hf0) as [Hn0 [v0 [gt0 [Hv0 [Hgt0 [Hlt0 Hpay0]]]]]].
           split; [exact Hn0|]. exists v0, gt0. split; [exact Hv0|].
           rewrite Hgrad by exact (Hother f0 v0 Hf0 Hv0).
           split; [exact Hgt0|]. split; [rewrite Hnx; exact Hlt0|].
           rewrite Hpayload, (flowed_into_snoc h h' f0 f _ Hfl).
           assert (f <> f0) by (intros ->; contradiction).
           rewrite (proj2 (Pos.eqb_neq f f0)) by assumption. rewrite Hpay0. lia.
        -- apply elem_of_singleton in Hf0 as ->.
           split; [exact Hname|]. exists v, gradient. split; [exact Hv|].
           split; [exact Hgv|]. split; [rewrite Hnx; exact Hlt|].
           rewrite Hpayload, (flowed_into_snoc h h' f f _ Hfl), Pos.eqb_refl.
           rewrite not_received_zero by (rewrite <- Hrec; exact Hnew). lia.
      * intros f1 f2 v1 v2 gt0 H1 H2 Hv1 Hv2 Hg1 Hg2.
        apply elem_of_union in H1 as [H1|H1]; apply elem_of_union in H2 as [H2|H2].
        -- rewrite Hgrad in Hg1 by exact (Hother f1 v1 H1 Hv1).
           rewrite Hgrad in Hg2 by exact (Hother f2 v2 H2 Hv2).
           exact (Hapart f1 f2 v1 v2 gt0 H1 H2 Hv1 Hv2 Hg1 Hg2).
        -- apply elem_of_singleton in H2 as ->. rewrite Hv in Hv2. injection Hv2 as <-.
           rewrite Hgv in Hg2. injection Hg2 as <-.
           rewrite Hgrad in Hg1 by exact (Hother f1 v1 H1 Hv1).
           exfalso. exact (Hun f1 v1 H1 Hv1 Hg1).
        -- apply elem_of_singleton in H1 as ->. rewrite Hv in Hv1. injection Hv1 as <-.
           rewrite Hgv in Hg1. injection Hg1 as <-.
           rewrite Hgrad in Hg2 by exact (Hother f2 v2 H2 Hv2).
           exfalso. exact (Hun f2 v2 H2 Hv2 Hg2).
        -- apply elem_of_singleton in H1 as ->. apply elem_of_singleton in H2 as ->.
           reflexivity.
    + intros t Hne Hut f0 v0 Hf0 Hv0. apply elem_of_union in Hf0 as [Hf0|Hf0].
      * rewrite Hgrad by exact (Hother f0 v0 Hf0 Hv0). apply (Hut f0); assumption.
      * apply elem_of_singleton in Hf0 as ->. rewrite Hv in Hv0. injection Hv0 as <-.
        rewrite Hgv. congruence.
Qed.

Lemma deliver_all_sums (edges : list Edge) :
  forall gradients q q' s s' (h h' : Heap),
    sums_kept g s h -> accumulators_apart g h ->
    NoDup gradients ->
    Forall (fun t => unused s h t /\ (t < next h)%positive) gradients ->
    deliver_all g edges gradients (q, s) h = (Ok (q', s'), h') ->
    sums_kept g s' h' /\ next h' = next h.
Proof.
  induction edges as [|edge edges IH]; intros gradients q q' s s' h h' Hk Ha Hnd Hall.
  - cbn. intros [= _ <- <-]. auto.
  - cbn [deliver_all]. destruct gradients as [|gradient gradients]; [discriminate|].
    unfold exec_bind at 1.
    destruct (deliver g edge gradient (q, s) h) as [[[q1 s1]|e] h1] eqn:Hd; [|discriminate].
    inversion Hnd as [|? ? Hnotin Hnd']; subst.
    inversion Hall as [|? ? [Hun Hlt] Hall']; subst.
    destruct (deliver_sums _ _ _ _ _ _ _ _ Hk Ha Hun Hlt Hd) as [Hk1 [Hn1 Hun1]].
    intros Hrun. apply IH in Hrun as [Hk2 Hn2].
    + split; [exact Hk2 | congruence].
    + exact Hk1.
    + intros f v Hname Hv. rewrite Hn1. apply Ha; assumption.
    + exact Hnd'.
    + rewrite Forall_forall in Hall' |- *. intros t Ht.
      destruct (Hall' t Ht) as [Hut Htl]. split; [|rewrite Hn1; exact Htl].
      apply Hun1; [|exact Hut]. intros ->. apply Hnotin. apply list_elem_of_In. exact Ht.
Qed.

Hypothesis Hfresh : fresh_gradients g.

Lemma apply_sums (n : positive) (grads outs : list positive) (s : gset positive)
    (h h1 : Heap) :
  sums_kept g s h -> accumulators_apart g h ->
  apply (g n) grads h = (Ok outs, h1) ->
  sums_kept g s h1 /\ accumulators_apart g h1 /\ NoDup outs /\
  Forall (fun t => unused s h1 t /\ (t < next h1)%positive) outs.
Proof.
  intros [Hrec [Hsum Hapart]] Hacc Hrun.
  destruct (Hfresh _ _ _ _ _ Hrun) as [Hle [Hfl [Hcells [Hnd Hrange]]]].
  assert (Hcell : forall f v, f ∈ s -> variable (g f) = Some v -> cell h1 v = cell h v).
  { intros f v Hf Hv. apply Hcells. destruct (Hsum f Hf) as [Hn _].
    apply (Hacc f v Hn Hv). }
  split; [|split; [|split; [exact Hnd|]]].
  - split; [|split].
    + intros f. rewrite Hrec. unfold received. rewrite Hfl. reflexivity.
    + intros f Hf. destruct (Hsum f Hf) as [Hn [v [gt [Hv [Hgt [Hlt Hpay]]]]]].
      split; [exact Hn|]. exists v, gt. split; [exact Hv|].
      rewrite (Hcell f v Hf Hv). split; [exact Hgt|]. split; [lia|].
      rewrite (Hcells gt Hlt), (flowed_into_same h h1 f Hfl). exact Hpay.
    + intros f f' v v' gt Hf Hf' Hv Hv' Hg Hg'.
      rewrite (Hcell f v Hf Hv) in Hg. rewrite (Hcell f' v' Hf' Hv') in Hg'.
      eapply Hapart; eassumption.
  - intros f v Hn Hv. destruct (Hacc f v Hn Hv) as [Hlt Hinj]. split; [lia | exact Hinj].
  - rewrite Forall_forall in Hrange |- *. intros t Ht. specialize (Hrange t Ht).
    split; [|lia]. intros f v Hf Hv Hg. rewrite (Hcell f v Hf Hv) in Hg.
    destruct (Hsum f Hf) as [_ [v0 [gt [Hv0 [Hgt [Hlt _]]]]]].
    rewrite Hv in Hv0. injection Hv0 as <-. rewrite Hg in Hgt. injection Hgt as <-. lia.
Qed.

Lemma propagate_sums (fuel : nat) :
  forall q s (h h' : Heap),
    sums_kept g s h -> accumulators_apart g h ->
    propagate fuel g q s h = (Ok tt, h') ->
    exists s', sums_kept g s' h'.
Proof.
  induction fuel as [|fuel IH]; intros q s h h' Hk Ha.
  - destruct q; [|discriminate]. cbn. intros [= <-]. eauto.
  - destruct q as [|[[n|] t] q]; [cbn; intros [= <-]; eauto| |discriminate].
    cbn [propagate fst snd]. unfold exec_bind at 1.
    destruct (apply (g n) [t] h) as [[gradients|e] h1] eqn:Happly; [|discriminate].
    destruct (apply_sums _ _ _ _ _ _ Hk Ha Happly) as [Hk1 [Ha1 [Hnd Hall]]].
    unfold exec_bind at 1. unfold lift_res.
    destruct (length gradients =? length (next_edges (g n)))%nat;
      cbn [TORCH_INTERNAL_ASSERT]; [|discriminate].
    unfold exec_bind at 1.
    destruct (deliver_all g (next_edges (g n)) gradients (q, s) h1)
      as [[[q' s']|e] h2] eqn:Hd; [|discriminate].
    destruct (deliver_all_sums _ _ _ _ _ _ _ _ Hk1 Ha1 Hnd Hall Hd) as [Hk2 Hn2].
    cbn [fst snd]. apply IH; [exact Hk2|].
    intros f v Hname Hv. rewrite Hn2. apply Ha1; assumption.
Qed.

(** X22. When no gradient is shared, the gradients add up.  On a graph
    whose nodes hand out tensors of their own, in which no two
    accumulators have the same variable, a gradient walk that starts
    with no gradient handed out yet and ends leaves, for every
    accumulator that was handed a gradient, a grad of its variable whose
    contents are the sum of the gradients handed to the accumulator;
    and no two of these accumulators have the same tensor as grad. *)
Theorem gradients_sum_without_sharing (fuel : nat)
    (execution_queue : list (option NodeId * positive)) (h h' : Heap) :
  accumulators_apart g h ->
  flowed h = [] ->
  propagate fuel g execution_queue ∅ h = (Ok tt, h') ->
  (forall f, received f h' ->
     String.eqb (name (g f)) AccumulateGrad_name = true /\
     exists v gt, variable (g f) = Some v /\ grad (cell h' v) = Some gt /\
       payload (cell h' gt) = flowed_into f h') /\
  (forall f f' v v' gt, received f h' -> received f' h' ->
     variable (g f) = Some v -> variable (g f') = Some v' ->
     grad (cell h' v) = Some gt -> grad (cell h' v') = Some gt -> f = f').
Proof.
  intros Ha Hempty Hrun.
  assert (Hk : sums_kept g ∅ h).
  { split; [|split].
    - intros f. unfold received. rewrite Hempty. split.
      + intros Hin. apply not_elem_of_empty in Hin. contradiction.
      + intros [p Hin]. inversion Hin.
    - intros f Hin. apply not_elem_of_empty in Hin. contradiction.
    - intros f f' v v' gt Hin. apply not_elem_of_empty in Hin. contradiction. }
  destruct (propagate_sums fuel _ _ _ _ Hk Ha Hrun) as [s' [Hrec [Hsum Hapart]]].
  split.
  - intros f Hf. apply Hrec in Hf. destruct (Hsum f Hf) as [Hn [v [gt [Hv [Hg [_ Hp]]]]]].
    split; [exact Hn|]. exists v, gt. auto.
  - intros f f' v v' gt Hf Hf'. apply Hrec in Hf. apply Hrec in Hf'.
    apply Hapart; assumption.
Qed.

End SumsWithoutSharing.

(** *** A graph whose nodes hand out tensors of their own *)

Lemma scaled_gradients_fresh (p : Z) (factors : list Z) :
  forall (h : Heap) outs h',
    Examples.scaled_gradients p factors h = (Ok outs, h') ->
    (next h <= next h')%positive /\
    flowed h' = flowed h /\
    (forall t, (t < next h)%positive -> cell h' t = cell h t) /\
    NoDup outs /\
    Forall (fun t => (next h <= t < next h')%positive) outs.
Proof.
  induction factors as [|k factors IH]; intros h outs h'.
  - cbn. intros [= <- <-]. repeat split; try lia; constructor.
  - cbn [Examples.scaled_gradients]. unfold exec_bind at 1. cbn [alloc].
    unfold exec_bind at 1.
    match goal with |- context [Examples.scaled_gradients p factors ?h1] =>
      destruct (Examples.scaled_gradients p factors h1) as [[ts|e] h2] eqn:Hrest;
      [|discriminate] end.
    apply IH in Hrest as [Hle [Hfl [Hcells [Hnd Hrange]]]].
    cbn [next flowed cell] in *. intros [= <- <-].
    split; [lia|]. split; [exact Hfl|]. split; [|split].
    + intros t Ht. rewrite Hcells by lia. apply fn_lookup_insert_ne. lia.
    + constructor; [|exact Hnd]. intros Hin. apply list_elem_of_In in Hin.
      rewrite Forall_forall in Hrange. specialize (Hrange _ Hin). lia.
    + constructor; [lia|]. rewrite Forall_forall in Hrange |- *.
      intros t Ht. specialize (Hrange t Ht). lia.
Qed.

Lemma fresh_graph_of (nodes : list (positive * Node)) :
  Forall (fun p => forall grads (h : Heap) outs h',
            apply (snd p) grads h = (Ok outs, h') ->
            (next h <= next h')%positive /\
            flowed h' = flowed h /\
            (forall t, (t < next h)%positive -> cell h' t = cell h t) /\
            NoDup outs /\
            Forall (fun t => (next h <= t < next h')%positive) outs) nodes ->
  fresh_gradients (Examples.graph_of nodes).
Proof.
  induction 1 as [|[k node] nodes Hnode _ IH]; intros n grads h outs h'.
  - cbn. intros [= <- <-]. repeat split; try lia; constructor.
  - cbn. destruct (Pos.eqb k n); [apply Hnode | apply IH].
Qed.

Lemma scaled_graph_fresh (x : positive) : fresh_gradients (Examples.scaled_graph x).
Proof.
  apply fresh_graph_of. unfold Examples.scaled_graph.
  constructor; [|constructor; [|constructor; [|constructor]]];
    cbn [snd]; intros grads h outs h'.
  - destruct grads as [|grad grads];
      [cbn; intros [= <- <-]; repeat split; try lia; constructor|].
    exact (scaled_gradients_fresh (payload (cell h grad)) _ h outs h').
  - destruct grads as [|grad grads];
      [cbn; intros [= <- <-]; repeat split; try lia; constructor|].
    exact (scaled_gradients_fresh (payload (cell h grad)) _ h outs h').
  - cbn. intros [= <- <-]. repeat split; try lia; constructor.
Qed.

Lemma scaled_graph_apart :
  accumulators_apart (Examples.scaled_graph 1) Examples.scaled_heap.
Proof.
  assert (Hacc : forall f v,
            String.eqb (name (Examples.scaled_graph 1 f)) AccumulateGrad_name = true ->
            variable (Examples.scaled_graph 1 f) = Some v -> f = 3%positive /\ v = 1%positive).
  { intros f v Hname Hv. unfold Examples.scaled_graph in *. cbn in Hname, Hv.
    destruct (Pos.eqb_spec 1 f) as [<-|_]; [discriminate|].
    destruct (Pos.eqb_spec 2 f) as [<-|_]; [discriminate|].
    destruct (Pos.eqb_spec 3 f) as [<-|_]; [|discriminate].
    cbn in Hv. injection Hv as <-. auto. }
  intros f v Hname Hv. destruct (Hacc f v Hname Hv) as [-> ->].
  split; [reflexivity|]. intros f' Hname' Hv'.
  destruct (Hacc f' 1%positive Hname' Hv') as [-> _]. reflexivity.
Qed.

Lemma gradients_sum_without_sharing_witness :
  let h' := snd (propagate 5 (Examples.scaled_graph 1) [(Some 1%positive, 2%positive)] ∅
                   Examples.scaled_heap) in
  flowed h' = [(3%positive, 3); (3%positive, 4); (3%positive, 10)] /\
  exists gt, grad (cell h' 1%positive) = Some gt /\
    payload (cell h' gt) = flowed_into 3 h' /\ flowed_into 3 h' = 17.
Proof.
  intros h'.
  assert (Hfl : flowed h' = [(3%positive, 3); (3%positive, 4); (3%positive, 10)])
    by (vm_compute; reflexivity).
  split; [exact Hfl|].
  assert (Hrun : propagate 5 (Examples.scaled_graph 1) [(Some 1%positive, 2%positive)] ∅
                   Examples.scaled_heap = (Ok tt, h'))
    by (apply pair_of_fst; vm_compute; reflexivity).
  destruct (gradients_sum_without_sharing (Examples.scaled_graph 1) (scaled_graph_fresh 1)
              5 _ _ _ scaled_graph_apart eq_refl Hrun) as [Hsum _].
  destruct (Hsum 3%positive) as [_ [v [gt [Hv [Hg Hp]]]]].
  { exists 3. rewrite Hfl. left. }
  cbn in Hv. injection Hv as <-. exists gt. split; [exact Hg|]. split; [exact Hp|].
  unfold flowed_into. rewrite Hfl. reflexivity.
Defined.

(** ** The call of a registered operator *)

(** The marking loop completes on tensors of a floating point or
    complex dtype. *)
Lemma mark_inputs_ok (aten_op : ATenOperator) (arguments : list IValue) (n : nat) :
  forall (i : nat) (idx : gmap positive nat) (h : Heap),
    (forall j, (i <= j < i + n)%nat ->
       is_Some (is_optional_arguments aten_op !! j) /\
       exists t, arguments !! j = Some (IVTensor t) /\
                 isDifferentiableType (scalar_type (cell h t)) = true) ->
    exists idx' h', mark_inputs aten_op arguments i n idx h = (Ok idx', h').
Proof.
  induction n as [|n IH]; intros i idx h Hall.
  - exists idx, h. reflexivity.
  - destruct (Hall i) as [[b Hb] [t [Ht Hd]]]; [lia|].
    cbn [mark_inputs].
    rewrite (bind_ok _ _ h h b) by (unfold lift_res, at_; rewrite Hb; reflexivity).
    rewrite (bind_ok _ _ h h (IVTensor t))
      by (unfold lift_res, at_; rewrite Ht; reflexivity).
    rewrite (bind_ok _ _ h h t) by (unfold lift_res; destruct b; reflexivity).
    rewrite (bind_ok _ _ h _ tt (eq_trans (requires_grad__run t h)
               ltac:(rewrite Hd; reflexivity))).
    apply IH. intros j Hj. destruct (Hall j) as [Hopt [t' [Ht' Hd']]]; [lia|].
    split; [exact Hopt|]. exists t'. split; [exact Ht'|]. cbn [cell].
    destruct (decide (t' = t)) as [->|Hne].
    + rewrite fn_lookup_insert. exact Hd.
    + rewrite fn_lookup_insert_ne by congruence. exact Hd'.
Qed.


Section ExecuteRegistered.
Context `{ATenDLPack}.


End ExecuteRegistered.




(** ** The marking loop and the dtype of the inputs *)

Lemma requires_grad__scalar_type (t : Tensor) (h h' : Heap) :
  requires_grad_ t h = (Ok tt, h') ->
  isDifferentiableType (scalar_type (cell h t)) = true /\
  forall t', scalar_type (cell h' t') = scalar_type (cell h t').
Proof.
  rewrite requires_grad__run.
  destruct (isDifferentiableType (scalar_type (cell h t))); [|discriminate].
  intros [= <-]. split; [reflexivity|]. intros t'. cbn [cell].
  destruct (decide (t' = t)) as [->|Hne].
  - rewrite fn_lookup_insert. reflexivity.
  - rewrite fn_lookup_insert_ne by congruence. reflexivity.
Qed.

Lemma mark_inputs_complete (aten_op : ATenOperator) (arguments : list IValue) (n : nat) :
  forall (i : nat) (idx : gmap positive nat) (h : Heap) idx' h',
    mark_inputs aten_op arguments i n idx h = (Ok idx', h') ->
    forall j, (i <= j < i + n)%nat ->
      exists t, arguments !! j = Some (IVTensor t) /\
                isDifferentiableType (scalar_type (cell h t)) = true.
Proof.
  induction n as [|n IH]; intros i idx h idx' h' Hrun j Hj; [lia|].
  cbn [mark_inputs] in Hrun. unfold exec_bind at 1 in Hrun. unfold lift_res at 1 in Hrun.
  destruct (at_ (is_optional_arguments aten_op) i) as [is_optional|e]; [|discriminate].
  unfold exec_bind at 1 in Hrun. unfold lift_res at 1 in Hrun. unfold at_ at 1 in Hrun.
  destruct (arguments !! i) as [argument|] eqn:Ea; [|discriminate].
  unfold exec_bind at 1 in Hrun. unfold lift_res at 1 in Hrun.
  destruct (if is_optional then toOptionalTensor_value argument else toTensor argument)
    as [t0|e] eqn:Et; [|discriminate].
  apply tensor_argument in Et. subst argument.
  unfold exec_bind at 1 in Hrun.
  destruct (requires_grad_ t0 h) as [[[]|e] h1] eqn:Hreq; [|discriminate].
  apply requires_grad__scalar_type in Hreq as [Hd Hsame].
  destruct (decide (j = i)) as [->|Hne].
  - exists t0. auto.
  - destruct (IH _ _ _ _ _ Hrun j) as [t [Ht Hdt]]; [lia|].
    exists t. split; [exact Ht|]. rewrite <- Hsame. exact Hdt.
Qed.

Lemma mark_inputs_throws (aten_op : ATenOperator) (arguments : list IValue) (n : nat) :
  forall (i : nat) (idx : gmap positive nat) (h : Heap) (k : nat) (t : Tensor),
    (i <= k < i + n)%nat ->
    (forall j, (i <= j <= k)%nat -> is_Some (is_optional_arguments aten_op !! j)) ->
    (forall j, (i <= j < k)%nat ->
       exists t', arguments !! j = Some (IVTensor t') /\
                  isDifferentiableType (scalar_type (cell h t')) = true) ->
    arguments !! k = Some (IVTensor t) ->
    isDifferentiableType (scalar_type (cell h t)) = false ->
    fst (mark_inputs aten_op arguments i n idx h) = Err HostThrow.
Proof.
  induction n as [|n IH]; intros i idx h k t Hk Hopt Hbefore Ht Hd; [lia|].
  destruct (Hopt i) as [b Hb]; [lia|]. cbn [mark_inputs].
  rewrite (bind_ok _ _ h h b) by (unfold lift_res, at_; rewrite Hb; reflexivity).
  destruct (decide (k = i)) as [->|Hne].
  - rewrite (bind_ok _ _ h h (IVTensor t))
      by (unfold lift_res, at_; rewrite Ht; reflexivity).
    rewrite (bind_ok _ _ h h t) by (unfold lift_res; destruct b; reflexivity).
    rewrite (bind_err _ _ h h HostThrow); [reflexivity|].
    rewrite requires_grad__run, Hd. reflexivity.
  - destruct (Hbefore i) as [t0 [Ht0 Hd0]]; [lia|].
    rewrite (bind_ok _ _ h h (IVTensor t0))
      by (unfold lift_res, at_; rewrite Ht0; reflexivity).
    rewrite (bind_ok _ _ h h t0) by (unfold lift_res; destruct b; reflexivity).
    destruct (requires_grad_ t0 h) as [[[]|e] h1] eqn:Hreq;
      [|rewrite requires_grad__run, Hd0 in Hreq; discriminate].
    rewrite (bind_ok _ _ _ _ _ Hreq).
    apply requires_grad__scalar_type in Hreq as [_ Hsame].
    apply (IH _ _ _ k t); [lia | intros; apply Hopt; lia | | exact Ht | rewrite Hsame; exact Hd].
    intros j Hj. destruct (Hbefore j) as [t' [Ht' Hd']]; [lia|].
    exists t'. rewrite Hsame. auto.
Qed.

(** X23. The marking loop needs inputs that can require grad.  Over
    arguments the schema has, the loop over [requires_grad.size()]
    completes exactly when each of the arguments it marks is a tensor of
    a floating point or complex dtype; when the first one that is not is
    a tensor of another dtype, torch throws in [requires_grad_]. *)
Theorem marking_needs_differentiable (aten_op : ATenOperator) (arguments : list IValue)
    (n : nat) (h : Heap) :
  (n <= length (is_optional_arguments aten_op))%nat ->
  let r := mark_inputs aten_op arguments 0 n ∅ h in
  ((exists idx, fst r = Ok idx) <->
   forall i, (i < n)%nat ->
     exists t, arguments !! i = Some (IVTensor t) /\
               isDifferentiableType (scalar_type (cell h t)) = true) /\
  (forall i t, (i < n)%nat ->
     (forall j, (j < i)%nat ->
        exists t', arguments !! j = Some (IVTensor t') /\
                   isDifferentiableType (scalar_type (cell h t')) = true) ->
     arguments !! i = Some (IVTensor t) ->
     isDifferentiableType (scalar_type (cell h t)) = false ->
     fst r = Err HostThrow).
Proof.
  intros Hn r. split; [split|].
  - intros [idx Hr]. subst r.
    destruct (mark_inputs aten_op arguments 0 n ∅ h) as [r0 h'] eqn:Hrun.
    cbn [fst] in Hr. subst r0. intros i Hi.
    apply (mark_inputs_complete _ _ _ _ _ _ _ _ Hrun). lia.
  - intros Hall. subst r.
    destruct (mark_inputs_ok aten_op arguments n 0 ∅ h) as [idx [h' Hrun]].
    + intros j Hj. split; [apply lookup_lt_is_Some; lia | apply Hall; lia].
    + exists idx. rewrite Hrun. reflexivity.
  - intros i t Hi Hbefore Ht Hd. subst r.
    apply (mark_inputs_throws _ _ _ _ _ _ i t); [lia| | |exact Ht|exact Hd].
    + intros j Hj. apply lookup_lt_is_Some. lia.
    + intros j Hj. apply Hbefore. lia.
Qed.

Lemma marking_needs_differentiable_witness :
  let aten_op := spec_aten_op Examples.add_add_operator in
  let h := snd (@fromDLPack Examples.sample_dlpack Examples.scalar_int64 Examples.empty_heap) in
  scalar_type (cell h 1%positive) = Examples.int64_dtype /\
  fst (mark_inputs aten_op [IVTensor 1%positive] 0 1 ∅ h) = Err HostThrow.
Proof.
  intros aten_op h. split; [reflexivity|].
  destruct (marking_needs_differentiable aten_op [IVTensor 1%positive] 1 h) as [_ Hthrow].
  - cbn. lia.
  - apply (Hthrow 0%nat 1%positive); [lia | intros j Hj; lia | reflexivity | reflexivity].
Defined.
